(** * Registry Broker plugin for Hedera Agent Kit: credential resolution,
      operation dispatch and the conversation-handle store.

    A shallow embedding of [RegistryBrokerClientProvider.ts] (the client
    provider and the operation tool) and [RegistryBrokerConversationStore.ts].

    Conventions of the embedding.
    - A JavaScript string is a [string]: the sequence of its UTF-8 bytes.
      [trim] strips the white space and line terminators of ECMAScript, in
      their UTF-8 encodings. [String.prototype.toLowerCase] follows the
      Unicode tables of the host and is a field of [World].
    - A promise is the outcome it settles to: [Ok v] when it resolves with
      [v], [Throw e] when it rejects with [e]; [await] is monadic bind.
    - Everything outside the repository (the SDK client, the Hedera client,
      the logger, the process environment, the id generator) is a parameter:
      a field of [World], of the provider's configuration, or of the call's
      context. What the code does to them is recorded in a trace of events. *)

From Stdlib Require Import String Ascii List ZArith QArith Bool Lia.
From stdpp Require Import base option gmap strings.

Set Warnings "-register-all".
Close Scope Q_scope.
Open Scope string_scope.
Open Scope list_scope.

(** ** JavaScript string primitives *)

(** White space of ECMAScript ([WhiteSpace] and [LineTerminator]), by the
    length of its UTF-8 encoding. One byte: U+0009..U+000D and U+0020. *)
Definition is_ws1 (c : ascii) : bool :=
  let n := N_of_ascii c in
  ((9 <=? n) && (n <=? 13) || (n =? 32))%N.

(** Two bytes: U+00A0 (C2 A0). *)
Definition is_ws2 (c1 c2 : ascii) : bool :=
  ((N_of_ascii c1 =? 194) && (N_of_ascii c2 =? 160))%N.

(** Three bytes: U+1680 (E1 9A 80), U+2000..U+200A (E2 80 80..8A), U+2028,
    U+2029 and U+202F (E2 80 A8, A9, AF), U+205F (E2 81 9F), U+3000
    (E3 80 80), U+FEFF (EF BB BF). *)
Definition is_ws3 (c1 c2 c3 : ascii) : bool :=
  let a := N_of_ascii c1 in
  let b := N_of_ascii c2 in
  let c := N_of_ascii c3 in
  ((a =? 225) && (b =? 154) && (c =? 128)
   || (a =? 226) && (b =? 128)
      && ((128 <=? c) && (c <=? 138) || (c =? 168) || (c =? 169) || (c =? 175))
   || (a =? 226) && (b =? 129) && (c =? 159)
   || (a =? 227) && (b =? 128) && (c =? 128)
   || (a =? 239) && (b =? 187) && (c =? 191))%N.

(** [s] less its first code point, when that is white space. *)
Definition skip_ws (s : string) : option string :=
  match s with
  | EmptyString => None
  | String c1 r1 =>
      if is_ws1 c1 then Some r1
      else match r1 with
           | EmptyString => None
           | String c2 r2 =>
               if is_ws2 c1 c2 then Some r2
               else match r2 with
                    | EmptyString => None
                    | String c3 r3 => if is_ws3 c1 c2 c3 then Some r3 else None
                    end
           end
  end.

(** [String.prototype.trimStart] *)
Fixpoint trimStart (s : string) : string :=
  match s with
  | EmptyString => s
  | String c1 r1 =>
      if is_ws1 c1 then trimStart r1
      else match r1 with
           | EmptyString => s
           | String c2 r2 =>
               if is_ws2 c1 c2 then trimStart r2
               else match r2 with
                    | EmptyString => s
                    | String c3 r3 => if is_ws3 c1 c2 c3 then trimStart r3 else s
                    end
           end
  end.

(** [s.length > 0] *)
Definition nonEmpty (s : string) : bool :=
  match s with EmptyString => false | _ => true end.

(** [String.prototype.trimEnd]: the string is cut where what follows is
    white space only. *)
Fixpoint trimEnd (s : string) : string :=
  match s with
  | EmptyString => EmptyString
  | String c r => if nonEmpty (trimStart s) then String c (trimEnd r) else EmptyString
  end.

(** [String.prototype.trim] *)
Definition trim (s : string) : string := trimEnd (trimStart s).

(** Lower case of the letters A..Z: what [toLowerCase] does to a string
    whose letters are ASCII. The sample worlds use it. *)
Definition lower_ascii (c : ascii) : ascii :=
  let n := N_of_ascii c in
  if ((65 <=? n) && (n <=? 90))%N then ascii_of_N (n + 32) else c.

Fixpoint ascii_toLowerCase (s : string) : string :=
  match s with
  | EmptyString => EmptyString
  | String c r => String (lower_ascii c) (ascii_toLowerCase r)
  end.

(** [String.prototype.startsWith] *)
Definition startsWith (p s : string) : bool := String.prefix p s.

(** The one-character string holding a double quote. *)
Definition dquote : string := String (ascii_of_nat 34) EmptyString.

(** [Buffer.from(message, 'utf8')] *)
Definition utf8_bytes (s : string) : list Byte.byte := list_byte_of_string s.

Definition b64_alphabet : string :=
  "ABCDEFGHIJKLMNOPQRSTUVWXYZabcdefghijklmnopqrstuvwxyz0123456789+/".

Definition b64_digit (n : N) : ascii :=
  match String.get (N.to_nat n) b64_alphabet with
  | Some c => c
  | None => "="%char
  end.

(** [Buffer.from(bytes).toString('base64')] *)
Fixpoint base64 (l : list Byte.byte) : string :=
  match l with
  | [] => EmptyString
  | [a] =>
      let n := (Byte.to_N a * 65536)%N in
      String (b64_digit (n / 262144))
        (String (b64_digit ((n / 4096) mod 64)) "==")
  | [a; b] =>
      let n := (Byte.to_N a * 65536 + Byte.to_N b * 256)%N in
      String (b64_digit (n / 262144))
        (String (b64_digit ((n / 4096) mod 64))
           (String (b64_digit ((n / 64) mod 64)) "="))
  | a :: b :: c :: r =>
      let n := (Byte.to_N a * 65536 + Byte.to_N b * 256 + Byte.to_N c)%N in
      String (b64_digit (n / 262144))
        (String (b64_digit ((n / 4096) mod 64))
           (String (b64_digit ((n / 64) mod 64))
              (String (b64_digit (n mod 64)) (base64 r))))
  end.

(** ** JavaScript values *)

(** A JavaScript number: an IEEE double is NaN, an infinity or a rational. *)
Inductive number : Type :=
| NaN
| Infinity (negative : bool)
| Finite (q : Q).

(** Values that cross the tool's boundary. Objects are property lists (the
    first binding of a key counts); a function is named by an identifier
    and run by the world. The code never writes to an object it is given,
    so an object is identified with its value; two handles differ by their
    fields or by the identifiers of their functions. *)
Inductive value : Type :=
| VUndefined
| VNull
| VBool (b : bool)
| VNum (n : number)
| VStr (s : string)
| VArr (items : list value)
| VObj (props : list (string * value))
| VFun (f : nat).

Inductive jstype : Type :=
| TUndefined | TObject | TBoolean | TNumber | TString | TFunction.

(** [typeof v] *)
Definition typeof (v : value) : jstype :=
  match v with
  | VUndefined => TUndefined
  | VNull | VArr _ | VObj _ => TObject
  | VBool _ => TBoolean
  | VNum _ => TNumber
  | VStr _ => TString
  | VFun _ => TFunction
  end.

(** [Boolean(v)] *)
Definition truthy (v : value) : bool :=
  match v with
  | VUndefined | VNull => false
  | VBool b => b
  | VNum NaN => false
  | VNum (Infinity _) => true
  | VNum (Finite q) => negb (Qeq_bool q 0)
  | VStr s => nonEmpty s
  | VArr _ | VObj _ | VFun _ => true
  end.

Fixpoint assoc {A : Type} (k : string) (l : list (string * A)) : option A :=
  match l with
  | [] => None
  | (k', a) :: r => if String.eqb k k' then Some a else assoc k r
  end.

(** [key in obj] for the keys the code uses (none is a member of
    [Object.prototype]). *)
Definition has_key (v : value) (k : string) : bool :=
  match v with
  | VObj ps => match assoc k ps with Some _ => true | None => false end
  | _ => false
  end.

(** [obj[key]], same proviso. *)
Definition get_prop (v : value) (k : string) : value :=
  match v with
  | VObj ps => match assoc k ps with Some x => x | None => VUndefined end
  | _ => VUndefined
  end.

(** [v ?? d] *)
Definition nullish (v d : value) : value :=
  match v with
  | VUndefined | VNull => d
  | _ => v
  end.

(** ** Errors and outcomes *)

(** One issue of a [ZodError]: the issue code, and the message when the
    source supplies one (zod's default text otherwise). *)
Inductive issue : Type :=
| Issue (code : string) (message : option string).

Inductive error : Type :=
| ZodError (issues : list issue)
| JsError (message : string)
| TypeError (message : string)
| RegistryBrokerParseError (message : string) (rawValue : value)
| HostError (thrown : value).

Inductive outcome (A : Type) : Type :=
| Ok (a : A)
| Throw (e : error).

Arguments Ok {A} a.
Arguments Throw {A} e.

(** ** The provider's data model ([RegistryBrokerClientProvider.ts]) *)

(** [transactionSigner?: (message: Uint8Array) => Promise<Uint8Array>] *)
Definition TransactionSigner : Type := list Byte.byte -> outcome (list Byte.byte).

(** The [sign] callback of ledger options: the closure built by
    [deriveLedgerOptionsFromHederaClient] over the operator's signer and
    formatted public key, or a callback the configuration supplies. *)
Inductive SignCallback : Type :=
| SignWithOperator (transactionSigner : TransactionSigner) (publicKey : option string)
| SignConfigured (f : nat).

(** [LedgerCredentialAuthOptions] of the SDK: the fields this code reads or
    writes, and the others kept as they are. *)
Record LedgerCredentialAuthOptions : Type := {
  accountId : string;
  network : option string;
  hederaPrivateKey : option string;
  label : option string;
  sign : option SignCallback;
  otherAuthFields : list (string * value)
}.

(** [RegistryBrokerLedgerOptions extends LedgerCredentialAuthOptions] *)
Record RegistryBrokerLedgerOptions : Type := {
  authOptions : LedgerCredentialAuthOptions;
  autoAuthenticate : option bool
}.

(** [RegistryBrokerClientOptions] of the SDK, same treatment. *)
Record RegistryBrokerClientOptions : Type := {
  baseUrl : option string;
  apiKey : option string;
  ledgerApiKey : option string;
  otherClientFields : list (string * value)
}.

(** [RegistryBrokerPluginClientOptions extends RegistryBrokerClientOptions] *)
Record RegistryBrokerPluginClientOptions : Type := {
  clientOverrides : RegistryBrokerClientOptions;
  disableEnvApiKey : option bool;
  disableEnvLedgerApiKey : option bool
}.

Record RegistryBrokerPluginConfiguration : Type := {
  client : option RegistryBrokerPluginClientOptions;
  ledger : option RegistryBrokerLedgerOptions
}.

(** [{ toString?: () => string } | string]. The [toString] of an object
    returns a string or throws; [None] stands for an object without a
    callable [toString], or one whose [toString] returns no string. *)
Inductive StringLike : Type :=
| SLString (s : string)
| SLObject (toString : option (outcome string)).

Record HederaOperatorLike : Type := {
  op_accountId : option StringLike;
  op_publicKey : option StringLike;
  op_transactionSigner : option TransactionSigner
}.

(** A ledger-id method is absent, or returns a value, or throws
    ([ledgerToString]: [None] also when what it returns is no string). *)
Record HederaLedgerIdLike : Type := {
  isMainnet : option (outcome bool);
  isPreviewnet : option (outcome bool);
  isTestnet : option (outcome bool);
  ledgerToString : option (outcome string)
}.

(** [getOperator?: () => HederaOperatorLike | null]: absent, or a function
    that returns an operator or [null], or throws. *)
Record HederaOperatorClient : Type := {
  ledgerId : option HederaLedgerIdLike;
  getOperator : option (outcome (option HederaOperatorLike))
}.

Record RegistryBrokerClientResolutionContext : Type := {
  hederaClient : option HederaOperatorClient
}.

(** The logger's methods are called through [?.]: each may be missing. *)
Record RegistryBrokerPluginLogger : Type := {
  has_info : bool;
  has_warn : bool
}.

Inductive level : Type := LInfo | LWarn.

(** What the code does to the outside. *)
Inductive event : Type :=
| EvEnvRead (key : string)
| EvGetOperator
| EvLog (l : level) (message : string)
| EvCreateClient (options : RegistryBrokerClientOptions)
| EvAuthenticate (clientObj : value) (options : LedgerCredentialAuthOptions)
| EvCall (f : nat) (this : value) (args : list value)
| EvInitializeAgent (options : value)
| EvCreateHandleId (handleId : string).

(** Where [createHandleId] takes the id from: [crypto.randomUUID()] when it
    is a function, else the renderings of [Date.now()] and [Math.random()]. *)
Inductive HandleIdSource : Type :=
| CryptoUUID (uuid : string)
| TimeAndRandom (now36 random36 : string).

(** The outside: the process environment, [String.prototype.toLowerCase],
    the SDK and host functions (their results may depend on everything that
    happened so far), the id source. *)
Record World : Type := {
  process_env : string -> option string;
  toLowerCase : string -> string;
  sdk_authenticate :
    list event -> value -> LedgerCredentialAuthOptions -> outcome unit;
  host_call : list event -> nat -> value -> list value -> outcome value;
  sdk_initializeAgent : list event -> value -> outcome value;
  handleIdSource : list event -> HandleIdSource
}.

(** [new RegistryBrokerClientProvider(config, logger, createClient)] *)
Record RegistryBrokerClientProvider : Type := {
  config : option RegistryBrokerPluginConfiguration;
  logger : RegistryBrokerPluginLogger;
  createClient : RegistryBrokerClientOptions -> outcome value
}.

(** The mutable state: the provider's cached promise, the store's map, and
    the trace (oldest event first). *)
Record state : Type := {
  clientPromise : option (outcome value);
  handles : gmap string value;
  trace : list event
}.

(** ** The monad of effects *)

Definition M (A : Type) : Type := state -> outcome A * state.

Definition ret {A : Type} (a : A) : M A := fun s => (Ok a, s).

Definition throw {A : Type} (e : error) : M A := fun s => (Throw e, s).

Definition bind {A B : Type} (m : M A) (k : A -> M B) : M B :=
  fun s =>
    match m s with
    | (Ok a, s') => k a s'
    | (Throw e, s') => (Throw e, s')
    end.

(** [try { m } catch (error) { h error }] *)
Definition try_catch {A : Type} (m : M A) (h : error -> M A) : M A :=
  fun s =>
    match m s with
    | (Ok a, s') => (Ok a, s')
    | (Throw e, s') => h e s'
    end.

Definition emit (e : event) : M unit :=
  fun s =>
    (Ok tt, {| clientPromise := clientPromise s;
               handles := handles s;
               trace := trace s ++ [e] |}).

Definition get_trace : M (list event) := fun s => (Ok (trace s), s).

(** [await p] of a promise that settled to [o]; also a call of a host
    function that returned or threw [o] and has no event of its own. *)
Definition settle {A : Type} (o : outcome A) : M A := fun s => (o, s).

Notation "'do' x <- m ; k" := (bind m (fun x => k))
  (at level 10, x name, m at level 100, k at level 200).
Notation "'run' m ; k" := (bind m (fun _ => k))
  (at level 10, m at level 100, k at level 200).

(** ** [RegistryBrokerClientProvider] *)

Record LedgerEnvParams : Type := {
  accountKey : string;
  privateKey : string;
  fallbackAccountKey : option string;
  fallbackPrivateKey : option string;
  preferMainnet : bool
}.

Record LedgerEnvSet : Type := {
  set_accountId : string;
  set_privateKey : string;
  set_preferMainnet : bool
}.

Inductive LedgerCheck : Type := IsMainnetCheck | IsPreviewnetCheck | IsTestnetCheck.

Record SignResult : Type := {
  signature : string;
  signatureKind : string;
  signedPublicKey : option string
}.

(** [!x] for an optional string. *)
Definition falsy_string (x : option string) : bool :=
  match x with
  | Some s => negb (nonEmpty s)
  | None => true
  end.

(** [s.trim()] kept when [trimmed.length > 0]. *)
Definition trimmed_non_empty (s : string) : option string :=
  let trimmed := trim s in
  if nonEmpty trimmed then Some trimmed else None.

Definition normalizeSecret (value : option string) : option string :=
  match value with
  | None => None
  | Some v => if nonEmpty v then trimmed_non_empty v else None
  end.

Definition normaliseHederaNetwork (w : World) (value : option string)
    (preferMainnet : bool) : string :=
  let fallback := if preferMainnet then "hedera:mainnet" else "hedera:testnet" in
  match value with
  | None => fallback
  | Some v =>
      let raw := trim v in
      if nonEmpty raw then
        let lower := toLowerCase w raw in
        if startsWith "hedera:" lower then lower else "hedera:" +:+ lower
      else fallback
  end.

Definition normalizeLedgerConfig (w : World) (ledger : RegistryBrokerLedgerOptions)
  : RegistryBrokerLedgerOptions :=
  if falsy_string (network (authOptions ledger)) then ledger
  else
    {| authOptions :=
         {| accountId := accountId (authOptions ledger);
            network :=
              Some (normaliseHederaNetwork w (network (authOptions ledger)) false);
            hederaPrivateKey := hederaPrivateKey (authOptions ledger);
            label := label (authOptions ledger);
            sign := sign (authOptions ledger);
            otherAuthFields := otherAuthFields (authOptions ledger) |};
       autoAuthenticate := autoAuthenticate ledger |}.

(** The call [value.toString?.()] is not guarded: what it throws leaves
    [formatAccountId]. *)
Definition formatAccountId (value : option StringLike) : outcome (option string) :=
  match value with
  | Some (SLString s) => Ok (trimmed_non_empty s)
  | Some (SLObject (Some (Ok formatted))) => Ok (trimmed_non_empty formatted)
  | Some (SLObject (Some (Throw e))) => Throw e
  | Some (SLObject None) => Ok None
  | None => Ok None
  end.

Definition invokeLedgerCheck (ledgerId : HederaLedgerIdLike) (method : LedgerCheck)
  : bool :=
  let fn :=
    match method with
    | IsMainnetCheck => isMainnet ledgerId
    | IsPreviewnetCheck => isPreviewnet ledgerId
    | IsTestnetCheck => isTestnet ledgerId
    end in
  match fn with
  | Some (Ok b) => b
  | Some (Throw _) => false
  | None => false
  end.

(** The body of the [sign] closure. *)
Definition operatorSign (transactionSigner : TransactionSigner)
    (publicKey : option string) (message : string) : outcome SignResult :=
  let payload := utf8_bytes message in
  match transactionSigner payload with
  | Ok signatureBytes =>
      Ok {| signature := base64 signatureBytes;
            signatureKind := "raw";
            signedPublicKey := publicKey |}
  | Throw e => Throw e
  end.

(** Calling a [sign] callback; one the configuration supplied is not this
    repository's code. *)
Definition runSign (cb : SignCallback) (message : string) : option (outcome SignResult) :=
  match cb with
  | SignWithOperator transactionSigner publicKey =>
      Some (operatorSign transactionSigner publicKey message)
  | SignConfigured _ => None
  end.

Section Provider.

Variable w : World.
Variable provider : RegistryBrokerClientProvider.

(** [process.env[key]?.trim() || undefined] *)
Definition env (key : string) : M (option string) :=
  run emit (EvEnvRead key);
  ret (match process_env w key with
       | Some v => trimmed_non_empty v
       | None => None
       end).

(** [this.logger.warn?.(message)], [this.logger.info?.(message)] *)
Definition log (l : level) (message : string) : M unit :=
  let present :=
    match l with
    | LInfo => has_info (logger provider)
    | LWarn => has_warn (logger provider)
    end in
  if present then emit (EvLog l message) else ret tt.

(** [env(key) ?? (fallbackKey ? env(fallbackKey) : undefined)] *)
Definition envWithFallback (key : string) (fallbackKey : option string)
  : M (option string) :=
  do first <- env key;
  match first with
  | Some v => ret (Some v)
  | None =>
      if falsy_string fallbackKey then ret None
      else match fallbackKey with
           | Some k => env k
           | None => ret None
           end
  end.

Definition pickLedgerEnvSet (params : LedgerEnvParams) : M (option LedgerEnvSet) :=
  do accountId <- envWithFallback (accountKey params) (fallbackAccountKey params);
  do privateKey <- envWithFallback (privateKey params) (fallbackPrivateKey params);
  if falsy_string accountId || falsy_string privateKey then ret None
  else
    match accountId, privateKey with
    | Some a, Some p =>
        ret (Some {| set_accountId := a;
                     set_privateKey := p;
                     set_preferMainnet := preferMainnet params |})
    | _, _ => ret None
    end.

Definition deriveLedgerOptionsFromEnv : M (option RegistryBrokerLedgerOptions) :=
  do operatorCredentials <-
    pickLedgerEnvSet {| accountKey := "HEDERA_OPERATOR_ID";
                        privateKey := "HEDERA_OPERATOR_KEY";
                        fallbackAccountKey := Some "HEDERA_ACCOUNT_ID";
                        fallbackPrivateKey := Some "HEDERA_PRIVATE_KEY";
                        preferMainnet := false |};
  do mainnetCredentials <-
    pickLedgerEnvSet {| accountKey := "MAINNET_HEDERA_ACCOUNT_ID";
                        privateKey := "MAINNET_HEDERA_PRIVATE_KEY";
                        fallbackAccountKey := None;
                        fallbackPrivateKey := None;
                        preferMainnet := true |};
  let selected :=
    match operatorCredentials with
    | Some c => Some c
    | None => mainnetCredentials
    end in
  match selected with
  | None => ret None
  | Some selected =>
      do networkVar <- env "HEDERA_NETWORK";
      let network := normaliseHederaNetwork w networkVar (set_preferMainnet selected) in
      ret (Some {| authOptions :=
                     {| accountId := set_accountId selected;
                        network := Some network;
                        hederaPrivateKey := Some (set_privateKey selected);
                        label := None;
                        sign := None;
                        otherAuthFields := [] |};
                   autoAuthenticate := None |})
  end.

Definition deriveNetworkFromHederaClient (hc : HederaOperatorClient) : M string :=
  let viaEnv :=
    do networkVar <- env "HEDERA_NETWORK";
    ret (normaliseHederaNetwork w networkVar false) in
  match ledgerId hc with
  | Some ledgerId =>
      if invokeLedgerCheck ledgerId IsMainnetCheck then ret "hedera:mainnet"
      else if invokeLedgerCheck ledgerId IsPreviewnetCheck then ret "hedera:previewnet"
      else if invokeLedgerCheck ledgerId IsTestnetCheck then ret "hedera:testnet"
      else
        match ledgerToString ledgerId with
        | Some returned =>
            do label <- settle returned;
            if nonEmpty label then ret (normaliseHederaNetwork w (Some label) false)
            else viaEnv
        | None => viaEnv
        end
  | None => viaEnv
  end.

(** [!operator?.accountId]: a missing account id, or the empty string. *)
Definition falsy_stringLike (x : option StringLike) : bool :=
  match x with
  | None => true
  | Some (SLString s) => negb (nonEmpty s)
  | Some (SLObject _) => false
  end.

Definition deriveLedgerOptionsFromHederaClient
    (context : option RegistryBrokerClientResolutionContext)
  : M (option RegistryBrokerLedgerOptions) :=
  match context with
  | None => ret None
  | Some ctx =>
  match hederaClient ctx with
  | None => ret None
  | Some hc =>
  match getOperator hc with
  | None => ret None
  | Some returned =>
      run emit EvGetOperator;
      do operator <- settle returned;
      match operator with
      | None =>
          run log LWarn "[RegistryBrokerPlugin] Hedera client does not expose an operator. Falling back to environment variables.";
          ret None
      | Some operator =>
          match falsy_stringLike (op_accountId operator),
                op_transactionSigner operator with
          | false, Some transactionSigner =>
              do accountId <- settle (formatAccountId (op_accountId operator));
              match accountId with
              | None =>
                  run log LWarn "[RegistryBrokerPlugin] Hedera operator account ID is invalid. Falling back to environment variables.";
                  ret None
              | Some accountId =>
                  do publicKey <- settle (formatAccountId (op_publicKey operator));
                  do network <- deriveNetworkFromHederaClient hc;
                  ret (Some {| authOptions :=
                                 {| accountId := accountId;
                                    network := Some network;
                                    hederaPrivateKey := None;
                                    label := Some "Hedera Agent Kit operator";
                                    sign := Some (SignWithOperator transactionSigner publicKey);
                                    otherAuthFields := [] |};
                               autoAuthenticate := Some true |})
              end
          | _, _ =>
              run log LWarn "[RegistryBrokerPlugin] Hedera client operator credentials are unavailable. Falling back to environment variables.";
              ret None
          end
      end
  end end end.

(** [this.config?.ledger] *)
Definition configuredLedger : option RegistryBrokerLedgerOptions :=
  match config provider with
  | Some c => ledger c
  | None => None
  end.

Definition resolveLedgerOptions
    (context : option RegistryBrokerClientResolutionContext)
  : M (option RegistryBrokerLedgerOptions) :=
  match configuredLedger with
  | Some ledger => ret (Some (normalizeLedgerConfig w ledger))
  | None =>
      do hederaDerived <- deriveLedgerOptionsFromHederaClient context;
      match hederaDerived with
      | Some derived => ret (Some derived)
      | None => deriveLedgerOptionsFromEnv
      end
  end.

(** [this.config?.client ?? {}] *)
Definition configuredClient : RegistryBrokerPluginClientOptions :=
  match config provider with
  | Some {| client := Some c |} => c
  | _ => {| clientOverrides := {| baseUrl := None; apiKey := None;
                                 ledgerApiKey := None; otherClientFields := [] |};
            disableEnvApiKey := None;
            disableEnvLedgerApiKey := None |}
  end.

(** [flag !== true] *)
Definition not_true (flag : option bool) : bool :=
  match flag with
  | Some true => false
  | _ => true
  end.

Definition buildClientOptions : M RegistryBrokerClientOptions :=
  let overrides := clientOverrides configuredClient in
  do mergedBaseUrl <-
    match baseUrl overrides with
    | Some b => ret (Some b)
    | None => env "REGISTRY_BROKER_BASE_URL"
    end;
  do apiKey <-
    match normalizeSecret (apiKey overrides) with
    | Some k => ret (Some k)
    | None =>
        if not_true (disableEnvApiKey configuredClient) then
          do v <- env "REGISTRY_BROKER_API_KEY"; ret (normalizeSecret v)
        else ret None
    end;
  do ledgerApiKey <-
    match normalizeSecret (ledgerApiKey overrides) with
    | Some k => ret (Some k)
    | None =>
        if not_true (disableEnvLedgerApiKey configuredClient) then
          do v <- env "REGISTRY_BROKER_LEDGER_KEY"; ret (normalizeSecret v)
        else ret None
    end;
  ret {| baseUrl := mergedBaseUrl;
         apiKey := apiKey;
         ledgerApiKey := ledgerApiKey;
         otherClientFields := otherClientFields overrides |}.

Definition initialiseClient
    (context : option RegistryBrokerClientResolutionContext) : M value :=
  do options <- buildClientOptions;
  run emit (EvCreateClient options);
  do clientObj <- settle (createClient provider options);
  do ledgerConfig <- resolveLedgerOptions context;
  run match ledgerConfig with
      | Some ledgerConfig =>
          let authOptions := authOptions ledgerConfig in
          match autoAuthenticate ledgerConfig with
          | Some false =>
              log LInfo "[RegistryBrokerPlugin] Ledger authentication disabled via configuration."
          | _ =>
              do history <- get_trace;
              run emit (EvAuthenticate clientObj authOptions);
              run settle (sdk_authenticate w history clientObj authOptions);
              log LInfo ("[RegistryBrokerPlugin] Authenticated with ledger account "
                           +:+ accountId authOptions +:+ ".")
          end
      | None =>
          if falsy_string (apiKey options) then
            log LWarn "[RegistryBrokerPlugin] Neither REGISTRY_BROKER_API_KEY nor ledger credentials were provided. Paid endpoints will fail."
          else ret tt
      end;
  ret clientObj.

Definition getClient (context : option RegistryBrokerClientResolutionContext)
  : M value :=
  fun s =>
    match clientPromise s with
    | Some promise => (promise, s)
    | None =>
        let '(settled, s') := initialiseClient context s in
        (settled, {| clientPromise := Some settled;
                     handles := handles s';
                     trace := trace s' |})
    end.

End Provider.

(** ** Payload schemas (the part of zod the code uses) *)

Inductive numberCheck : Type :=
| CheckInt
| CheckPositive
| CheckMin (bound : Q)
| CheckMax (bound : Q).

Inductive unknownKeys : Type := Strip | Strict.

Inductive schema : Type :=
| ZString (required_error invalid_type_error : option string)
          (minLength : option (nat * string))
| ZNumber (checks : list numberCheck)
| ZBoolean
| ZEnum (options : list string)
| ZArray (element : schema)
| ZUnion (options : list schema)
| ZRecord (valueType : schema)
| ZObject (shape : list (string * schema)) (unknown : unknownKeys)
| ZOptional (inner : schema)
| ZCustom (check : value -> bool) (message : string)
| ZUnknown.

Inductive parsed : Type :=
| Valid (v : value)
| Invalid (issues : list issue).

Definition numberCheck_issue (c : numberCheck) (n : number) : list issue :=
  let ok :=
    match c, n with
    | _, NaN => false
    | CheckInt, Finite q => (Z.pos (Qden (Qred q)) =? 1)%Z
    | CheckInt, Infinity _ => false
    | CheckPositive, Finite q => negb (Qle_bool q 0)
    | CheckPositive, Infinity negative => negb negative
    | CheckMin b, Finite q => Qle_bool b q
    | CheckMin _, Infinity negative => negb negative
    | CheckMax b, Finite q => Qle_bool q b
    | CheckMax _, Infinity negative => negative
    end in
  if ok then []
  else
    match c with
    | CheckInt => [Issue "invalid_type" None]
    | CheckPositive | CheckMin _ => [Issue "too_small" None]
    | CheckMax _ => [Issue "too_big" None]
    end.

Definition is_undefined (v : value) : bool :=
  match v with VUndefined => true | _ => false end.

Definition finish (out : value) (errs : list issue) : parsed :=
  match errs with
  | [] => Valid out
  | _ => Invalid errs
  end.

(** [schema.safeParse(v)]: the parsed value, or the issues. *)
Fixpoint parse (sc : schema) (v : value) {struct sc} : parsed :=
  match sc with
  | ZString required_error invalid_type_error minLength =>
      match v with
      | VStr s =>
          match minLength with
          | Some (n, message) =>
              if (n <=? String.length s)%nat then Valid v
              else Invalid [Issue "too_small" (Some message)]
          | None => Valid v
          end
      | VUndefined => Invalid [Issue "invalid_type" required_error]
      | _ => Invalid [Issue "invalid_type" invalid_type_error]
      end
  | ZNumber checks =>
      match v with
      | VNum NaN => Invalid [Issue "invalid_type" None]
      | VNum n => finish v (flat_map (fun c => numberCheck_issue c n) checks)
      | _ => Invalid [Issue "invalid_type" None]
      end
  | ZBoolean =>
      match v with
      | VBool _ => Valid v
      | _ => Invalid [Issue "invalid_type" None]
      end
  | ZEnum options =>
      match v with
      | VStr s =>
          if existsb (String.eqb s) options then Valid v
          else Invalid [Issue "invalid_enum_value" None]
      | _ => Invalid [Issue "invalid_type" None]
      end
  | ZArray element =>
      match v with
      | VArr items =>
          let results := map (parse element) items in
          finish
            (VArr (flat_map (fun r => match r with Valid x => [x] | Invalid _ => [] end)
                     results))
            (flat_map (fun r => match r with Valid _ => [] | Invalid i => i end)
               results)
      | _ => Invalid [Issue "invalid_type" None]
      end
  | ZUnion options =>
      (fix first_valid (l : list schema) : parsed :=
         match l with
         | [] => Invalid [Issue "invalid_union" None]
         | s :: rest =>
             match parse s v with
             | Valid x => Valid x
             | Invalid _ => first_valid rest
             end
         end) options
  | ZRecord valueType =>
      match v with
      | VObj props =>
          let results := map (fun kv => (fst kv, parse valueType (snd kv))) props in
          finish
            (VObj (flat_map (fun r => match snd r with
                                      | Valid x => [(fst r, x)]
                                      | Invalid _ => []
                                      end) results))
            (flat_map (fun r => match snd r with Valid _ => [] | Invalid i => i end)
               results)
      | _ => Invalid [Issue "invalid_type" None]
      end
  | ZObject shape unknown =>
      match v with
      | VObj props =>
          let '(out, errs) :=
            (fix fields (sh : list (string * schema))
               : list (string * value) * list issue :=
               match sh with
               | [] => ([], [])
               | (k, s) :: rest =>
                   let '(out, errs) := fields rest in
                   match parse s (get_prop v k) with
                   | Valid x =>
                       (if has_key v k || negb (is_undefined x)
                        then (k, x) :: out else out, errs)
                   | Invalid i => (out, i ++ errs)
                   end
               end) shape in
          let extra :=
            match unknown with
            | Strip => []
            | Strict =>
                filter (fun kv => negb (existsb (fun ks => String.eqb (fst kv) (fst ks)) shape))
                  props
            end in
          finish (VObj out)
            (errs ++ match extra with
                     | [] => []
                     | _ => [Issue "unrecognized_keys" None]
                     end)
      | _ => Invalid [Issue "invalid_type" None]
      end
  | ZOptional inner =>
      match v with
      | VUndefined => Valid VUndefined
      | _ => parse inner v
      end
  | ZCustom check message =>
      if check v then Valid v else Invalid [Issue "custom" (Some message)]
  | ZUnknown => Valid v
  end.

(** [schema.partial()] *)
Definition partial (sc : schema) : schema :=
  match sc with
  | ZObject shape unknown =>
      ZObject (map (fun ks => (fst ks, ZOptional (snd ks))) shape) unknown
  | _ => sc
  end.

Definition z_string : schema := ZString None None None.

Definition nonEmptyString (label : string) : schema :=
  ZString (Some (label +:+ " is required"))
          (Some (label +:+ " must be a string"))
          (Some (1%nat, label +:+ " cannot be empty")).

(** [typeof value === 'object' && value !== null] *)
Definition is_object_like (v : value) : bool :=
  match v with
  | VArr _ | VObj _ => true
  | _ => false
  end.

Definition objectLike (label : string) : schema :=
  ZCustom is_object_like (label +:+ " must be an object").

(** ** The schemas and the dispatch table of the operation tool *)

Definition registrySearchParamsSchema : schema :=
  partial
    (ZObject
       [("q", ZOptional z_string);
        ("page", ZOptional (ZNumber [CheckInt; CheckPositive]));
        ("limit", ZOptional (ZNumber [CheckInt; CheckPositive]));
        ("registry", ZOptional z_string);
        ("registries", ZOptional (ZArray z_string));
        ("capabilities", ZOptional (ZArray z_string));
        ("protocols", ZOptional (ZArray z_string));
        ("minTrust", ZOptional (ZNumber [CheckMin 0; CheckMax (100 # 1)]));
        ("adapters", ZOptional (ZArray z_string));
        ("sortBy", ZOptional z_string);
        ("sortOrder", ZOptional (ZEnum ["asc"; "desc"]));
        ("type", ZOptional z_string);
        ("verified", ZOptional ZBoolean);
        ("online", ZOptional ZBoolean);
        ("metadata",
         ZOptional (ZRecord (ZArray (ZUnion [z_string; ZNumber []; ZBoolean]))))]
       Strip).

Definition registryBrokerInputSchema : schema :=
  ZObject [("operation", z_string); ("payload", ZOptional ZUnknown)] Strip.

Inductive OperationDefinition : Type :=
| NoArgs (path : string)
| StringArg (path field : string) (optional : bool)
| ObjectArg (path : string) (sch : schema)
| TupleArg (path : string) (sch : schema) (mapArgs : value -> list value)
| Custom (sch : schema) (handler : nat).

Definition noArgs (path : string) : OperationDefinition := NoArgs path.

Definition stringArg (path field : string) (optional : bool) : OperationDefinition :=
  StringArg path field optional.

Definition objectArg (path : string) (sch : schema) : OperationDefinition :=
  ObjectArg path sch.

Definition tupleArg (path : string) (sch : schema) (mapArgs : value -> list value)
  : OperationDefinition :=
  TupleArg path sch mapArgs.

Definition conversationOperations : list string :=
  ["conversation.send"; "conversation.decryptHistoryEntry"; "conversation.release"].

(** [CONVERSATION_OPERATIONS.has(operation)] *)
Definition CONVERSATION_OPERATIONS_has (operation : string) : bool :=
  existsb (String.eqb operation) conversationOperations.

Definition conversationSendSchema : schema :=
  ZObject [("handleId", nonEmptyString "handleId");
           ("payload", objectLike "payload")] Strip.

Definition conversationDecryptSchema : schema :=
  ZObject [("handleId", nonEmptyString "handleId");
           ("entry", objectLike "entry")] Strip.

Definition conversationReleaseSchema : schema :=
  ZObject [("handleId", nonEmptyString "handleId")] Strip.

Definition vectorSearchSchema : schema := objectLike "vectorSearchRequest".

Definition registerAgentSchema : schema :=
  ZObject [("payload", objectLike "registerAgentPayload");
           ("options", ZOptional (objectLike "registerAgentOptions"))] Strip.

Definition updateAgentSchema : schema :=
  ZObject [("uaid", nonEmptyString "uaid"); ("request", objectLike "request")] Strip.

Definition waitForRegistrationSchema : schema :=
  ZObject [("attemptId", nonEmptyString "attemptId");
           ("options", ZOptional (objectLike "options"))] Strip.

Definition registryNamespaceSchema : schema :=
  ZObject [("registry", nonEmptyString "registry");
           ("namespace", nonEmptyString "namespace")] Strip.

Definition ledgerChallengeSchema : schema := objectLike "ledgerChallenge".
Definition ledgerVerifySchema : schema := objectLike "ledgerVerifyRequest".
Definition ledgerAuthSchema : schema := objectLike "ledgerCredentialAuth".
Definition createSessionSchema : schema := objectLike "createSessionPayload".
Definition sendMessageSchema : schema := objectLike "sendMessagePayload".

Definition chatHistorySchema : schema :=
  ZObject [("sessionId", nonEmptyString "sessionId");
           ("options", ZOptional (objectLike "historyOptions"))] Strip.

Definition submitHandshakeSchema : schema :=
  ZObject [("sessionId", nonEmptyString "sessionId");
           ("payload", objectLike "handshakePayload")] Strip.

Definition setDefaultHeaderSchema : schema :=
  ZObject [("name", nonEmptyString "name"); ("value", ZOptional z_string)] Strip.

Definition compactHistorySchema : schema := objectLike "compactHistoryPayload".
Definition registerKeySchema : schema := objectLike "registerEncryptionKeyPayload".
Definition deriveSecretSchema : schema := objectLike "deriveSharedSecretOptions".
Definition encryptEnvelopeSchema : schema := objectLike "encryptCipherEnvelopeOptions".
Definition decryptEnvelopeSchema : schema := objectLike "decryptCipherEnvelopeOptions".
Definition ensureAgentKeySchema : schema := objectLike "ensureAgentKeyOptions".

Definition generateKeyPairSchema : schema :=
  ZOptional
    (partial
       (ZObject [("keyType", ZOptional (ZEnum ["secp256k1"]));
                 ("envVar", ZOptional z_string);
                 ("envPath", ZOptional z_string);
                 ("overwrite", ZOptional ZBoolean)] Strip)).

Definition startChatSchema : schema := objectLike "startChatOptions".
Definition startConversationSchema : schema := objectLike "startConversationOptions".
Definition acceptConversationSchema : schema := objectLike "acceptConversationOptions".
Definition startEncryptedSessionSchema : schema :=
  objectLike "startEncryptedSessionOptions".
Definition acceptEncryptedSessionSchema : schema :=
  objectLike "acceptEncryptedSessionOptions".
Definition initializeAgentSchema : schema := objectLike "initializeAgentOptions".

(** [(payload) => [payload.a, payload.b]] *)
Definition pair_of (a b : string) (payload : value) : list value :=
  [get_prop payload a; get_prop payload b].

(** The own properties of the [OPERATION_DEFINITIONS] object, in order. *)
Definition OPERATION_DEFINITIONS : list (string * OperationDefinition) :=
  [("stats", noArgs "stats");
   ("registries", noArgs "registries");
   ("getAdditionalRegistries", noArgs "getAdditionalRegistries");
   ("popularSearches", noArgs "popularSearches");
   ("adapters", noArgs "adapters");
   ("adaptersDetailed", noArgs "adaptersDetailed");
   ("listProtocols", noArgs "listProtocols");
   ("searchStatus", noArgs "searchStatus");
   ("websocketStats", noArgs "websocketStats");
   ("metricsSummary", noArgs "metricsSummary");
   ("dashboardStats", noArgs "dashboardStats");
   ("getX402Minimums", noArgs "getX402Minimums");
   ("encryptionReady", noArgs "encryptionReady");
   ("getDefaultHeaders", noArgs "getDefaultHeaders");
   ("setApiKey", stringArg "setApiKey" "apiKey" true);
   ("setLedgerApiKey", stringArg "setLedgerApiKey" "apiKey" true);
   ("resolveUaid", stringArg "resolveUaid" "uaid" false);
   ("validateUaid", stringArg "validateUaid" "uaid" false);
   ("getUaidConnectionStatus", stringArg "getUaidConnectionStatus" "uaid" false);
   ("closeUaidConnection", stringArg "closeUaidConnection" "uaid" false);
   ("facets", stringArg "facets" "adapter" true);
   ("search", objectArg "search" registrySearchParamsSchema);
   ("vectorSearch", objectArg "vectorSearch" vectorSearchSchema);
   ("registrySearchByNamespace",
    tupleArg "registrySearchByNamespace" registryNamespaceSchema
      (pair_of "registry" "namespace"));
   ("registerAgent",
    tupleArg "registerAgent" registerAgentSchema (pair_of "payload" "options"));
   ("getRegistrationQuote",
    objectArg "getRegistrationQuote" (objectLike "getRegistrationQuotePayload"));
   ("updateAgent", tupleArg "updateAgent" updateAgentSchema (pair_of "uaid" "request"));
   ("getRegistrationProgress", stringArg "getRegistrationProgress" "attemptId" false);
   ("waitForRegistrationCompletion",
    tupleArg "waitForRegistrationCompletion" waitForRegistrationSchema
      (pair_of "attemptId" "options"));
   ("purchaseCreditsWithHbar",
    objectArg "purchaseCreditsWithHbar" (objectLike "purchaseCreditsWithHbar"));
   ("purchaseCreditsWithX402",
    objectArg "purchaseCreditsWithX402" (objectLike "purchaseCreditsWithX402"));
   ("buyCreditsWithX402",
    objectArg "buyCreditsWithX402" (objectLike "buyCreditsWithX402"));
   ("createLedgerChallenge", objectArg "createLedgerChallenge" ledgerChallengeSchema);
   ("verifyLedgerChallenge", objectArg "verifyLedgerChallenge" ledgerVerifySchema);
   ("authenticateWithLedger", objectArg "authenticateWithLedger" ledgerAuthSchema);
   ("authenticateWithLedgerCredentials",
    objectArg "authenticateWithLedgerCredentials" ledgerAuthSchema);
   ("detectProtocol", objectArg "detectProtocol" (objectLike "detectProtocol"));
   ("setDefaultHeader",
    tupleArg "setDefaultHeader" setDefaultHeaderSchema (pair_of "name" "value"));
   ("chat.start", objectArg "chat.start" startChatSchema);
   ("chat.createSession", objectArg "chat.createSession" createSessionSchema);
   ("chat.sendMessage", objectArg "chat.sendMessage" sendMessageSchema);
   ("chat.endSession", stringArg "chat.endSession" "sessionId" false);
   ("chat.getHistory",
    tupleArg "chat.getHistory" chatHistorySchema (pair_of "sessionId" "options"));
   ("chat.compactHistory", objectArg "chat.compactHistory" compactHistorySchema);
   ("chat.getEncryptionStatus",
    stringArg "chat.getEncryptionStatus" "sessionId" false);
   ("chat.submitEncryptionHandshake",
    tupleArg "chat.submitEncryptionHandshake" submitHandshakeSchema
      (pair_of "sessionId" "payload"));
   ("chat.createEncryptedSession",
    objectArg "chat.createEncryptedSession" startEncryptedSessionSchema);
   ("chat.acceptEncryptedSession",
    objectArg "chat.acceptEncryptedSession" acceptEncryptedSessionSchema);
   ("chat.startConversation",
    objectArg "chat.startConversation" startConversationSchema);
   ("chat.acceptConversation",
    objectArg "chat.acceptConversation" acceptConversationSchema);
   ("encryption.registerKey", objectArg "encryption.registerKey" registerKeySchema);
   ("encryption.generateEphemeralKeyPair",
    noArgs "encryption.generateEphemeralKeyPair");
   ("encryption.deriveSharedSecret",
    objectArg "encryption.deriveSharedSecret" deriveSecretSchema);
   ("encryption.encryptCipherEnvelope",
    objectArg "encryption.encryptCipherEnvelope" encryptEnvelopeSchema);
   ("encryption.decryptCipherEnvelope",
    objectArg "encryption.decryptCipherEnvelope" decryptEnvelopeSchema);
   ("encryption.ensureAgentKey",
    objectArg "encryption.ensureAgentKey" ensureAgentKeySchema);
   ("generateEncryptionKeyPair",
    objectArg "generateEncryptionKeyPair" generateKeyPairSchema)].

(** The members every object literal inherits from [Object.prototype]:
    functions, and the prototype object itself under [__proto__]. All are
    truthy and none has a [type] or a [path] property. *)
Definition Object_prototype_members : list string :=
  ["constructor"; "__defineGetter__"; "__defineSetter__"; "hasOwnProperty";
   "__lookupGetter__"; "__lookupSetter__"; "isPrototypeOf";
   "propertyIsEnumerable"; "toString"; "valueOf"; "__proto__"; "toLocaleString"].

Inductive TableLookup : Type :=
| OwnDefinition (definition : OperationDefinition)
| InheritedMember
| NoProperty.

(** [OPERATION_DEFINITIONS[operation]] *)
Definition lookupDefinition (operation : string) : TableLookup :=
  match assoc operation OPERATION_DEFINITIONS with
  | Some definition => OwnDefinition definition
  | None =>
      if existsb (String.eqb operation) Object_prototype_members
      then InheritedMember else NoProperty
  end.

(** ** [RegistryBrokerConversationStore] *)

Record StoredConversationHandle : Type := {
  handleId : string;
  sessionId : value;
  mode : value;
  summary : value
}.

Definition set_handles (h : gmap string value) (s : state) : state :=
  {| clientPromise := clientPromise s; handles := h; trace := trace s |}.

Section Store.

Variable w : World.

Definition createHandleId : M string :=
  do history <- get_trace;
  let id :=
    match handleIdSource w history with
    | CryptoUUID uuid => uuid
    | TimeAndRandom now36 random36 => now36 +:+ "-" +:+ random36
    end in
  run emit (EvCreateHandleId id);
  ret id.

Definition store_register (handle : value) : M StoredConversationHandle :=
  do handleId <- createHandleId;
  run (fun s => (Ok tt, set_handles (<[handleId := handle]> (handles s)) s));
  ret {| handleId := handleId;
         sessionId := get_prop handle "sessionId";
         mode := get_prop handle "mode";
         summary := nullish (get_prop handle "summary") VNull |}.

Definition store_get (handleId : string) : M value :=
  fun s =>
    match handles s !! handleId with
    | Some handle =>
        if truthy handle then (Ok handle, s)
        else (Throw (JsError ("Conversation handle not found: " +:+ handleId)), s)
    | None => (Throw (JsError ("Conversation handle not found: " +:+ handleId)), s)
    end.

Definition store_release (handleId : string) : M bool :=
  fun s =>
    match handles s !! handleId with
    | Some _ => (Ok true, set_handles (delete handleId (handles s)) s)
    | None => (Ok false, s)
    end.

End Store.

(** ** [RegistryBrokerOperationTool] *)

(** [s.split('.')] *)
Fixpoint split_dots (s : string) : list string :=
  match s with
  | EmptyString => [EmptyString]
  | String c r =>
      if Ascii.eqb c "."%char then EmptyString :: split_dots r
      else
        match split_dots r with
        | h :: t => String c h :: t
        | [] => [String c EmptyString]
        end
  end.

Definition resolveTarget (clientObj : value) (path : string) : value :=
  fold_left
    (fun acc key =>
       if truthy acc && match typeof acc with TObject => true | _ => false end
       then get_prop acc key
       else VUndefined)
    (split_dots path) clientObj.

Definition isConversationHandle (v : value) : bool :=
  if negb (truthy v) || negb (match typeof v with TObject => true | _ => false end)
  then false
  else
    match typeof (get_prop v "sessionId"),
          typeof (get_prop v "send"),
          typeof (get_prop v "decryptHistoryEntry") with
    | TString, TFunction, TFunction => true
    | _, _, _ => false
    end.

(** [parsedInput.operation] and [parsedInput.payload] after
    [registryBrokerInputSchema.parse(rawInput)]. *)
Definition parseToolInput (rawInput : value) : list issue + string * value :=
  match parse registryBrokerInputSchema rawInput with
  | Invalid issues => inl issues
  | Valid parsedInput =>
      match get_prop parsedInput "operation" with
      | VStr operation => inr (operation, get_prop parsedInput "payload")
      | _ => inl []
      end
  end.

(** [String(v)] of a value a schema has shown to be a string. *)
Definition String_of (v : value) : string :=
  match v with
  | VStr s => s
  | _ => EmptyString
  end.

Definition pathOf (definition : OperationDefinition) : string :=
  match definition with
  | NoArgs path | StringArg path _ _ | ObjectArg path _ | TupleArg path _ _ => path
  | Custom _ _ => EmptyString
  end.

Section Tool.

Variable w : World.
Variable clientProvider : RegistryBrokerClientProvider.

(** [schema.parse(v)] *)
Definition zparse (sc : schema) (v : value) : M value :=
  match parse sc v with
  | Valid x => ret x
  | Invalid issues => throw (ZodError issues)
  end.

(** [await target.apply(thisArg, args)] *)
Definition callFunction (target this : value) (args : list value) : M value :=
  match target with
  | VFun f =>
      do history <- get_trace;
      run emit (EvCall f this args);
      settle (host_call w history f this args)
  | _ => throw (TypeError "target is not a function")
  end.

(** [await obj.name(...args)] *)
Definition callMethod (obj : value) (name : string) (args : list value) : M value :=
  callFunction (get_prop obj name) obj args.

Definition mapResult (operation : string) (result : value) : M value :=
  if isConversationHandle result then
    do stored <- store_register w result;
    ret (VObj [("handleId", VStr (handleId stored));
               ("sessionId", sessionId stored);
               ("mode", mode stored);
               ("summary", nullish (summary stored) VNull)])
  else ret result.

Definition wrapResult (operation : string) (result : value) : M value :=
  do mapped <- mapResult operation result;
  ret (VObj [("success", VBool true);
             ("operation", VStr operation);
             ("result", mapped)]).

Definition handleConversationOperation (operation : string) (payload : value)
  : M value :=
  if String.eqb operation "conversation.send" then
    do parsed <- zparse conversationSendSchema (nullish payload (VObj []));
    do handle <- store_get (String_of (get_prop parsed "handleId"));
    callMethod handle "send" [get_prop parsed "payload"]
  else if String.eqb operation "conversation.decryptHistoryEntry" then
    do parsed <- zparse conversationDecryptSchema (nullish payload (VObj []));
    do handle <- store_get (String_of (get_prop parsed "handleId"));
    callMethod handle "decryptHistoryEntry" [get_prop parsed "entry"]
  else if String.eqb operation "conversation.release" then
    do parsed <- zparse conversationReleaseSchema (nullish payload (VObj []));
    do released <- store_release (String_of (get_prop parsed "handleId"));
    ret (VBool released)
  else throw (JsError ("Unsupported conversation operation: " +:+ operation)).

Definition handleInitializeAgent (payload : value) : M value :=
  do parsed <- zparse initializeAgentSchema (nullish payload (VObj []));
  do history <- get_trace;
  run emit (EvInitializeAgent parsed);
  do result <- settle (sdk_initializeAgent w history parsed);
  do defaultHeaders <- callMethod (get_prop result "client") "getDefaultHeaders" [];
  ret (VObj [("encryption", nullish (get_prop result "encryption") VNull);
             ("defaultHeaders", defaultHeaders)]).

(** The dispatch on a method definition, once the client is there. *)
Definition dispatchMethod (operation : string) (payload : value)
    (definition : OperationDefinition) (clientObj : value) : M value :=
  let target := resolveTarget clientObj (pathOf definition) in
  match typeof target with
  | TFunction =>
      match definition with
      | NoArgs _ =>
          do result <- callFunction target clientObj [];
          wrapResult operation result
      | StringArg _ field optional =>
          let fieldSchema :=
            ZObject [(field, if optional then ZOptional z_string
                             else nonEmptyString field)] Strict in
          do parsed <-
            zparse fieldSchema
              (if optional && is_undefined payload then VObj []
               else nullish payload (VObj []));
          let arg := get_prop parsed field in
          do result <- callFunction target clientObj [arg];
          wrapResult operation result
      | ObjectArg _ sch =>
          do parsed <- zparse sch (nullish payload (VObj []));
          do result <- callFunction target clientObj [parsed];
          wrapResult operation result
      | TupleArg _ sch mapArgs =>
          do parsed <- zparse sch (nullish payload (VObj []));
          let args := mapArgs parsed in
          do result <- callFunction target clientObj args;
          wrapResult operation result
      | Custom _ _ => ret VNull (* the closing [return null] *)
      end
  | _ =>
      throw (JsError ("Method " +:+ dquote +:+ pathOf definition +:+ dquote
                        +:+ " is unavailable on the client"))
  end.

(** The body of the [try] block of [execute]. *)
Definition executeBody (operation : string) (payload : value)
    (hederaClient : option HederaOperatorClient) : M value :=
  if CONVERSATION_OPERATIONS_has operation then
    do result <- handleConversationOperation operation payload;
    wrapResult operation result
  else if String.eqb operation "initializeAgent" then
    do initialised <- handleInitializeAgent payload;
    wrapResult operation initialised
  else
    match lookupDefinition operation with
    | NoProperty =>
        throw (JsError ("Unsupported registry broker operation: " +:+ operation))
    | OwnDefinition (Custom sch handler) =>
        do parsed <- zparse sch payload;
        do customResult <- callFunction (VFun handler) VUndefined [parsed];
        wrapResult operation customResult
    | OwnDefinition definition =>
        do clientObj <-
          getClient w clientProvider (Some {| hederaClient := hederaClient |});
        dispatchMethod operation payload definition clientObj
    | InheritedMember =>
        (* [definition.type] and [definition.path] are undefined:
           [resolveTarget] fails on [path.split]. *)
        do clientObj <-
          getClient w clientProvider (Some {| hederaClient := hederaClient |});
        throw (TypeError "Cannot read properties of undefined (reading 'split')")
    end.

(** The [catch] block of [execute]. *)
Definition recover (operation : string) (error : error) : M value :=
  match error with
  | RegistryBrokerParseError message rawValue =>
      ret (VObj [("success", VBool true);
                 ("operation", VStr operation);
                 ("result",
                  VObj [("parsed", VBool false);
                        ("error", VStr message);
                        ("raw", nullish rawValue VNull)])])
  | _ => throw error
  end.

Definition execute (rawInput : value) (hederaClient : option HederaOperatorClient)
  : M value :=
  match parseToolInput rawInput with
  | inl issues => throw (ZodError issues)
  | inr (operation, payload) =>
      try_catch (executeBody operation payload hederaClient) (recover operation)
  end.

End Tool.

(** ** Reading the trace *)

Definition add_events (evs : list event) (s : state) : state :=
  {| clientPromise := clientPromise s; handles := handles s; trace := trace s ++ evs |}.

(** [m] returns [a] from every state, touching nothing but the trace, where
    it adds events that all satisfy [P]. *)
Definition computes {A : Type} (P : event -> Prop) (m : M A) (a : A) : Prop :=
  forall s, exists evs, m s = (Ok a, add_events evs s) /\ Forall P evs.

(** [m] settles to [o] from every state, touching nothing but the trace,
    where it adds events that all satisfy [P]. *)
Definition settles {A : Type} (P : event -> Prop) (m : M A) (o : outcome A) : Prop :=
  forall s, exists evs, m s = (o, add_events evs s) /\ Forall P evs.

(** The calls of [client.authenticateWithLedgerCredentials] in a trace. *)
Definition authentications (t : list event)
  : list (value * LedgerCredentialAuthOptions) :=
  flat_map (fun e => match e with
                     | EvAuthenticate c o => [(c, o)]
                     | _ => []
                     end) t.

(** The calls of the client factory in a trace. *)
Definition factoryCalls (t : list event) : list RegistryBrokerClientOptions :=
  flat_map (fun e => match e with
                     | EvCreateClient o => [o]
                     | _ => []
                     end) t.

Definition is_env_read (e : event) : Prop :=
  match e with EvEnvRead _ => True | _ => False end.

(** An event of credential resolution that is not a read of a credential
    variable: the operator query, a log line, or a read of [HEDERA_NETWORK]. *)
Definition no_credential_read (e : event) : Prop :=
  match e with
  | EvGetOperator | EvLog _ _ => True
  | EvEnvRead key => key = "HEDERA_NETWORK"
  | _ => False
  end.

(** An event of credential resolution: a read, the operator query, a log line. *)
Definition resolution_event (e : event) : Prop :=
  match e with
  | EvEnvRead _ | EvGetOperator | EvLog _ _ => True
  | _ => False
  end.

(** An event of client construction: credential resolution, the factory
    call, the authentication. *)
Definition construction_event (e : event) : Prop :=
  match e with
  | EvEnvRead _ | EvGetOperator | EvLog _ _ | EvCreateClient _ | EvAuthenticate _ _ =>
      True
  | _ => False
  end.

(** ** The specification, as definitions to compare the code with *)

(** The value of a variable as [env] hands it out: trimmed, and absent
    when the variable is unset or blank. *)
Definition env_value (w : World) (key : string) : option string :=
  match process_env w key with
  | Some v => trimmed_non_empty v
  | None => None
  end.

Definition first_present (a b : option string) : option string :=
  match a with
  | Some x => Some x
  | None => b
  end.

(** Lower-cased and prefixed with [hedera:] unless already so prefixed. *)
Definition spec_prefixed (w : World) (v : string) : string :=
  let lower := toLowerCase w v in
  if startsWith "hedera:" lower then lower else "hedera:" +:+ lower.

Definition spec_envNetwork (w : World) (default : string) : string :=
  match env_value w "HEDERA_NETWORK" with
  | None => default
  | Some v => spec_prefixed w v
  end.

Definition envLedgerOptions (account key net : string) : RegistryBrokerLedgerOptions :=
  {| authOptions :=
       {| accountId := account;
          network := Some net;
          hederaPrivateKey := Some key;
          label := None;
          sign := None;
          otherAuthFields := [] |};
     autoAuthenticate := None |}.

(** Environment-derived credentials, in the specification's words. *)
Definition spec_deriveFromEnv (w : World) : option RegistryBrokerLedgerOptions :=
  match first_present (env_value w "HEDERA_OPERATOR_ID") (env_value w "HEDERA_ACCOUNT_ID"),
        first_present (env_value w "HEDERA_OPERATOR_KEY") (env_value w "HEDERA_PRIVATE_KEY")
  with
  | Some account, Some key =>
      Some (envLedgerOptions account key (spec_envNetwork w "hedera:testnet"))
  | _, _ =>
      match env_value w "MAINNET_HEDERA_ACCOUNT_ID",
            env_value w "MAINNET_HEDERA_PRIVATE_KEY" with
      | Some account, Some key =>
          Some (envLedgerOptions account key (spec_envNetwork w "hedera:mainnet"))
      | _, _ => None
      end
  end.

(** A ledger-id test that is a function and returns true. *)
Definition returnsTrue (check : option (outcome bool)) : bool :=
  match check with
  | Some (Ok b) => b
  | _ => false
  end.

(** The network of a Hedera client: the three tests in order, then
    [toString] (what it throws is thrown on), then the [HEDERA_NETWORK]
    variable. *)
Definition spec_clientNetwork (w : World) (hc : HederaOperatorClient)
  : outcome string :=
  let fromEnv := spec_envNetwork w "hedera:testnet" in
  match ledgerId hc with
  | None => Ok fromEnv
  | Some lid =>
      if returnsTrue (isMainnet lid) then Ok "hedera:mainnet"
      else if returnsTrue (isPreviewnet lid) then Ok "hedera:previewnet"
      else if returnsTrue (isTestnet lid) then Ok "hedera:testnet"
      else
        match ledgerToString lid with
        | Some (Ok text) =>
            if nonEmpty text then Ok (normaliseHederaNetwork w (Some text) false)
            else Ok fromEnv
        | Some (Throw e) => Throw e
        | None => Ok fromEnv
        end
  end.

(** [context?.hederaClient?.getOperator], when it is a function: what the
    call returns or throws. *)
Definition operatorQuery (context : option RegistryBrokerClientResolutionContext)
  : option (outcome (option HederaOperatorLike)) :=
  match context with
  | Some {| hederaClient := Some hc |} => getOperator hc
  | _ => None
  end.

(** The operator credentials a context yields: a client whose
    [getOperator] is a function returning an operator with an account id, a
    [transactionSigner] function, and an account id that formats to a
    non-blank string. A [getOperator] or an account [toString] that throws
    makes the whole derivation throw. *)
Definition spec_operatorCredentials
    (context : option RegistryBrokerClientResolutionContext)
  : outcome (option (HederaOperatorClient * HederaOperatorLike * string
                     * TransactionSigner)) :=
  match context with
  | Some {| hederaClient := Some hc |} =>
      match getOperator hc with
      | Some (Ok (Some operator)) =>
          if falsy_stringLike (op_accountId operator) then Ok None
          else
            match op_transactionSigner operator with
            | Some signer =>
                match formatAccountId (op_accountId operator) with
                | Ok (Some account) => Ok (Some (hc, operator, account, signer))
                | Ok None => Ok None
                | Throw e => Throw e
                end
            | None => Ok None
            end
      | Some (Ok None) => Ok None
      | Some (Throw e) => Throw e
      | None => Ok None
      end
  | _ => Ok None
  end.

(** The options derived from credentials: the public key is formatted
    first, then the network is found. *)
Definition spec_operatorOptions (w : World) (hc : HederaOperatorClient)
    (operator : HederaOperatorLike) (account : string) (signer : TransactionSigner)
  : outcome RegistryBrokerLedgerOptions :=
  match formatAccountId (op_publicKey operator) with
  | Ok publicKey =>
      match spec_clientNetwork w hc with
      | Ok net =>
          Ok {| authOptions :=
                  {| accountId := account;
                     network := Some net;
                     hederaPrivateKey := None;
                     label := Some "Hedera Agent Kit operator";
                     sign := Some (SignWithOperator signer publicKey);
                     otherAuthFields := [] |};
                autoAuthenticate := Some true |}
      | Throw e => Throw e
      end
  | Throw e => Throw e
  end.

Definition spec_deriveFromHedera (w : World)
    (context : option RegistryBrokerClientResolutionContext)
  : outcome (option RegistryBrokerLedgerOptions) :=
  match spec_operatorCredentials context with
  | Ok (Some (hc, operator, account, signer)) =>
      match spec_operatorOptions w hc operator account signer with
      | Ok derived => Ok (Some derived)
      | Throw e => Throw e
      end
  | Ok None => Ok None
  | Throw e => Throw e
  end.

(** The configured ledger options with the network normalised when set,
    every other field as configured. *)
Definition spec_normalizedConfig (w : World) (ledger : RegistryBrokerLedgerOptions)
  : RegistryBrokerLedgerOptions :=
  {| authOptions :=
       {| accountId := accountId (authOptions ledger);
          network :=
            match network (authOptions ledger) with
            | Some n =>
                if nonEmpty n then Some (normaliseHederaNetwork w (Some n) false)
                else Some n
            | None => None
            end;
          hederaPrivateKey := hederaPrivateKey (authOptions ledger);
          label := label (authOptions ledger);
          sign := sign (authOptions ledger);
          otherAuthFields := otherAuthFields (authOptions ledger) |};
     autoAuthenticate := autoAuthenticate ledger |}.


(** The events of one [log] call: one line when the logger has the method. *)
Definition logged (provider : RegistryBrokerClientProvider) (l : level)
    (message : string) : list event :=
  if match l with
     | LInfo => has_info (logger provider)
     | LWarn => has_warn (logger provider)
     end
  then [EvLog l message] else [].

(** [m] returns some value from every state, touching nothing but the
    trace, where it adds events that all satisfy [P]. *)
Definition runs {A : Type} (P : event -> Prop) (m : M A) : Prop :=
  exists a, computes P m a.

(** The schema a definition declares for its payload; the [noArgs] kind
    declares none and every payload passes. *)
Definition declaredSchema (definition : OperationDefinition) : schema :=
  match definition with
  | NoArgs _ => ZUnknown
  | StringArg _ field optional =>
      ZObject [(field, if optional then ZOptional z_string else nonEmptyString field)]
        Strict
  | ObjectArg _ sch | TupleArg _ sch _ | Custom sch _ => sch
  end.

(** The arguments a definition kind passes to the client method. *)
Definition methodArgs (definition : OperationDefinition) (parsedPayload : value)
  : list value :=
  match definition with
  | NoArgs _ => []
  | StringArg _ field _ => [get_prop parsedPayload field]
  | ObjectArg _ _ => [parsedPayload]
  | TupleArg _ _ mapArgs => mapArgs parsedPayload
  | Custom _ _ => [parsedPayload]
  end.

(** The tool input [{ operation, payload }]. *)
Definition toolInput (operation : string) (payload : value) : value :=
  VObj [("operation", VStr operation); ("payload", payload)].

Definition is_parse_error (e : error) : bool :=
  match e with
  | RegistryBrokerParseError _ _ => true
  | _ => false
  end.

(** What [execute] needs of a table entry to reach the method dispatch:
    the name is no conversation operation and not [initializeAgent], and the
    definition names a client method. *)
Definition dispatches_method (entry : string * OperationDefinition) : bool :=
  negb (CONVERSATION_OPERATIONS_has (fst entry))
  && negb (String.eqb (fst entry) "initializeAgent")
  && match snd entry with
     | Custom _ _ => false
     | _ => true
     end.

(** Successive calls of the tool, one per input. *)
Fixpoint executeAll (w : World) (provider : RegistryBrokerClientProvider)
    (hc : option HederaOperatorClient) (inputs : list value) (s : state)
  : list (outcome value) * state :=
  match inputs with
  | [] => ([], s)
  | input :: rest =>
      let '(settled, s1) := execute w provider input hc s in
      let '(others, s2) := executeAll w provider hc rest s1 in
      (settled :: others, s2)
  end.

(** The calls of host functions in a trace. *)
Definition hostCalls (t : list event) : list (nat * value * list value) :=
  flat_map (fun e => match e with
                     | EvCall f this args => [(f, this, args)]
                     | _ => []
                     end) t.

(** A secret of the client options: the configured one when it is not
    blank, else the variable's unless the configuration switches that off. *)
Definition spec_secret (configured : option string) (disabled : option bool)
    (fromEnv : option string) : option string :=
  match normalizeSecret configured with
  | Some k => Some k
  | None => if not_true disabled then fromEnv else None
  end.

(** The variable read for a secret, if any. *)
Definition secret_reads (configured : option string) (disabled : option bool)
    (key : string) : list string :=
  match normalizeSecret configured with
  | Some _ => []
  | None => if not_true disabled then [key] else []
  end.

Definition spec_clientOptions (w : World) (provider : RegistryBrokerClientProvider)
  : RegistryBrokerClientOptions :=
  let c := configuredClient provider in
  {| baseUrl := first_present (baseUrl (clientOverrides c))
                  (env_value w "REGISTRY_BROKER_BASE_URL");
     apiKey := spec_secret (apiKey (clientOverrides c)) (disableEnvApiKey c)
                 (env_value w "REGISTRY_BROKER_API_KEY");
     ledgerApiKey := spec_secret (ledgerApiKey (clientOverrides c))
                       (disableEnvLedgerApiKey c)
                       (env_value w "REGISTRY_BROKER_LEDGER_KEY");
     otherClientFields := otherClientFields (clientOverrides c) |}.

(** The variables [buildClientOptions] reads, in order. *)
Definition clientOptionReads (provider : RegistryBrokerClientProvider) : list string :=
  let c := configuredClient provider in
  match baseUrl (clientOverrides c) with
  | Some _ => []
  | None => ["REGISTRY_BROKER_BASE_URL"]
  end
  ++ secret_reads (apiKey (clientOverrides c)) (disableEnvApiKey c)
       "REGISTRY_BROKER_API_KEY"
  ++ secret_reads (ledgerApiKey (clientOverrides c)) (disableEnvLedgerApiKey c)
       "REGISTRY_BROKER_LEDGER_KEY".

(** [Q] relates the state before [m] to the state after it, whatever [m]
    settles to. *)
Definition post {A : Type} (Q : state -> state -> Prop) (m : M A) : Prop :=
  forall s, Q s (snd (m s)).

(** An event of the tool itself: a call of a host function, a new handle
    id, a call of [RegistryBrokerClient.initializeAgent]. *)
Definition dispatch_event (e : event) : Prop :=
  match e with
  | EvCall _ _ _ | EvCreateHandleId _ | EvInitializeAgent _ => True
  | _ => False
  end.

(** The provider's cache is as it was and the trace grew by events of the
    tool only. *)
Definition provider_untouched (s s' : state) : Prop :=
  clientPromise s' = clientPromise s
  /\ exists evs, trace s' = trace s ++ evs /\ Forall dispatch_event evs.

(** A cached promise is still the cached promise. *)
Definition cache_kept (s s' : state) : Prop :=
  forall p, clientPromise s = Some p -> clientPromise s' = Some p.

(** Every registered id is still registered. *)
Definition handles_kept (s s' : state) : Prop :=
  forall id, is_Some (handles s !! id) -> is_Some (handles s' !! id).

(** A payload for a required string field: an object whose field is a
    non-empty string and which has no other key. *)
Definition only_field (payload : value) (field text : string) : Prop :=
  exists props,
    payload = VObj props
    /\ get_prop payload field = VStr text
    /\ text <> EmptyString
    /\ forall k v, In (k, v) props -> k = field.

(** A path segment holds no dot. *)
Fixpoint has_dot (s : string) : bool :=
  match s with
  | EmptyString => false
  | String c r => Ascii.eqb c "."%char || has_dot r
  end.

(** The keys the search schema declares. *)
Definition searchKeys : list string :=
  ["q"; "page"; "limit"; "registry"; "registries"; "capabilities"; "protocols";
   "minTrust"; "adapters"; "sortBy"; "sortOrder"; "type"; "verified"; "online";
   "metadata"].

(** The own keys of an object. *)
Definition keys_of (v : value) : list string :=
  match v with
  | VObj props => map fst props
  | _ => []
  end.

(** The answer of the tool: [{success: true, operation, result}]. *)
Definition envelope (operation : string) (v : value) : Prop :=
  exists result,
    v = VObj [("success", VBool true); ("operation", VStr operation);
              ("result", result)].

(** Whenever [m] resolves, its value satisfies [R]. *)
Definition resolves_with (R : value -> Prop) (m : M value) : Prop :=
  forall s v s', m s = (Ok v, s') -> R v.





(** ** Sample worlds, after the repository's tests *)

(** U+00A0, U+2028 and U+FEFF in UTF-8. *)
Definition no_break_space : string :=
  String (ascii_of_nat 194) (String (ascii_of_nat 160) EmptyString).

Definition line_separator : string :=
  String (ascii_of_nat 226)
    (String (ascii_of_nat 128) (String (ascii_of_nat 168) EmptyString)).

Definition byte_order_mark : string :=
  String (ascii_of_nat 239)
    (String (ascii_of_nat 187) (String (ascii_of_nat 191) EmptyString)).


Definition no_env : string -> option string := fun _ => None.

Definition env_of (bindings : list (string * string)) : string -> option string :=
  fun key => assoc key bindings.

Definition initial_state : state :=
  {| clientPromise := None; handles := ∅; trace := [] |}.

Definition full_logger : RegistryBrokerPluginLogger :=
  {| has_info := true; has_warn := true |}.

(** The length of the longest handle id made so far. *)
Fixpoint longest_id (t : list event) : nat :=
  match t with
  | [] => 0
  | EvCreateHandleId id :: rest => Nat.max (String.length id) (longest_id rest)
  | _ :: rest => longest_id rest
  end.

Fixpoint letters (n : nat) : string :=
  match n with
  | 0 => EmptyString
  | S k => String "a" (letters k)
  end.

(** [handle-a], then [handle-aa], ...: an id longer than every id made so
    far. *)
Definition sample_id (history : list event) : string :=
  "handle-" +:+ letters (Nat.max 1 (longest_id history - 6)).

(** A world whose SDK accepts every authentication, whose host functions
    behave as [calls] says, and whose [crypto.randomUUID] yields ids that
    are new each time. *)
Definition sample_world (vars : list (string * string))
    (calls : nat -> value -> list value -> outcome value) : World :=
  {| process_env := env_of vars;
     toLowerCase := ascii_toLowerCase;
     sdk_authenticate := fun _ _ _ => Ok tt;
     host_call := fun _ => calls;
     sdk_initializeAgent := fun _ _ => Ok (VObj []);
     handleIdSource := fun history => CryptoUUID (sample_id history) |}.

(** The mocked client of the unit tests: functions 1 to 7. *)
Definition mock_client : value :=
  VObj [("search", VFun 1);
        ("resolveUaid", VFun 2);
        ("chat", VObj [("start", VFun 3); ("createSession", VFun 4)]);
        ("stats", VFun 5);
        ("registerAgent", VFun 6);
        ("vectorSearch", VFun 7);
        ("encryption", VObj [])].

(** The conversation handle of the unit tests: functions 10 and 11. *)
Definition mock_handle : value :=
  VObj [("sessionId", VStr "session-1");
        ("mode", VStr "plaintext");
        ("summary", VNull);
        ("send", VFun 10);
        ("decryptHistoryEntry", VFun 11)].

(** [search] resolves to [{ hits: [] }], [chat.start] to the handle, [send]
    to [{ ok: true }], [vectorSearch] rejects with a parse error, the rest
    resolve to [{}]. *)
Definition mock_calls (f : nat) (this : value) (args : list value) : outcome value :=
  match f with
  | 1 => Ok (VObj [("hits", VArr [])])
  | 7 => Throw (RegistryBrokerParseError "Failed to parse search response" VUndefined)
  | 3 => Ok mock_handle
  | 10 => Ok (VObj [("ok", VBool true)])
  | 11 => Ok (VStr "plaintext")
  | _ => Ok (VObj [])
  end.

Definition mock_provider (configuration : option RegistryBrokerPluginConfiguration)
  : RegistryBrokerClientProvider :=
  {| config := configuration;
     logger := full_logger;
     createClient := fun _ => Ok mock_client |}.

(** [createHederaClientStub()] of the unit tests: no operator. *)
Definition hedera_stub : HederaOperatorClient :=
  {| ledgerId := Some {| isMainnet := Some (Ok false);
                         isPreviewnet := Some (Ok false);
                         isTestnet := Some (Ok true);
                         ledgerToString := Some (Ok "testnet") |};
     getOperator := Some (Ok None) |}.

(** The Hedera client of the first provider test: a mainnet operator. *)
Definition hedera_operator : HederaOperatorClient :=
  {| ledgerId := Some {| isMainnet := Some (Ok true);
                         isPreviewnet := Some (Ok false);
                         isTestnet := Some (Ok false);
                         ledgerToString := Some (Ok "mainnet") |};
     getOperator :=
       Some (Ok (Some
         {| op_accountId := Some (SLObject (Some (Ok "0.0.111")));
            op_publicKey := Some (SLObject (Some (Ok "302a300506032b6570032100")));
            op_transactionSigner :=
              Some (fun _ => Ok [Byte.xde; Byte.xad; Byte.xbe; Byte.xef]) |})) |}.

(** A Hedera client whose operator has an account id that cannot be
    rendered: its [toString] throws. *)
Definition hedera_unformattable : HederaOperatorClient :=
  {| ledgerId := None;
     getOperator :=
       Some (Ok (Some
         {| op_accountId := Some (SLObject (Some (Throw (JsError "no account id"))));
            op_publicKey := None;
            op_transactionSigner := Some (fun _ => Ok []) |})) |}.

(** A Hedera client whose [getOperator] throws. *)
Definition hedera_throwing : HederaOperatorClient :=
  {| ledgerId := None;
     getOperator := Some (Throw (JsError "operator unavailable")) |}.

Definition mainnet_vars : list (string * string) :=
  [("MAINNET_HEDERA_ACCOUNT_ID", "0.0.456");
   ("MAINNET_HEDERA_PRIVATE_KEY", "302e01")].

Definition operator_vars : list (string * string) :=
  [("HEDERA_OPERATOR_ID", "0.0.789");
   ("HEDERA_OPERATOR_KEY", "abcd1234");
   ("HEDERA_NETWORK", "hedera:testnet")].

Definition test_world : World := sample_world [] mock_calls.

Definition test_provider : RegistryBrokerClientProvider := mock_provider None.

(** The state of the tool once its client is there. *)
Definition state_with_client : state :=
  snd (getClient test_world test_provider (Some {| hederaClient := Some hedera_stub |})
         initial_state).

(** The state after [chat.start] returned the handle. *)
Definition state_with_handle : state :=
  snd (execute test_world test_provider
         (toolInput "chat.start" (VObj [("uaid", VStr "uaid:demo")]))
         (Some hedera_stub) initial_state).

(** A provider configured with an API key and with the ledger key of the
    environment switched off. *)
Definition keyed_provider : RegistryBrokerClientProvider :=
  mock_provider
    (Some {| client :=
               Some {| clientOverrides :=
                         {| baseUrl := None; apiKey := Some " rbk_config ";
                            ledgerApiKey := None; otherClientFields := [] |};
                       disableEnvApiKey := None;
                       disableEnvLedgerApiKey := Some true |};
             ledger := None |}).

Definition key_vars : list (string * string) :=
  [("REGISTRY_BROKER_API_KEY", "rbk_env"); ("REGISTRY_BROKER_LEDGER_KEY", "ledger_env")].


(** * Part II: theorems *)

(** ** String primitives *)

Lemma trimStart_skip (s : string) :
  trimStart s = match skip_ws s with Some r => trimStart r | None => s end.
Proof.
  destruct s as [|c1 [|c2 [|c3 r3]]]; cbn [trimStart skip_ws]; try reflexivity.
  - destruct (is_ws1 c1); reflexivity.
  - destruct (is_ws1 c1); [reflexivity|]. destruct (is_ws2 c1 c2); reflexivity.
  - destruct (is_ws1 c1); [reflexivity|]. destruct (is_ws2 c1 c2); [reflexivity|].
    destruct (is_ws3 c1 c2 c3); reflexivity.
Qed.

Lemma skip_ws_shorter (s r : string) :
  skip_ws s = Some r -> (String.length r < String.length s)%nat.
Proof.
  destruct s as [|c1 [|c2 [|c3 r3]]]; cbn [skip_ws]; try discriminate.
  - destruct (is_ws1 c1); [|discriminate]. intros [= <-]. simpl. lia.
  - destruct (is_ws1 c1); [intros [= <-]; simpl; lia|].
    destruct (is_ws2 c1 c2); [|discriminate]. intros [= <-]. simpl. lia.
  - destruct (is_ws1 c1); [intros [= <-]; simpl; lia|].
    destruct (is_ws2 c1 c2); [intros [= <-]; simpl; lia|].
    destruct (is_ws3 c1 c2 c3); [|discriminate]. intros [= <-]. simpl. lia.
Qed.

Lemma append_cons (c : ascii) (r x : string) :
  String c r +:+ x = String c (r +:+ x).
Proof. reflexivity. Qed.

Lemma append_nil (x : string) : EmptyString +:+ x = x.
Proof. reflexivity. Qed.

Lemma skip_ws_app (p r x : string) :
  skip_ws p = Some r -> skip_ws (p +:+ x) = Some (r +:+ x).
Proof.
  destruct p as [|c1 [|c2 [|c3 r3]]]; rewrite ?append_cons, ?append_nil;
    cbn [skip_ws]; try discriminate.
  - destruct (is_ws1 c1); [|discriminate]. intros [= <-]. reflexivity.
  - destruct (is_ws1 c1); [intros [= <-]; reflexivity|].
    destruct (is_ws2 c1 c2); [|discriminate]. intros [= <-]. reflexivity.
  - destruct (is_ws1 c1); [intros [= <-]; reflexivity|].
    destruct (is_ws2 c1 c2); [intros [= <-]; reflexivity|].
    destruct (is_ws3 c1 c2 c3); [|discriminate]. intros [= <-]. reflexivity.
Qed.

Lemma string_length_ind (P : string -> Prop) :
  (forall s, (forall r, (String.length r < String.length s)%nat -> P r) -> P s) ->
  forall s, P s.
Proof.
  intros H s. remember (String.length s) as n eqn:E. revert s E.
  induction n as [n IH] using lt_wf_ind. intros s ->. apply H.
  intros r Hr. now apply (IH (String.length r)).
Qed.

Lemma skip_ws_trimStart (s : string) : skip_ws (trimStart s) = None.
Proof.
  induction s as [s IH] using string_length_ind.
  rewrite trimStart_skip. destruct (skip_ws s) as [r|] eqn:E; [|exact E].
  apply IH. now apply skip_ws_shorter.
Qed.

Lemma trimStart_idempotent (s : string) : trimStart (trimStart s) = trimStart s.
Proof. rewrite (trimStart_skip (trimStart s)). now rewrite skip_ws_trimStart. Qed.

Lemma trimStart_app (u x : string) :
  trimStart u = EmptyString -> trimStart (u +:+ x) = trimStart x.
Proof.
  induction u as [u IH] using string_length_ind. intros Hu.
  rewrite trimStart_skip in Hu. destruct (skip_ws u) as [r|] eqn:E.
  - rewrite trimStart_skip, (skip_ws_app _ _ _ E). apply IH; [|exact Hu].
    now apply skip_ws_shorter.
  - now subst u.
Qed.

(** What [trimEnd] cuts off is white space. *)
Lemma trimEnd_split (s : string) :
  exists x, s = trimEnd s +:+ x /\ trimStart x = EmptyString.
Proof.
  induction s as [|c r IH]; [now exists EmptyString|].
  cbn [trimEnd]. destruct (nonEmpty (trimStart (String c r))) eqn:E.
  - destruct IH as (x & Hx & Hw). exists x. split; [|exact Hw].
    rewrite append_cons. now rewrite <- Hx.
  - exists (String c r). split; [reflexivity|].
    destruct (trimStart (String c r)); [reflexivity | discriminate].
Qed.

Lemma trimEnd_idempotent (s : string) : trimEnd (trimEnd s) = trimEnd s.
Proof.
  induction s as [|c r IH]; [reflexivity|].
  cbn [trimEnd]. destruct (nonEmpty (trimStart (String c r))) eqn:E; [|reflexivity].
  cbn [trimEnd]. rewrite IH.
  destruct (nonEmpty (trimStart (String c (trimEnd r)))) eqn:E'; [reflexivity|].
  exfalso. destruct (trimEnd_split r) as (x & Hx & Hw).
  assert (trimStart (String c r) = EmptyString) as Hz.
  { rewrite Hx. change (String c (trimEnd r +:+ x)) with (String c (trimEnd r) +:+ x).
    rewrite trimStart_app; [exact Hw|].
    destruct (trimStart (String c (trimEnd r))); [reflexivity | discriminate]. }
  rewrite Hz in E. discriminate.
Qed.

Lemma trimStart_trimEnd (s : string) :
  skip_ws s = None -> trimStart (trimEnd s) = trimEnd s.
Proof.
  intros Hs. rewrite trimStart_skip.
  destruct (skip_ws (trimEnd s)) as [r|] eqn:E; [|reflexivity].
  destruct (trimEnd_split s) as (x & Hx & _).
  apply (skip_ws_app _ _ x) in E. rewrite <- Hx in E. congruence.
Qed.

Lemma trim_idempotent (s : string) : trim (trim s) = trim s.
Proof.
  unfold trim.
  rewrite (trimStart_trimEnd (trimStart s) (skip_ws_trimStart s)).
  apply trimEnd_idempotent.
Qed.

Lemma trimmed_non_empty_Some (s t : string) :
  trimmed_non_empty s = Some t -> t = trim s /\ nonEmpty t = true.
Proof.
  unfold trimmed_non_empty. destruct (nonEmpty (trim s)) eqn:E; [|discriminate].
  intros [= <-]. split; [reflexivity | exact E].
Qed.

Lemma trimmed_non_empty_fixed (s t : string) :
  trimmed_non_empty s = Some t -> trimmed_non_empty t = Some t.
Proof.
  intros H. apply trimmed_non_empty_Some in H as [-> H].
  unfold trimmed_non_empty. now rewrite trim_idempotent, H.
Qed.

Example trim_sample : trim "  Hedera:MainNet " = "Hedera:MainNet".
Proof. reflexivity. Qed.

Example trim_unicode_sample :
  trim (line_separator +:+ no_break_space +:+ " a b" +:+ no_break_space
          +:+ byte_order_mark)
  = "a b"
  /\ trim (no_break_space +:+ " " +:+ line_separator) = EmptyString.
Proof. split; reflexivity. Qed.

Example toLowerCase_sample : ascii_toLowerCase "Hedera:MainNet" = "hedera:mainnet".
Proof. reflexivity. Qed.

Example base64_sample :
  base64 [Byte.xde; Byte.xad; Byte.xbe; Byte.xef] = "3q2+7w==".
Proof. reflexivity. Qed.

Example base64_sample_text : base64 (utf8_bytes "hello world") = "aGVsbG8gd29ybGQ=".
Proof. reflexivity. Qed.

(** ** The monad *)

Lemma add_events_nil (s : state) : add_events [] s = s.
Proof. destruct s; unfold add_events; simpl. now rewrite app_nil_r. Qed.

Lemma add_events_app (a b : list event) (s : state) :
  add_events b (add_events a s) = add_events (a ++ b) s.
Proof. unfold add_events; simpl. now rewrite <- app_assoc. Qed.

Lemma bind_ok {A B : Type} (m : M A) (k : A -> M B) (s s' : state) (a : A) :
  m s = (Ok a, s') -> bind m k s = k a s'.
Proof. intros H. unfold bind. now rewrite H. Qed.

Lemma bind_throw {A B : Type} (m : M A) (k : A -> M B) (s s' : state) (e : error) :
  m s = (Throw e, s') -> bind m k s = (Throw e, s').
Proof. intros H. unfold bind. now rewrite H. Qed.

Section Computes.

Context {A B : Type} (P : event -> Prop).

Lemma computes_ret (a : A) : computes P (ret a) a.
Proof.
  intros s. exists []. rewrite add_events_nil. split; [reflexivity | constructor].
Qed.

Lemma computes_bind (m : M A) (k : A -> M B) (a : A) (b : B) :
  computes P m a -> computes P (k a) b -> computes P (bind m k) b.
Proof.
  intros Hm Hk s.
  destruct (Hm s) as (e1 & E1 & F1).
  destruct (Hk (add_events e1 s)) as (e2 & E2 & F2).
  exists (e1 ++ e2). rewrite (bind_ok _ _ _ _ _ E1), E2, add_events_app.
  split; [reflexivity | now apply Forall_app].
Qed.

Lemma computes_weaken (Q : event -> Prop) (m : M A) (a : A) :
  (forall e, P e -> Q e) -> computes P m a -> computes Q m a.
Proof.
  intros HPQ Hm s. destruct (Hm s) as (evs & E & F).
  exists evs. split; [exact E|]. eapply Forall_impl; eauto.
Qed.

End Computes.

Lemma computes_emit (P : event -> Prop) (e : event) : P e -> computes P (emit e) tt.
Proof.
  intros He s. exists [e]. split; [reflexivity | now repeat constructor].
Qed.

Lemma computes_env (P : event -> Prop) (w : World) (key : string) :
  P (EvEnvRead key) -> computes P (env w key) (env_value w key).
Proof.
  intros He. unfold env.
  eapply computes_bind; [now apply computes_emit | apply computes_ret].
Qed.

Lemma computes_log (P : event -> Prop) (provider : RegistryBrokerClientProvider)
    (l : level) (message : string) :
  P (EvLog l message) -> computes P (log provider l message) tt.
Proof.
  intros He. unfold log.
  destruct (match l with LInfo => _ | LWarn => _ end);
    [now apply computes_emit | apply computes_ret].
Qed.

(** ** Credentials from the environment *)

Lemma env_value_non_empty (w : World) (key v : string) :
  env_value w key = Some v -> nonEmpty v = true /\ trim v = v.
Proof.
  unfold env_value. destruct (process_env w key) as [raw|]; [|discriminate].
  intros H. apply trimmed_non_empty_Some in H as [-> H].
  split; [exact H | apply trim_idempotent].
Qed.

Lemma env_value_Some (w : World) (key v : string) :
  env_value w key = Some v <->
  exists raw, process_env w key = Some raw /\ v = trim raw /\ nonEmpty v = true.
Proof.
  unfold env_value, trimmed_non_empty. split.
  - destruct (process_env w key) as [raw|]; [|discriminate].
    destruct (nonEmpty (trim raw)) eqn:E; [|discriminate].
    intros [= <-]. now exists raw.
  - intros (raw & -> & -> & H). now rewrite H.
Qed.

Lemma env_value_None (w : World) (key : string) :
  env_value w key = None <->
  process_env w key = None
  \/ exists raw, process_env w key = Some raw /\ trim raw = EmptyString.
Proof.
  unfold env_value, trimmed_non_empty. split.
  - destruct (process_env w key) as [raw|]; [|now left].
    destruct (trim raw) eqn:E; [|discriminate]. right. now exists raw.
  - intros [->|(raw & -> & ->)]; reflexivity.
Qed.

Lemma normaliseHederaNetwork_env (w : World) (preferMainnet : bool) :
  normaliseHederaNetwork w (env_value w "HEDERA_NETWORK") preferMainnet
  = spec_envNetwork w (if preferMainnet then "hedera:mainnet" else "hedera:testnet").
Proof.
  unfold normaliseHederaNetwork, spec_envNetwork.
  destruct (env_value w "HEDERA_NETWORK") as [v|] eqn:E; [|reflexivity].
  apply env_value_non_empty in E as [N T]. rewrite T, N. reflexivity.
Qed.

Lemma computes_envWithFallback (P : event -> Prop) (w : World)
    (key : string) (fallbackKey : option string) :
  (forall k, P (EvEnvRead k)) ->
  computes P (envWithFallback w key fallbackKey)
    (first_present (env_value w key)
       (match fallbackKey with
        | Some k => if nonEmpty k then env_value w k else None
        | None => None
        end)).
Proof.
  intros HP. unfold envWithFallback.
  eapply computes_bind; [now apply computes_env|].
  destruct (env_value w key) as [v|]; simpl; [apply computes_ret|].
  destruct fallbackKey as [k|]; simpl; [|apply computes_ret].
  destruct (nonEmpty k); simpl; [now apply computes_env | apply computes_ret].
Qed.

Lemma computes_pickLedgerEnvSet (P : event -> Prop) (w : World)
    (params : LedgerEnvParams) :
  (forall k, P (EvEnvRead k)) ->
  computes P (pickLedgerEnvSet w params)
    (match first_present (env_value w (accountKey params))
             (match fallbackAccountKey params with
              | Some k => if nonEmpty k then env_value w k else None
              | None => None
              end),
           first_present (env_value w (privateKey params))
             (match fallbackPrivateKey params with
              | Some k => if nonEmpty k then env_value w k else None
              | None => None
              end)
     with
     | Some a, Some p =>
         if negb (nonEmpty a) || negb (nonEmpty p) then None
         else Some {| set_accountId := a; set_privateKey := p;
                      set_preferMainnet := preferMainnet params |}
     | _, _ => None
     end).
Proof.
  intros HP. unfold pickLedgerEnvSet.
  eapply computes_bind; [now apply computes_envWithFallback|].
  eapply computes_bind; [now apply computes_envWithFallback|].
  destruct (first_present (env_value w (accountKey params)) _) as [a|];
    destruct (first_present (env_value w (privateKey params)) _) as [p|]; simpl;
    try apply computes_ret.
  - destruct (negb (nonEmpty a) || negb (nonEmpty p)); apply computes_ret.
  - rewrite orb_true_r. apply computes_ret.
Qed.

Lemma first_present_non_empty (w : World) (k1 k2 : string) (v : string) :
  first_present (env_value w k1) (env_value w k2) = Some v -> nonEmpty v = true.
Proof.
  unfold first_present. destruct (env_value w k1) eqn:E1.
  - intros [= <-]. now apply env_value_non_empty in E1.
  - intros E2. now apply env_value_non_empty in E2.
Qed.

Lemma computes_deriveLedgerOptionsFromEnv (P : event -> Prop) (w : World) :
  (forall k, P (EvEnvRead k)) ->
  computes P (deriveLedgerOptionsFromEnv w) (spec_deriveFromEnv w).
Proof.
  intros HP. unfold deriveLedgerOptionsFromEnv.
  eapply computes_bind; [now apply computes_pickLedgerEnvSet|].
  eapply computes_bind; [now apply computes_pickLedgerEnvSet|].
  cbn [accountKey privateKey fallbackAccountKey fallbackPrivateKey preferMainnet nonEmpty].
  unfold spec_deriveFromEnv.
  destruct (first_present (env_value w "HEDERA_OPERATOR_ID")
              (env_value w "HEDERA_ACCOUNT_ID")) as [a|] eqn:Ea;
    destruct (first_present (env_value w "HEDERA_OPERATOR_KEY")
                (env_value w "HEDERA_PRIVATE_KEY")) as [p|] eqn:Ep.
  1: { rewrite (first_present_non_empty _ _ _ _ Ea), (first_present_non_empty _ _ _ _ Ep).
       cbn [negb orb set_preferMainnet set_accountId set_privateKey].
       eapply computes_bind; [now apply computes_env|].
       rewrite normaliseHederaNetwork_env. apply computes_ret. }
  all: cbn [first_present];
    destruct (env_value w "MAINNET_HEDERA_ACCOUNT_ID") as [ma|] eqn:Ema;
    destruct (env_value w "MAINNET_HEDERA_PRIVATE_KEY") as [mp|] eqn:Emp;
    cbn [first_present];
    try apply computes_ret;
    apply env_value_non_empty in Ema as [-> _];
    apply env_value_non_empty in Emp as [-> _];
    cbn [negb orb set_preferMainnet set_accountId set_privateKey];
    (eapply computes_bind; [now apply computes_env|]);
    rewrite normaliseHederaNetwork_env; apply computes_ret.
Qed.

(** ** Credentials from the Hedera client *)

Section Settles.

Context {A B : Type} (P : event -> Prop).

Lemma settles_computes (m : M A) (a : A) : computes P m a -> settles P m (Ok a).
Proof. intros H. exact H. Qed.

Lemma settles_settle (o : outcome A) : settles P (settle o) o.
Proof.
  intros s. exists []. rewrite add_events_nil. split; [reflexivity | constructor].
Qed.

Lemma settles_bind (m : M A) (k : A -> M B) (a : A) (o : outcome B) :
  computes P m a -> settles P (k a) o -> settles P (bind m k) o.
Proof.
  intros Hm Hk s.
  destruct (Hm s) as (e1 & E1 & F1).
  destruct (Hk (add_events e1 s)) as (e2 & E2 & F2).
  exists (e1 ++ e2). rewrite (bind_ok _ _ _ _ _ E1), E2, add_events_app.
  split; [reflexivity | now apply Forall_app].
Qed.

Lemma settles_throw (m : M A) (k : A -> M B) (e : error) :
  settles P m (Throw e) -> settles P (bind m k) (Throw e).
Proof.
  intros Hm s. destruct (Hm s) as (evs & E & F).
  exists evs. now rewrite (bind_throw _ _ _ _ _ E).
Qed.

Lemma settles_weaken (Q : event -> Prop) (m : M A) (o : outcome A) :
  (forall e, P e -> Q e) -> settles P m o -> settles Q m o.
Proof.
  intros HPQ Hm s. destruct (Hm s) as (evs & E & F).
  exists evs. split; [exact E|]. eapply Forall_impl; eauto.
Qed.

Lemma settles_inv (m : M A) (o o' : outcome A) (s s' : state) :
  settles P m o -> m s = (o', s') ->
  o' = o /\ exists evs, s' = add_events evs s /\ Forall P evs.
Proof.
  intros Hm H. destruct (Hm s) as (evs & E & F).
  rewrite E in H. injection H as <- <-. eauto.
Qed.

End Settles.

Lemma invokeLedgerCheck_returnsTrue (lid : HederaLedgerIdLike) :
  invokeLedgerCheck lid IsMainnetCheck = returnsTrue (isMainnet lid)
  /\ invokeLedgerCheck lid IsPreviewnetCheck = returnsTrue (isPreviewnet lid)
  /\ invokeLedgerCheck lid IsTestnetCheck = returnsTrue (isTestnet lid).
Proof.
  unfold invokeLedgerCheck, returnsTrue.
  destruct (isMainnet lid) as [[|]|], (isPreviewnet lid) as [[|]|],
    (isTestnet lid) as [[|]|]; auto.
Qed.

Lemma settles_deriveNetworkFromHederaClient (P : event -> Prop) (w : World)
    (hc : HederaOperatorClient) :
  P (EvEnvRead "HEDERA_NETWORK") ->
  settles P (deriveNetworkFromHederaClient w hc) (spec_clientNetwork w hc).
Proof.
  intros HP.
  assert (settles P
            (do networkVar <- env w "HEDERA_NETWORK";
             ret (normaliseHederaNetwork w networkVar false))
            (Ok (spec_envNetwork w "hedera:testnet"))) as Henv.
  { eapply settles_bind; [now apply computes_env|].
    rewrite normaliseHederaNetwork_env. apply settles_computes, computes_ret. }
  unfold deriveNetworkFromHederaClient, spec_clientNetwork.
  destruct (ledgerId hc) as [lid|]; [|exact Henv].
  destruct (invokeLedgerCheck_returnsTrue lid) as (-> & -> & ->).
  destruct (returnsTrue (isMainnet lid)); [apply settles_computes, computes_ret|].
  destruct (returnsTrue (isPreviewnet lid)); [apply settles_computes, computes_ret|].
  destruct (returnsTrue (isTestnet lid)); [apply settles_computes, computes_ret|].
  destruct (ledgerToString lid) as [[text|e]|]; [| |exact Henv].
  - eapply settles_bind; [apply settles_settle|].
    destruct (nonEmpty text); [apply settles_computes, computes_ret | exact Henv].
  - apply settles_throw, settles_settle.
Qed.

Lemma falsy_stringLike_unformattable (x : option StringLike) :
  falsy_stringLike x = true -> formatAccountId x = Ok None.
Proof.
  destruct x as [[s|t]|]; simpl; try discriminate; [|reflexivity].
  destruct s; [reflexivity | discriminate].
Qed.

Lemma settles_warn (provider : RegistryBrokerClientProvider) (message : string)
    (A : Type) :
  settles no_credential_read (run log provider LWarn message; ret (@None A)) (Ok None).
Proof.
  eapply settles_bind; [now apply computes_log | apply settles_computes, computes_ret].
Qed.

Lemma settles_deriveLedgerOptionsFromHederaClient (w : World)
    (provider : RegistryBrokerClientProvider)
    (context : option RegistryBrokerClientResolutionContext) :
  settles no_credential_read
    (deriveLedgerOptionsFromHederaClient w provider context)
    (spec_deriveFromHedera w context).
Proof.
  unfold deriveLedgerOptionsFromHederaClient, spec_deriveFromHedera,
    spec_operatorCredentials.
  destruct context as [[[hc|]]|]; cbn [hederaClient];
    try apply settles_computes, computes_ret.
  destruct (getOperator hc) as [[[operator|]|e]|];
    try apply settles_computes, computes_ret.
  2: { eapply settles_bind; [now apply computes_emit|].
       eapply settles_bind; [apply settles_settle | apply settles_warn]. }
  2: { eapply settles_bind; [now apply computes_emit|].
       apply settles_throw, settles_settle. }
  eapply settles_bind; [now apply computes_emit|].
  eapply settles_bind; [apply settles_settle|]. cbv beta iota.
  destruct (falsy_stringLike (op_accountId operator)) eqn:F; [apply settles_warn|].
  destruct (op_transactionSigner operator) as [signer|]; [|apply settles_warn].
  destruct (formatAccountId (op_accountId operator)) as [[account|]|e].
  - eapply settles_bind; [apply settles_settle|]. cbv beta iota.
    unfold spec_operatorOptions.
    destruct (formatAccountId (op_publicKey operator)) as [publicKey|e].
    + eapply settles_bind; [apply settles_settle|]. cbv beta iota.
      pose proof (settles_deriveNetworkFromHederaClient no_credential_read w hc
                    eq_refl) as Hn.
      destruct (spec_clientNetwork w hc) as [net|e].
      * eapply settles_bind; [exact Hn | apply settles_computes, computes_ret].
      * now apply settles_throw.
    + apply settles_throw, settles_settle.
  - eapply settles_bind; [apply settles_settle | apply settles_warn].
  - apply settles_throw, settles_settle.
Qed.

Lemma normalizeLedgerConfig_spec (w : World) (ledger : RegistryBrokerLedgerOptions) :
  normalizeLedgerConfig w ledger = spec_normalizedConfig w ledger.
Proof.
  destruct ledger as [[account net key lbl sg other] auto].
  unfold normalizeLedgerConfig, spec_normalizedConfig; simpl.
  destruct net as [n|]; simpl; [|reflexivity].
  destruct (nonEmpty n); reflexivity.
Qed.

Lemma no_credential_read_resolution (e : event) :
  no_credential_read e -> resolution_event e.
Proof. destruct e; simpl; auto. Qed.

Lemma is_env_read_resolution (e : event) : is_env_read e -> resolution_event e.
Proof. destruct e; simpl; auto. Qed.

Lemma computes_resolve_hedera (w : World) (provider : RegistryBrokerClientProvider)
    (context : option RegistryBrokerClientResolutionContext)
    (derived : RegistryBrokerLedgerOptions) :
  configuredLedger provider = None ->
  spec_deriveFromHedera w context = Ok (Some derived) ->
  computes no_credential_read (resolveLedgerOptions w provider context) (Some derived).
Proof.
  intros Hc Hd. unfold resolveLedgerOptions. rewrite Hc.
  pose proof (settles_deriveLedgerOptionsFromHederaClient w provider context) as H.
  rewrite Hd in H. eapply computes_bind; [exact H | apply computes_ret].
Qed.

Lemma computes_resolve_env (w : World) (provider : RegistryBrokerClientProvider)
    (context : option RegistryBrokerClientResolutionContext) :
  configuredLedger provider = None ->
  spec_deriveFromHedera w context = Ok None ->
  computes resolution_event (resolveLedgerOptions w provider context)
    (spec_deriveFromEnv w).
Proof.
  intros Hc Hd. unfold resolveLedgerOptions. rewrite Hc.
  pose proof (settles_deriveLedgerOptionsFromHederaClient w provider context) as H.
  rewrite Hd in H. eapply computes_bind.
  - eapply computes_weaken; [apply no_credential_read_resolution | exact H].
  - apply computes_deriveLedgerOptionsFromEnv. now intros k.
Qed.

Lemma settles_resolve_throw (w : World) (provider : RegistryBrokerClientProvider)
    (context : option RegistryBrokerClientResolutionContext) (e : error) :
  configuredLedger provider = None ->
  spec_deriveFromHedera w context = Throw e ->
  settles no_credential_read (resolveLedgerOptions w provider context) (Throw e).
Proof.
  intros Hc Hd. unfold resolveLedgerOptions. rewrite Hc.
  pose proof (settles_deriveLedgerOptionsFromHederaClient w provider context) as H.
  rewrite Hd in H. now apply settles_throw.
Qed.

(** C5. Credentials derived from the environment: the operator pair, each
    variable with its fallback, comes before the mainnet pair; a pair counts
    only when account id and private key are both non-empty after trimming;
    the network is the [HEDERA_NETWORK] value lower-cased and prefixed with
    [hedera:] unless it has the prefix, with the pair's default when the
    variable is unset or blank. Trimming is that of [String.prototype.trim],
    Unicode white space included; only the environment is read. *)
Theorem deriveLedgerOptionsFromEnv_follows_spec (w : World) :
  computes is_env_read (deriveLedgerOptionsFromEnv w) (spec_deriveFromEnv w).
Proof. apply computes_deriveLedgerOptionsFromEnv. now intros k. Qed.

(** C1, as amended. The precedence of ledger credential resolution:
    configured options (network normalised when set) are returned with no
    event at all; else the options derived from the Hedera client, with no
    read of a credential variable; else the options derived from the
    environment, none when the environment holds no complete pair. When
    [getOperator] or a [toString] of the Hedera client throws during the
    derivation, resolution throws that error and no credential variable is
    read: there is no fall-back to the environment. *)
Theorem resolveLedgerOptions_precedence (w : World)
    (provider : RegistryBrokerClientProvider)
    (context : option RegistryBrokerClientResolutionContext) :
  match configuredLedger provider with
  | Some ledger =>
      forall s, resolveLedgerOptions w provider context s
                = (Ok (Some (spec_normalizedConfig w ledger)), s)
  | None =>
      match spec_deriveFromHedera w context with
      | Ok (Some derived) =>
          computes no_credential_read
            (resolveLedgerOptions w provider context) (Some derived)
      | Ok None =>
          computes resolution_event
            (resolveLedgerOptions w provider context) (spec_deriveFromEnv w)
      | Throw e =>
          settles no_credential_read
            (resolveLedgerOptions w provider context) (Throw e)
      end
  end.
Proof.
  destruct (configuredLedger provider) as [ledger|] eqn:Hc.
  - intros s. unfold resolveLedgerOptions. rewrite Hc.
    now rewrite normalizeLedgerConfig_spec.
  - destruct (spec_deriveFromHedera w context) as [[derived|]|e] eqn:Hd.
    + now apply computes_resolve_hedera.
    + now apply computes_resolve_env.
    + now apply settles_resolve_throw.
Qed.

(** C6, as amended. Derivation from the Hedera client succeeds exactly when
    the context yields operator credentials and neither the formatting of
    the public key nor the search for the network throws; it then carries
    the formatted account id, [autoAuthenticate] true, the network of the
    client and the signing closure, and reads no credential variable. The
    closure signs the UTF-8 bytes of the message and returns the signature
    in base64 with kind [raw] and the formatted public key. When the context
    yields no credentials, derivation returns nothing and, without
    configured options, resolution returns what the environment gives. When
    [getOperator] or a [toString] throws, derivation and resolution throw
    that error. *)
Theorem deriveLedgerOptionsFromHederaClient_follows_spec (w : World)
    (provider : RegistryBrokerClientProvider)
    (context : option RegistryBrokerClientResolutionContext) :
  match spec_operatorCredentials context with
  | Ok (Some (hc, operator, account, signer)) =>
      match formatAccountId (op_publicKey operator) with
      | Ok publicKey =>
          match spec_clientNetwork w hc with
          | Ok net =>
              computes no_credential_read
                (deriveLedgerOptionsFromHederaClient w provider context)
                (Some {| authOptions :=
                           {| accountId := account;
                              network := Some net;
                              hederaPrivateKey := None;
                              label := Some "Hedera Agent Kit operator";
                              sign := Some (SignWithOperator signer publicKey);
                              otherAuthFields := [] |};
                         autoAuthenticate := Some true |})
              /\ forall message,
                   runSign (SignWithOperator signer publicKey) message
                   = Some match signer (utf8_bytes message) with
                          | Ok signatureBytes =>
                              Ok {| signature := base64 signatureBytes;
                                    signatureKind := "raw";
                                    signedPublicKey := publicKey |}
                          | Throw e => Throw e
                          end
          | Throw e =>
              settles no_credential_read
                (deriveLedgerOptionsFromHederaClient w provider context) (Throw e)
          end
      | Throw e =>
          settles no_credential_read
            (deriveLedgerOptionsFromHederaClient w provider context) (Throw e)
      end
  | Ok None =>
      computes no_credential_read
        (deriveLedgerOptionsFromHederaClient w provider context) None
      /\ (configuredLedger provider = None ->
          computes resolution_event
            (resolveLedgerOptions w provider context) (spec_deriveFromEnv w))
  | Throw e =>
      settles no_credential_read
        (deriveLedgerOptionsFromHederaClient w provider context) (Throw e)
      /\ (configuredLedger provider = None ->
          settles no_credential_read
            (resolveLedgerOptions w provider context) (Throw e))
  end.
Proof.
  pose proof (settles_deriveLedgerOptionsFromHederaClient w provider context) as H.
  unfold spec_deriveFromHedera, spec_operatorOptions in H.
  destruct (spec_operatorCredentials context)
    as [[[[[hc operator] account] signer]|]|e] eqn:E.
  - destruct (formatAccountId (op_publicKey operator)) as [publicKey|e];
      [|exact H].
    destruct (spec_clientNetwork w hc) as [net|e]; [|exact H].
    split; [exact H | reflexivity].
  - split; [exact H|]. intros Hc. apply computes_resolve_env; [exact Hc|].
    unfold spec_deriveFromHedera. now rewrite E.
  - split; [exact H|]. intros Hc. apply settles_resolve_throw; [exact Hc|].
    unfold spec_deriveFromHedera. now rewrite E.
Qed.

(** ** Client construction *)

Lemma bind_emit {B : Type} (e : event) (k : unit -> M B) (s : state) :
  bind (emit e) k s = k tt (add_events [e] s).
Proof. reflexivity. Qed.

Lemma bind_get_trace {B : Type} (k : list event -> M B) (s : state) :
  bind get_trace k s = k (trace s) s.
Proof. reflexivity. Qed.

Lemma bind_settle_ok {A B : Type} (a : A) (k : A -> M B) (s : state) :
  bind (settle (Ok a)) k s = k a s.
Proof. reflexivity. Qed.

Lemma bind_settle_throw {A B : Type} (e : error) (k : A -> M B) (s : state) :
  bind (settle (Throw e)) k s = (Throw e, s).
Proof. reflexivity. Qed.

Lemma bind_ret {A B : Type} (a : A) (k : A -> M B) (s : state) :
  bind (ret a) k s = k a s.
Proof. reflexivity. Qed.

Lemma bind_assoc {A B C : Type} (m : M A) (k : A -> M B) (k' : B -> M C)
    (s : state) :
  bind (bind m k) k' s = bind m (fun x => bind (k x) k') s.
Proof. unfold bind. destruct (m s) as [[a|e] s']; reflexivity. Qed.

Lemma log_run (provider : RegistryBrokerClientProvider) (l : level)
    (message : string) (s : state) :
  log provider l message s = (Ok tt, add_events (logged provider l message) s).
Proof.
  unfold log, logged.
  destruct (match l with LInfo => _ | LWarn => _ end);
    [reflexivity | now rewrite add_events_nil].
Qed.

Lemma bind_log {B : Type} (provider : RegistryBrokerClientProvider) (l : level)
    (message : string) (k : unit -> M B) (s : state) :
  bind (log provider l message) k s
  = k tt (add_events (logged provider l message) s).
Proof. unfold bind. now rewrite log_run. Qed.

Ltac mstep :=
  repeat first
    [ rewrite bind_assoc
    | rewrite bind_get_trace; cbv beta
    | rewrite bind_emit
    | rewrite bind_settle_ok
    | rewrite bind_settle_throw
    | rewrite bind_log
    | rewrite bind_ret
    | rewrite add_events_app ].

Lemma runs_bind {A B : Type} (P : event -> Prop) (m : M A) (k : A -> M B) :
  runs P m -> (forall a, runs P (k a)) -> runs P (bind m k).
Proof.
  intros [a Ha] Hk. destruct (Hk a) as [b Hb].
  exists b. eapply computes_bind; eauto.
Qed.

Lemma runs_ret {A : Type} (P : event -> Prop) (a : A) : runs P (ret a).
Proof. exists a. apply computes_ret. Qed.

Lemma runs_env (P : event -> Prop) (w : World) (key : string) :
  P (EvEnvRead key) -> runs P (env w key).
Proof. intros H. eexists. now apply computes_env. Qed.

Lemma buildClientOptions_runs (w : World) (provider : RegistryBrokerClientProvider) :
  runs is_env_read (buildClientOptions w provider).
Proof.
  unfold buildClientOptions.
  apply runs_bind.
  { destruct (baseUrl _); [apply runs_ret | now apply runs_env]. }
  intros mergedBaseUrl. apply runs_bind.
  { destruct (normalizeSecret (apiKey _)); [apply runs_ret|].
    destruct (not_true _); [|apply runs_ret].
    apply runs_bind; [now apply runs_env | intros; apply runs_ret]. }
  intros key. apply runs_bind.
  { destruct (normalizeSecret (ledgerApiKey _)); [apply runs_ret|].
    destruct (not_true _); [|apply runs_ret].
    apply runs_bind; [now apply runs_env | intros; apply runs_ret]. }
  intros ledgerKey. apply runs_ret.
Qed.

Lemma resolveLedgerOptions_settles (w : World)
    (provider : RegistryBrokerClientProvider)
    (context : option RegistryBrokerClientResolutionContext) :
  exists o, settles resolution_event (resolveLedgerOptions w provider context) o.
Proof.
  destruct (configuredLedger provider) as [ledger|] eqn:Hc.
  - exists (Ok (Some (normalizeLedgerConfig w ledger))).
    unfold resolveLedgerOptions. rewrite Hc. apply settles_computes, computes_ret.
  - destruct (spec_deriveFromHedera w context) as [[derived|]|e] eqn:Hd.
    + exists (Ok (Some derived)).
      eapply settles_weaken; [apply no_credential_read_resolution|].
      now apply computes_resolve_hedera.
    + exists (Ok (spec_deriveFromEnv w)). now apply computes_resolve_env.
    + exists (Throw e).
      eapply settles_weaken; [apply no_credential_read_resolution|].
      now apply settles_resolve_throw.
Qed.

Lemma runs_inv {A : Type} (P : event -> Prop) (m : M A) (s s' : state)
    (o : outcome A) :
  runs P m -> m s = (o, s') ->
  exists a evs, o = Ok a /\ s' = add_events evs s /\ Forall P evs.
Proof.
  intros [a Ha] H. destruct (Ha s) as (evs & E & F).
  rewrite E in H. injection H as <- <-. eauto.
Qed.

Lemma authentications_app (a b : list event) :
  authentications (a ++ b) = authentications a ++ authentications b.
Proof. unfold authentications. apply flat_map_app. Qed.


Lemma authentications_resolution (evs : list event) :
  Forall resolution_event evs -> authentications evs = [].
Proof.
  induction 1 as [|e l He _ IH]; [reflexivity|].
  destruct e; simpl in *; try contradiction; exact IH.
Qed.


Lemma env_reads_resolution (evs : list event) :
  Forall is_env_read evs -> Forall resolution_event evs.
Proof.
  intros H. eapply Forall_impl; [exact H|]. apply is_env_read_resolution.
Qed.

Lemma logged_resolution (provider : RegistryBrokerClientProvider) (l : level)
    (message : string) :
  Forall resolution_event (logged provider l message).
Proof. unfold logged. destruct (match l with LInfo => _ | LWarn => _ end); repeat constructor. Qed.

(** C7. Authentication during client construction. With the client created
    and ledger options resolved to [ledgerConfig]: when options were resolved
    and [autoAuthenticate] is not [false], the construction calls
    [authenticateWithLedgerCredentials] exactly once, on the new client, with
    the options less [autoAuthenticate], and settles as that call does; when
    the flag is [false] or nothing was resolved, it never calls it, and when
    nothing was resolved and no API key either, the logger's [warn] receives
    the warning. *)
Theorem initialiseClient_authentication (w : World)
    (provider : RegistryBrokerClientProvider)
    (context : option RegistryBrokerClientResolutionContext)
    (s s1 s2 : state) (options : RegistryBrokerClientOptions) (clientObj : value)
    (ledgerConfig : option RegistryBrokerLedgerOptions) :
  buildClientOptions w provider s = (Ok options, s1) ->
  createClient provider options = Ok clientObj ->
  resolveLedgerOptions w provider context (add_events [EvCreateClient options] s1)
  = (Ok ledgerConfig, s2) ->
  exists evs,
    snd (initialiseClient w provider context s) = add_events evs s
    /\ match ledgerConfig with
       | Some resolved =>
           match autoAuthenticate resolved with
           | Some false =>
               authentications evs = []
               /\ fst (initialiseClient w provider context s) = Ok clientObj
           | _ =>
               authentications evs = [(clientObj, authOptions resolved)]
               /\ fst (initialiseClient w provider context s)
                  = match sdk_authenticate w (trace s2) clientObj (authOptions resolved) with
                    | Ok _ => Ok clientObj
                    | Throw e => Throw e
                    end
           end
       | None =>
           authentications evs = []
           /\ fst (initialiseClient w provider context s) = Ok clientObj
           /\ (falsy_string (apiKey options) = true ->
               has_warn (logger provider) = true ->
               In (EvLog LWarn "[RegistryBrokerPlugin] Neither REGISTRY_BROKER_API_KEY nor ledger credentials were provided. Paid endpoints will fail.") evs)
       end.
Proof.
  intros Hb Hc Hr.
  destruct (runs_inv _ _ _ _ _ (buildClientOptions_runs w provider) Hb)
    as (o & e1 & [= <-] & -> & F1).
  destruct (resolveLedgerOptions_settles w provider context) as [o Ho].
  destruct (settles_inv _ _ _ _ _ _ Ho Hr) as (_ & e2 & -> & F2).
  apply env_reads_resolution in F1.
  pose proof (authentications_resolution _ F1) as A1.
  pose proof (authentications_resolution _ F2) as A2.
  unfold initialiseClient.
  rewrite (bind_ok _ _ _ _ _ Hb), bind_emit, Hc, bind_settle_ok,
    (bind_ok _ _ _ _ _ Hr).
  rewrite !add_events_app.
  destruct ledgerConfig as [resolved|].
  - destruct (autoAuthenticate resolved) as [[|]|]; mstep.
    1,3: destruct (sdk_authenticate w _ clientObj (authOptions resolved))
           as [[]|err] eqn:Ha; mstep.
    all: eexists; split; [reflexivity|]; cbn [fst].
    all: rewrite !authentications_app, A1, A2,
           ?(authentications_resolution _ (logged_resolution _ _ _)).
    all: split; reflexivity.
  - destruct (falsy_string (apiKey options)) eqn:Hk; mstep.
    + eexists; split; [reflexivity|]; cbn [fst].
      rewrite !authentications_app, A1, A2,
        (authentications_resolution _ (logged_resolution _ _ _)).
      split; [reflexivity|]. split; [reflexivity|].
      intros _ Hw. unfold logged. rewrite Hw.
      apply in_or_app. right. now left.
    + eexists; split; [reflexivity|]; cbn [fst].
      rewrite !authentications_app, A1, A2.
      split; [reflexivity|]. split; [reflexivity|]. intros [=].
Qed.

(** ** The cached client *)

Lemma getClient_cached (w : World) (provider : RegistryBrokerClientProvider)
    (context : option RegistryBrokerClientResolutionContext) (s : state)
    (settled : outcome value) :
  clientPromise s = Some settled -> getClient w provider context s = (settled, s).
Proof. intros H. unfold getClient. now rewrite H. Qed.




Lemma resolution_construction (evs : list event) :
  Forall resolution_event evs -> Forall construction_event evs.
Proof.
  intros H. eapply Forall_impl; [exact H|]. intros e. destruct e; simpl; auto.
Qed.

Lemma initialiseClient_events (w : World)
    (provider : RegistryBrokerClientProvider)
    (context : option RegistryBrokerClientResolutionContext) (s : state) :
  exists evs,
    snd (initialiseClient w provider context s) = add_events evs s
    /\ Forall construction_event evs.
Proof.
  destruct (buildClientOptions_runs w provider) as [options Hb].
  destruct (Hb s) as (e1 & E1 & F1).
  apply env_reads_resolution, resolution_construction in F1.
  unfold initialiseClient. rewrite (bind_ok _ _ _ _ _ E1), bind_emit.
  destruct (createClient provider options) as [clientObj|err]; mstep.
  2: { eexists; split; [reflexivity|]. apply Forall_app; split; [exact F1|].
       now repeat constructor. }
  destruct (resolveLedgerOptions_settles w provider context) as [[resolved|err] Hr];
    destruct (Hr (add_events (e1 ++ [EvCreateClient options]) s)) as (e2 & E2 & F2);
    apply resolution_construction in F2.
  2: { rewrite (bind_throw _ _ _ _ _ E2). mstep.
       eexists; split; [reflexivity|].
       repeat (apply Forall_app; split); try assumption. now repeat constructor. }
  rewrite (bind_ok _ _ _ _ _ E2). mstep.
  pose proof (fun l m => resolution_construction _ (logged_resolution provider l m))
    as FL.
  destruct resolved as [[auth [[|]|]]|]; cbn [authOptions autoAuthenticate]; mstep.
  1,3: destruct (sdk_authenticate w _ clientObj auth) as [[]|err]; mstep.
  6: destruct (falsy_string (apiKey options)); mstep.
  all: eexists; split; [reflexivity|].
  all: repeat (apply Forall_app; split); try assumption; try apply FL;
    now repeat constructor.
Qed.

Lemma getClient_events (w : World) (provider : RegistryBrokerClientProvider)
    (context : option RegistryBrokerClientResolutionContext) (s : state) :
  exists evs,
    trace (snd (getClient w provider context s)) = trace s ++ evs
    /\ handles (snd (getClient w provider context s)) = handles s
    /\ Forall construction_event evs.
Proof.
  unfold getClient. destruct (clientPromise s) as [p|].
  - exists []. simpl. now rewrite app_nil_r.
  - destruct (initialiseClient_events w provider context s) as (evs & E & F).
    destruct (initialiseClient w provider context s) as [r s']. simpl in *.
    subst s'. now exists evs.
Qed.


(** ** The provider on the inputs of the repository's tests *)

Example resolve_from_operator_test :
  fst (resolveLedgerOptions (sample_world [] mock_calls) (mock_provider None)
         (Some {| hederaClient := Some hedera_operator |}) initial_state)
  = spec_deriveFromHedera (sample_world [] mock_calls)
      (Some {| hederaClient := Some hedera_operator |})
  /\ match spec_deriveFromHedera (sample_world [] mock_calls)
             (Some {| hederaClient := Some hedera_operator |}) with
     | Ok (Some o) =>
         Some (accountId (authOptions o), network (authOptions o),
               label (authOptions o))
     | _ => None
     end
     = Some ("0.0.111", Some "hedera:mainnet", Some "Hedera Agent Kit operator")
  /\ trace (snd (resolveLedgerOptions (sample_world [] mock_calls) (mock_provider None)
                   (Some {| hederaClient := Some hedera_operator |}) initial_state))
     = [EvGetOperator].
Proof. repeat split. Qed.

Example sign_operator_test :
  match spec_deriveFromHedera (sample_world [] mock_calls)
          (Some {| hederaClient := Some hedera_operator |}) with
  | Ok (Some o) => option_map (fun cb => runSign cb "hello world") (sign (authOptions o))
  | _ => None
  end
  = Some (Some (Ok {| signature := "3q2+7w==";
                      signatureKind := "raw";
                      signedPublicKey := Some "302a300506032b6570032100" |})).
Proof. reflexivity. Qed.

Example resolve_from_throwing_operator :
  resolveLedgerOptions (sample_world operator_vars mock_calls) (mock_provider None)
    (Some {| hederaClient := Some hedera_throwing |}) initial_state
  = (Throw (JsError "operator unavailable"),
     add_events [EvGetOperator] initial_state).
Proof. reflexivity. Qed.

(** The claim C1 as first worded fails: no options are configured, the
    Hedera client yields no operator credentials (its [getOperator] throws),
    the environment holds a complete pair, and yet resolution does not
    derive the credentials from the environment: it throws. *)
Lemma resolveLedgerOptions_precedence_counterexample :
  configuredLedger (mock_provider None) = None
  /\ getOperator hedera_throwing = Some (Throw (JsError "operator unavailable"))
  /\ spec_deriveFromEnv (sample_world operator_vars mock_calls)
     = Some (envLedgerOptions "0.0.789" "abcd1234" "hedera:testnet")
  /\ resolveLedgerOptions (sample_world operator_vars mock_calls) (mock_provider None)
       (Some {| hederaClient := Some hedera_throwing |}) initial_state
     = (Throw (JsError "operator unavailable"),
        add_events [EvGetOperator] initial_state).
Proof. repeat split. Qed.

(** The claim C6 as first worded fails: the operator's account id cannot be
    formatted (its [toString] throws), which is one of the other cases, and
    yet derivation does not return nothing and resolution does not fall
    through to the environment, which holds a complete pair: both throw. *)
Lemma deriveLedgerOptionsFromHederaClient_counterexample :
  deriveLedgerOptionsFromHederaClient (sample_world operator_vars mock_calls)
    (mock_provider None) (Some {| hederaClient := Some hedera_unformattable |})
    initial_state
  = (Throw (JsError "no account id"), add_events [EvGetOperator] initial_state)
  /\ spec_deriveFromEnv (sample_world operator_vars mock_calls)
     = Some (envLedgerOptions "0.0.789" "abcd1234" "hedera:testnet")
  /\ fst (resolveLedgerOptions (sample_world operator_vars mock_calls)
            (mock_provider None)
            (Some {| hederaClient := Some hedera_unformattable |}) initial_state)
     = Throw (JsError "no account id").
Proof. repeat split. Qed.

Example resolve_from_mainnet_vars_test :
  fst (resolveLedgerOptions (sample_world mainnet_vars mock_calls) (mock_provider None)
         None initial_state)
  = Ok (Some (envLedgerOptions "0.0.456" "302e01" "hedera:mainnet")).
Proof. reflexivity. Qed.

Example resolve_from_operator_vars_test :
  fst (resolveLedgerOptions (sample_world operator_vars mock_calls) (mock_provider None)
         None initial_state)
  = Ok (Some (envLedgerOptions "0.0.789" "abcd1234" "hedera:testnet")).
Proof. reflexivity. Qed.

Example operator_vars_win_over_mainnet_vars :
  spec_deriveFromEnv
    (sample_world (mainnet_vars ++ [("HEDERA_ACCOUNT_ID", " 0.0.5 ");
                                    ("HEDERA_OPERATOR_KEY", "k");
                                    ("HEDERA_NETWORK", "  Previewnet ")]) mock_calls)
  = Some (envLedgerOptions "0.0.5" "k" "hedera:previewnet").
Proof. reflexivity. Qed.

Example blank_private_key_is_no_credential :
  spec_deriveFromEnv
    (sample_world [("HEDERA_OPERATOR_ID", "0.0.5"); ("HEDERA_OPERATOR_KEY", "   ")]
       mock_calls)
  = None.
Proof. reflexivity. Qed.

Example blank_operator_key_falls_to_mainnet_pair :
  spec_deriveFromEnv
    (sample_world (mainnet_vars ++ [("HEDERA_OPERATOR_ID", "0.0.5");
                                    ("HEDERA_OPERATOR_KEY", no_break_space)])
       mock_calls)
  = Some (envLedgerOptions "0.0.456" "302e01" "hedera:mainnet").
Proof. reflexivity. Qed.

Lemma deriveLedgerOptionsFromEnv_follows_spec_witness :
  fst (deriveLedgerOptionsFromEnv
         (sample_world (mainnet_vars ++ [("HEDERA_OPERATOR_ID", "0.0.5");
                                         ("HEDERA_OPERATOR_KEY", no_break_space);
                                         ("HEDERA_NETWORK", " Previewnet ")])
            mock_calls) initial_state)
  = Ok (Some (envLedgerOptions "0.0.456" "302e01" "hedera:previewnet")).
Proof.
  destruct (deriveLedgerOptionsFromEnv_follows_spec
              (sample_world (mainnet_vars ++ [("HEDERA_OPERATOR_ID", "0.0.5");
                                              ("HEDERA_OPERATOR_KEY", no_break_space);
                                              ("HEDERA_NETWORK", " Previewnet ")])
                 mock_calls) initial_state) as (evs & E & _).
  rewrite E. reflexivity.
Defined.

Lemma deriveLedgerOptionsFromHederaClient_witness :
  computes no_credential_read
    (deriveLedgerOptionsFromHederaClient test_world test_provider
       (Some {| hederaClient := Some hedera_operator |}))
    (Some {| authOptions :=
               {| accountId := "0.0.111";
                  network := Some "hedera:mainnet";
                  hederaPrivateKey := None;
                  label := Some "Hedera Agent Kit operator";
                  sign := Some (SignWithOperator
                                  (fun _ => Ok [Byte.xde; Byte.xad; Byte.xbe; Byte.xef])
                                  (Some "302a300506032b6570032100"));
                  otherAuthFields := [] |};
             autoAuthenticate := Some true |})
  /\ runSign (SignWithOperator
                (fun _ => Ok [Byte.xde; Byte.xad; Byte.xbe; Byte.xef])
                (Some "302a300506032b6570032100")) "hello world"
     = Some (Ok {| signature := "3q2+7w==";
                   signatureKind := "raw";
                   signedPublicKey := Some "302a300506032b6570032100" |}).
Proof.
  pose proof (deriveLedgerOptionsFromHederaClient_follows_spec test_world
                test_provider (Some {| hederaClient := Some hedera_operator |}))
    as H.
  cbv [spec_operatorCredentials hedera_operator hederaClient getOperator
         falsy_stringLike op_accountId op_transactionSigner op_publicKey] in H.
  assert (formatAccountId (Some (SLObject (Some (Ok "0.0.111")))) = Ok (Some "0.0.111"))
    as Ha by reflexivity.
  assert (formatAccountId (Some (SLObject (Some (Ok "302a300506032b6570032100"))))
          = Ok (Some "302a300506032b6570032100")) as Hk by reflexivity.
  rewrite Ha, Hk in H.
  assert (spec_clientNetwork test_world
            {| ledgerId := Some {| isMainnet := Some (Ok true);
                                   isPreviewnet := Some (Ok false);
                                   isTestnet := Some (Ok false);
                                   ledgerToString := Some (Ok "mainnet") |};
               getOperator :=
                 Some (Ok (Some
                   {| op_accountId := Some (SLObject (Some (Ok "0.0.111")));
                      op_publicKey :=
                        Some (SLObject (Some (Ok "302a300506032b6570032100")));
                      op_transactionSigner :=
                        Some (fun _ => Ok [Byte.xde; Byte.xad; Byte.xbe; Byte.xef]) |})) |}
          = Ok "hedera:mainnet") as Hn by reflexivity.
  rewrite Hn in H. destruct H as [Hc Hs].
  split; [exact Hc|]. rewrite Hs. reflexivity.
Defined.

Lemma initialiseClient_authentication_witness :
  exists evs,
    snd (initialiseClient (sample_world mainnet_vars mock_calls) (mock_provider None)
           None initial_state)
    = add_events evs initial_state
    /\ authentications evs
       = [(mock_client,
           authOptions (envLedgerOptions "0.0.456" "302e01" "hedera:mainnet"))]
    /\ fst (initialiseClient (sample_world mainnet_vars mock_calls) (mock_provider None)
              None initial_state)
       = Ok mock_client.
Proof.
  exact (initialiseClient_authentication
           (sample_world mainnet_vars mock_calls) (mock_provider None) None
           initial_state
           (snd (buildClientOptions (sample_world mainnet_vars mock_calls)
                   (mock_provider None) initial_state))
           (snd (resolveLedgerOptions (sample_world mainnet_vars mock_calls)
                   (mock_provider None) None
                   (add_events
                      [EvCreateClient {| baseUrl := None; apiKey := None;
                                         ledgerApiKey := None;
                                         otherClientFields := [] |}]
                      (snd (buildClientOptions (sample_world mainnet_vars mock_calls)
                              (mock_provider None) initial_state)))))
           {| baseUrl := None; apiKey := None; ledgerApiKey := None;
              otherClientFields := [] |}
           mock_client
           (Some (envLedgerOptions "0.0.456" "302e01" "hedera:mainnet"))
           eq_refl eq_refl eq_refl).
Defined.


(** ** Tool input and the conversation schemas *)

Lemma parseToolInput_toolInput (operation : string) (payload : value) :
  parseToolInput (toolInput operation payload) = inr (operation, payload).
Proof. destruct payload; reflexivity. Qed.

Lemma parseToolInput_cases (rawInput : value) :
  (exists issues, issues <> [] /\ parseToolInput rawInput = inl issues)
  \/ (exists operation,
         get_prop rawInput "operation" = VStr operation
         /\ parseToolInput rawInput
            = inr (operation, get_prop rawInput "payload")).
Proof.
  unfold parseToolInput, registryBrokerInputSchema.
  destruct rawInput as [| | | | |items|props|];
    try (left; eexists; split; [|reflexivity]; discriminate).
  cbn [parse z_string].
  destruct (get_prop (VObj props) "operation") as [| | | |operation| | |] eqn:Ho;
    try (left; destruct (get_prop (VObj props) "payload");
         eexists; (split; [|reflexivity]); discriminate).
  right. exists operation. split; [reflexivity|].
  destruct (get_prop (VObj props) "payload") eqn:Hp; cbn [is_undefined negb];
    rewrite ?orb_true_r; cbn [finish app get_prop assoc String.eqb Ascii.eqb Bool.eqb];
    try reflexivity.
  destruct (has_key (VObj props) "payload"); reflexivity.
Qed.

Lemma non_empty_length (h : string) : h <> EmptyString -> (1 <=? String.length h)%nat = true.
Proof. destruct h; [congruence | reflexivity]. Qed.



Lemma parse_release_payload (payload : value) (h : string) :
  is_object_like payload = true ->
  get_prop payload "handleId" = VStr h ->
  h <> EmptyString ->
  parse conversationReleaseSchema payload = Valid (VObj [("handleId", VStr h)]).
Proof.
  intros Ho Hh Hne.
  destruct payload as [| | | | |items|props|]; try discriminate.
  unfold conversationReleaseSchema. cbn [parse nonEmptyString].
  rewrite Hh. cbn [parse]. rewrite (non_empty_length _ Hne).
  cbn [is_undefined negb]. now rewrite orb_true_r.
Qed.

Lemma nullish_object_like (v d : value) : is_object_like v = true -> nullish v d = v.
Proof. destruct v; simpl; congruence. Qed.

(** ** The conversation store *)



Lemma store_release_run (id : string) (s : state) :
  store_release id s
  = (Ok match handles s !! id with Some _ => true | None => false end,
     set_handles (delete id (handles s)) s).
Proof.
  unfold store_release. destruct (handles s !! id) eqn:E; [reflexivity|].
  rewrite (delete_id _ _ E). destruct s; reflexivity.
Qed.


Lemma createHandleId_non_empty (w : World) (history : list event) :
  handleIdSource w history <> CryptoUUID EmptyString ->
  match handleIdSource w history with
  | CryptoUUID uuid => uuid
  | TimeAndRandom now36 random36 => now36 +:+ "-" +:+ random36
  end <> EmptyString.
Proof.
  destruct (handleIdSource w history) as [uuid|now36 random36]; [congruence|].
  intros _. destruct now36; discriminate.
Qed.







(** ** Dispatch *)

Lemma assoc_In {A : Type} (k : string) (l : list (string * A)) (a : A) :
  assoc k l = Some a -> In (k, a) l.
Proof.
  induction l as [|[k' a'] r IH]; simpl; [discriminate|].
  destruct (String.eqb k k') eqn:E.
  - apply String.eqb_eq in E as ->. intros [= ->]. now left.
  - intros H. right. now apply IH.
Qed.

Lemma table_dispatches_methods :
  forallb dispatches_method OPERATION_DEFINITIONS = true.
Proof. vm_compute. reflexivity. Qed.

Lemma listed_dispatches_method (operation : string) (definition : OperationDefinition) :
  assoc operation OPERATION_DEFINITIONS = Some definition ->
  CONVERSATION_OPERATIONS_has operation = false
  /\ String.eqb operation "initializeAgent" = false
  /\ match definition with Custom _ _ => False | _ => True end.
Proof.
  intros H. apply assoc_In in H.
  pose proof (proj1 (forallb_forall _ _) table_dispatches_methods _ H) as Hd.
  unfold dispatches_method in Hd. cbn [fst snd] in Hd.
  apply andb_prop in Hd as [Hd Hc]. apply andb_prop in Hd as [Ha Hb].
  apply negb_true_iff in Ha, Hb. repeat split; try assumption.
  destruct definition; [exact I .. | discriminate].
Qed.

Lemma string_input (optional : bool) (payload : value) :
  (if optional && is_undefined payload then VObj [] else nullish payload (VObj []))
  = nullish payload (VObj []).
Proof. destruct optional, payload; reflexivity. Qed.

Lemma try_catch_bind_ok {A B : Type} (m : M A) (k : A -> M B) (h : error -> M B)
    (s s' : state) (a : A) :
  m s = (Ok a, s') -> try_catch (bind m k) h s = try_catch (k a) h s'.
Proof. intros H. unfold try_catch, bind. now rewrite H. Qed.

Lemma callFunction_run (w : World) (f : nat) (this : value) (args : list value)
    (s : state) :
  callFunction w (VFun f) this args s
  = (host_call w (trace s) f this args, add_events [EvCall f this args] s).
Proof. unfold callFunction. mstep. reflexivity. Qed.

Lemma bind_callFunction {B : Type} (w : World) (f : nat) (this : value)
    (args : list value) (k : value -> M B) (s : state) :
  bind (callFunction w (VFun f) this args) k s
  = bind (settle (host_call w (trace s) f this args)) k
      (add_events [EvCall f this args] s).
Proof. unfold bind. rewrite callFunction_run. reflexivity. Qed.

Lemma executeBody_listed (w : World) (provider : RegistryBrokerClientProvider)
    (operation : string) (definition : OperationDefinition) (payload : value)
    (hc : option HederaOperatorClient) (s s1 : state) (clientObj : value) (f : nat) :
  assoc operation OPERATION_DEFINITIONS = Some definition ->
  getClient w provider (Some {| hederaClient := hc |}) s = (Ok clientObj, s1) ->
  resolveTarget clientObj (pathOf definition) = VFun f ->
  executeBody w provider operation payload hc s
  = match parse (declaredSchema definition) (nullish payload (VObj [])) with
    | Invalid issues => (Throw (ZodError issues), s1)
    | Valid parsedPayload =>
        (do result <-
           settle (host_call w (trace s1) f clientObj
                     (methodArgs definition parsedPayload));
         wrapResult w operation result)
          (add_events [EvCall f clientObj (methodArgs definition parsedPayload)] s1)
    end.
Proof.
  intros Ht Hg Hf.
  destruct (listed_dispatches_method _ _ Ht) as (Hc & Hi & Hm).
  unfold executeBody, lookupDefinition. rewrite Hc, Hi, Ht.
  destruct definition as [path|path field optional|path sch|path sch mapArgs|sch handler];
    try contradiction.
  all: rewrite (bind_ok _ _ _ _ _ Hg); unfold dispatchMethod; rewrite Hf;
    cbn [typeof declaredSchema methodArgs].
  1: now rewrite bind_callFunction.
  1: rewrite string_input.
  all: unfold zparse;
    match goal with |- context [parse ?sc ?v] => destruct (parse sc v) end;
    [rewrite bind_ret; now rewrite bind_callFunction | reflexivity].
Qed.

Lemma hostCalls_construction (evs : list event) :
  Forall construction_event evs -> hostCalls evs = [].
Proof.
  induction 1 as [|e l He _ IH]; [reflexivity|].
  destruct e; simpl in *; try contradiction; exact IH.
Qed.

Lemma execute_invalid_payload_state (w : World)
    (provider : RegistryBrokerClientProvider)
    (operation : string) (definition : OperationDefinition) (payload : value)
    (hc : option HederaOperatorClient) (s : state) (issues : list issue) :
  assoc operation OPERATION_DEFINITIONS = Some definition ->
  parse (declaredSchema definition) (nullish payload (VObj [])) = Invalid issues ->
  snd (execute w provider (toolInput operation payload) hc s)
  = snd (getClient w provider (Some {| hederaClient := hc |}) s).
Proof.
  intros Ht Hv.
  destruct (listed_dispatches_method _ _ Ht) as (Hc & Hi & Hm).
  unfold execute. rewrite parseToolInput_toolInput.
  unfold try_catch, executeBody, lookupDefinition. rewrite Hc, Hi, Ht.
  destruct definition as [path|path field optional|path sch|path sch mapArgs|sch handler];
    try contradiction; try discriminate.
  all: unfold bind at 1;
    destruct (getClient w provider (Some {| hederaClient := hc |}) s)
      as [[clientObj|err] s1];
    cbn [snd];
    [|destruct err; reflexivity].
  all: unfold dispatchMethod;
    destruct (typeof (resolveTarget clientObj _)); try reflexivity.
  all: cbn [declaredSchema] in Hv; rewrite ?string_input; unfold zparse;
    rewrite Hv; reflexivity.
Qed.

Lemma execute_invalid_payload_calls_nothing (w : World)
    (provider : RegistryBrokerClientProvider)
    (operation : string) (definition : OperationDefinition) (payload : value)
    (hc : option HederaOperatorClient) (s : state) (issues : list issue) :
  assoc operation OPERATION_DEFINITIONS = Some definition ->
  parse (declaredSchema definition) (nullish payload (VObj [])) = Invalid issues ->
  exists evs,
    trace (snd (execute w provider (toolInput operation payload) hc s))
    = trace s ++ evs
    /\ hostCalls evs = []
    /\ Forall construction_event evs.
Proof.
  intros Ht Hv.
  rewrite (execute_invalid_payload_state w provider operation definition payload hc s
             issues Ht Hv).
  destruct (getClient_events w provider (Some {| hederaClient := hc |}) s)
    as (evs & Et & _ & F).
  exists evs. split; [exact Et|]. split; [now apply hostCalls_construction | exact F].
Qed.

(** C2, as amended. Validation before dispatch. For an operation of the
    table, once the provider has handed over a client on which the path of
    the operation leads to a function, [execute] parses the payload (an
    absent one counts as [{}]) with the definition's schema before it calls
    the method: on failure it throws the validation error from the state
    [getClient] left; on success it calls the method on the client (the one
    new event) with the arguments of the definition kind, and wraps what the
    method settles to. And whatever the client: with a payload that fails
    the schema, [execute] leaves the state exactly as [getClient] alone
    leaves it, so the tool calls no method at all; the events are those of
    building the client, among them the provider's own authentication when
    this call is the one that builds it. *)
Theorem execute_validates_before_dispatch (w : World)
    (provider : RegistryBrokerClientProvider)
    (operation : string) (definition : OperationDefinition) (payload : value)
    (hc : option HederaOperatorClient) (s : state) :
  assoc operation OPERATION_DEFINITIONS = Some definition ->
  (forall clientObj s1 f,
     getClient w provider (Some {| hederaClient := hc |}) s = (Ok clientObj, s1) ->
     resolveTarget clientObj (pathOf definition) = VFun f ->
     execute w provider (toolInput operation payload) hc s
     = match parse (declaredSchema definition) (nullish payload (VObj [])) with
       | Invalid issues => (Throw (ZodError issues), s1)
       | Valid parsedPayload =>
           try_catch
             (do result <-
                settle (host_call w (trace s1) f clientObj
                          (methodArgs definition parsedPayload));
              wrapResult w operation result)
             (recover operation)
             (add_events [EvCall f clientObj (methodArgs definition parsedPayload)] s1)
       end)
  /\ (forall issues,
        parse (declaredSchema definition) (nullish payload (VObj [])) = Invalid issues ->
        snd (execute w provider (toolInput operation payload) hc s)
        = snd (getClient w provider (Some {| hederaClient := hc |}) s)
        /\ exists evs,
             trace (snd (execute w provider (toolInput operation payload) hc s))
             = trace s ++ evs
             /\ hostCalls evs = []
             /\ Forall construction_event evs).
Proof.
  intros Ht. split.
  - intros clientObj s1 f Hg Hf.
    pose proof (executeBody_listed w provider operation definition payload hc s s1
                  clientObj f Ht Hg Hf) as Hb.
    unfold execute. rewrite parseToolInput_toolInput.
    unfold try_catch at 1. rewrite Hb.
    destruct (parse (declaredSchema definition) (nullish payload (VObj [])));
      reflexivity.
  - intros issues Hv. split.
    + now apply (execute_invalid_payload_state w provider operation definition
                   payload hc s issues).
    + now apply (execute_invalid_payload_calls_nothing w provider operation definition
                   payload hc s issues).
Qed.

(** The claim C2 as first worded fails: for a table operation whose method
    the client lacks, a payload that fails the schema makes [execute] throw
    the unavailable-method error, not a validation error; the payload is not
    looked at. *)
Lemma execute_validates_before_dispatch_counterexample :
  assoc "getRegistrationProgress" OPERATION_DEFINITIONS
  = Some (StringArg "getRegistrationProgress" "attemptId" false)
  /\ parse (declaredSchema (StringArg "getRegistrationProgress" "attemptId" false))
       (nullish (VObj []) (VObj []))
     = Invalid [Issue "invalid_type" (Some "attemptId is required")]
  /\ fst (execute test_world test_provider
            (toolInput "getRegistrationProgress" (VObj [])) (Some hedera_stub)
            initial_state)
     = Throw (JsError ("Method " +:+ dquote +:+ "getRegistrationProgress" +:+ dquote
                         +:+ " is unavailable on the client")).
Proof. repeat split; vm_compute; reflexivity. Qed.

(** C9. Parse errors are results. When the [try] block of [execute] ends
    with a [RegistryBrokerParseError], [execute] resolves with
    [{success: true, operation, result: {parsed: false, error, raw}}], [raw]
    being [null] for a missing raw value; any other error is rethrown as it
    is and a result is returned as it is. In particular a client method that
    rejects with a parse error yields that report. *)
Theorem execute_reports_parse_errors (w : World)
    (provider : RegistryBrokerClientProvider) (rawInput : value)
    (operation : string) (payload : value) (hc : option HederaOperatorClient)
    (s : state) :
  parseToolInput rawInput = inr (operation, payload) ->
  (forall message rawValue s',
     executeBody w provider operation payload hc s
     = (Throw (RegistryBrokerParseError message rawValue), s') ->
     execute w provider rawInput hc s
     = (Ok (VObj [("success", VBool true);
                  ("operation", VStr operation);
                  ("result", VObj [("parsed", VBool false);
                                   ("error", VStr message);
                                   ("raw", nullish rawValue VNull)])]), s'))
  /\ (forall e s',
        executeBody w provider operation payload hc s = (Throw e, s') ->
        is_parse_error e = false ->
        execute w provider rawInput hc s = (Throw e, s'))
  /\ (forall result s',
        executeBody w provider operation payload hc s = (Ok result, s') ->
        execute w provider rawInput hc s = (Ok result, s'))
  /\ (forall definition clientObj s1 f parsedPayload message rawValue,
        assoc operation OPERATION_DEFINITIONS = Some definition ->
        getClient w provider (Some {| hederaClient := hc |}) s = (Ok clientObj, s1) ->
        resolveTarget clientObj (pathOf definition) = VFun f ->
        parse (declaredSchema definition) (nullish payload (VObj []))
        = Valid parsedPayload ->
        host_call w (trace s1) f clientObj (methodArgs definition parsedPayload)
        = Throw (RegistryBrokerParseError message rawValue) ->
        execute w provider rawInput hc s
        = (Ok (VObj [("success", VBool true);
                     ("operation", VStr operation);
                     ("result", VObj [("parsed", VBool false);
                                      ("error", VStr message);
                                      ("raw", nullish rawValue VNull)])]),
           add_events [EvCall f clientObj (methodArgs definition parsedPayload)] s1)).
Proof.
  intros Hp. unfold execute. rewrite Hp. unfold try_catch.
  split; [|split; [|split]].
  - intros message rawValue s' H. now rewrite H.
  - intros e s' H He. rewrite H. destruct e; try reflexivity. discriminate.
  - intros result s' H. now rewrite H.
  - intros definition clientObj s1 f parsedPayload message rawValue Ht Hg Hf Hv Hc.
    rewrite (executeBody_listed w provider operation definition payload hc s s1
               clientObj f Ht Hg Hf), Hv, Hc.
    reflexivity.
Qed.

Lemma execute_unsupported_operation (w : World)
    (provider : RegistryBrokerClientProvider) (operation : string) (payload : value)
    (hc : option HederaOperatorClient) (s : state) :
  CONVERSATION_OPERATIONS_has operation = false ->
  String.eqb operation "initializeAgent" = false ->
  lookupDefinition operation = NoProperty ->
  execute w provider (toolInput operation payload) hc s
  = (Throw (JsError ("Unsupported registry broker operation: " +:+ operation)), s).
Proof.
  intros Hc Hi Hl. unfold execute. rewrite parseToolInput_toolInput.
  unfold try_catch, executeBody. now rewrite Hc, Hi, Hl.
Qed.

Lemma execute_inherited_member (w : World)
    (provider : RegistryBrokerClientProvider) (operation : string) (payload : value)
    (hc : option HederaOperatorClient) (s s1 : state) (clientObj : value) :
  In operation Object_prototype_members ->
  getClient w provider (Some {| hederaClient := hc |}) s = (Ok clientObj, s1) ->
  execute w provider (toolInput operation payload) hc s
  = (Throw (TypeError "Cannot read properties of undefined (reading 'split')"), s1).
Proof.
  intros Hin Hg. unfold execute. rewrite parseToolInput_toolInput.
  unfold try_catch, executeBody.
  repeat (destruct Hin as [<-|Hin];
          [cbn [CONVERSATION_OPERATIONS_has existsb conversationOperations orb
                  String.eqb Ascii.eqb Bool.eqb];
           unfold lookupDefinition;
           cbn [assoc OPERATION_DEFINITIONS noArgs stringArg objectArg tupleArg
                  existsb Object_prototype_members orb String.eqb Ascii.eqb Bool.eqb];
           now rewrite (bind_ok _ _ _ _ _ Hg)|]).
  destruct Hin.
Qed.

(** C4, at an operation name that is no key of the table but a member of
    [Object.prototype]: the lookup finds the inherited member, [execute]
    obtains the client (the factory runs) and fails in [resolveTarget] with a
    [TypeError], not with the unsupported-operation error. *)
Theorem execute_inherited_operation_name :
  assoc "constructor" OPERATION_DEFINITIONS = None
  /\ CONVERSATION_OPERATIONS_has "constructor" = false
  /\ String.eqb "constructor" "initializeAgent" = false
  /\ fst (execute (sample_world [] mock_calls) (mock_provider None)
            (toolInput "constructor" VUndefined) (Some hedera_stub) initial_state)
     = Throw (TypeError "Cannot read properties of undefined (reading 'split')")
  /\ fst (execute (sample_world [] mock_calls) (mock_provider None)
            (toolInput "constructor" VUndefined) (Some hedera_stub) initial_state)
     <> Throw (JsError "Unsupported registry broker operation: constructor")
  /\ factoryCalls
       (trace (snd (execute (sample_world [] mock_calls) (mock_provider None)
                      (toolInput "constructor" VUndefined) (Some hedera_stub)
                      initial_state)))
     = [{| baseUrl := None; apiKey := None; ledgerApiKey := None;
           otherClientFields := [] |}].
Proof.
  assert (fst (execute (sample_world [] mock_calls) (mock_provider None)
                 (toolInput "constructor" VUndefined) (Some hedera_stub) initial_state)
          = Throw (TypeError "Cannot read properties of undefined (reading 'split')"))
    as H by (vm_compute; reflexivity).
  repeat split; try (vm_compute; reflexivity); try exact H.
  rewrite H. discriminate.
Qed.

Example unsupported_operation_sample :
  execute (sample_world [] mock_calls) (mock_provider None)
    (toolInput "noSuchOperation" VUndefined) (Some hedera_stub) initial_state
  = (Throw (JsError "Unsupported registry broker operation: noSuchOperation"),
     initial_state).
Proof. reflexivity. Qed.

(** ** The tool on the inputs of the repository's tests *)

Example routes_search_and_resolve :
  fst (executeAll test_world test_provider (Some hedera_stub)
         [toolInput "search" (VObj [("q", VStr "cust support")]);
          toolInput "resolveUaid" (VObj [("uaid", VStr "uaid:test")])]
         initial_state)
  = [Ok (VObj [("success", VBool true); ("operation", VStr "search");
               ("result", VObj [("hits", VArr [])])]);
     Ok (VObj [("success", VBool true); ("operation", VStr "resolveUaid");
               ("result", VObj [])])]
  /\ hostCalls
       (trace (snd (executeAll test_world test_provider (Some hedera_stub)
                      [toolInput "search" (VObj [("q", VStr "cust support")]);
                       toolInput "resolveUaid" (VObj [("uaid", VStr "uaid:test")])]
                      initial_state)))
     = [(1%nat, mock_client, [VObj [("q", VStr "cust support")]]);
        (2%nat, mock_client, [VStr "uaid:test"])].
Proof. split; reflexivity. Qed.

Example registerAgent_payload_mapping :
  hostCalls
    (trace (snd (execute test_world test_provider
                   (toolInput "registerAgent"
                      (VObj [("payload", VObj [("registry", VStr "hashgraph-online")]);
                             ("options", VObj [("autoTopUp", VObj [])])]))
                   (Some hedera_stub) initial_state)))
  = [(6%nat, mock_client,
      [VObj [("registry", VStr "hashgraph-online")]; VObj [("autoTopUp", VObj [])]])].
Proof. reflexivity. Qed.

Example string_kind_validation :
  fst (executeAll test_world test_provider (Some hedera_stub)
         [toolInput "resolveUaid" (VObj [("uaid", VStr "")]);
          toolInput "resolveUaid" VUndefined;
          toolInput "resolveUaid" (VObj [("uaid", VNum (Finite 1))]);
          toolInput "resolveUaid" (VObj [("uaid", VStr "x"); ("other", VNull)])]
         initial_state)
  = [Throw (ZodError [Issue "too_small" (Some "uaid cannot be empty")]);
     Throw (ZodError [Issue "invalid_type" (Some "uaid is required")]);
     Throw (ZodError [Issue "invalid_type" (Some "uaid must be a string")]);
     Throw (ZodError [Issue "unrecognized_keys" None])]
  /\ hostCalls
       (trace (snd (executeAll test_world test_provider (Some hedera_stub)
                      [toolInput "resolveUaid" (VObj [("uaid", VStr "")]);
                       toolInput "resolveUaid" VUndefined;
                       toolInput "resolveUaid" (VObj [("uaid", VNum (Finite 1))]);
                       toolInput "resolveUaid" (VObj [("uaid", VStr "x"); ("other", VNull)])]
                      initial_state)))
     = [].
Proof. split; reflexivity. Qed.

Example conversation_scenario :
  fst (executeAll test_world test_provider (Some hedera_stub)
         [toolInput "chat.start" (VObj [("uaid", VStr "uaid:demo")]);
          toolInput "conversation.send"
            (VObj [("handleId", VStr "handle-a");
                   ("payload", VObj [("plaintext", VStr "ping")])]);
          toolInput "conversation.release" (VObj [("handleId", VStr "handle-a")]);
          toolInput "conversation.release" (VObj [("handleId", VStr "handle-a")]);
          toolInput "conversation.send"
            (VObj [("handleId", VStr "handle-a");
                   ("payload", VObj [("plaintext", VStr "ping")])])]
         initial_state)
  = [Ok (VObj [("success", VBool true); ("operation", VStr "chat.start");
               ("result", VObj [("handleId", VStr "handle-a");
                                ("sessionId", VStr "session-1");
                                ("mode", VStr "plaintext");
                                ("summary", VNull)])]);
     Ok (VObj [("success", VBool true); ("operation", VStr "conversation.send");
               ("result", VObj [("ok", VBool true)])]);
     Ok (VObj [("success", VBool true); ("operation", VStr "conversation.release");
               ("result", VBool true)]);
     Ok (VObj [("success", VBool true); ("operation", VStr "conversation.release");
               ("result", VBool false)]);
     Throw (JsError "Conversation handle not found: handle-a")].
Proof. reflexivity. Qed.

Lemma execute_validates_before_dispatch_witness :
  execute test_world test_provider
    (toolInput "resolveUaid" (VObj [("uaid", VStr "")])) (Some hedera_stub)
    initial_state
  = (Throw (ZodError [Issue "too_small" (Some "uaid cannot be empty")]),
     state_with_client).
Proof.
  assert (assoc "resolveUaid" OPERATION_DEFINITIONS
          = Some (StringArg "resolveUaid" "uaid" false)) as Ht
    by (vm_compute; reflexivity).
  assert (getClient test_world test_provider
            (Some {| hederaClient := Some hedera_stub |}) initial_state
          = (Ok mock_client, state_with_client)) as Hg
    by (vm_compute; reflexivity).
  assert (resolveTarget mock_client (pathOf (StringArg "resolveUaid" "uaid" false))
          = VFun 2) as Hf
    by (vm_compute; reflexivity).
  exact (proj1 (execute_validates_before_dispatch test_world test_provider
                  "resolveUaid" (StringArg "resolveUaid" "uaid" false)
                  (VObj [("uaid", VStr "")]) (Some hedera_stub)
                  initial_state Ht)
           mock_client state_with_client 2 Hg Hf).
Defined.

Lemma execute_reports_parse_errors_witness :
  execute test_world test_provider (toolInput "vectorSearch" (VObj []))
    (Some hedera_stub) initial_state
  = (Ok (VObj [("success", VBool true);
               ("operation", VStr "vectorSearch");
               ("result", VObj [("parsed", VBool false);
                                ("error", VStr "Failed to parse search response");
                                ("raw", VNull)])]),
     add_events [EvCall 7 mock_client [VObj []]] state_with_client).
Proof.
  assert (assoc "vectorSearch" OPERATION_DEFINITIONS
          = Some (ObjectArg "vectorSearch" vectorSearchSchema)) as Ht
    by (vm_compute; reflexivity).
  assert (getClient test_world test_provider
            (Some {| hederaClient := Some hedera_stub |}) initial_state
          = (Ok mock_client, state_with_client)) as Hg
    by (vm_compute; reflexivity).
  assert (resolveTarget mock_client
            (pathOf (ObjectArg "vectorSearch" vectorSearchSchema))
          = VFun 7) as Hf
    by (vm_compute; reflexivity).
  exact (proj2 (proj2 (proj2
           (execute_reports_parse_errors test_world test_provider
              (toolInput "vectorSearch" (VObj [])) "vectorSearch" (VObj [])
              (Some hedera_stub) initial_state eq_refl)))
           (ObjectArg "vectorSearch" vectorSearchSchema) mock_client
           state_with_client 7 (VObj [])
           "Failed to parse search response" VUndefined
           Ht Hg Hf eq_refl eq_refl).
Defined.



(** * Part III: further properties of the code *)

(** ** Network names *)








(** ** What resolution returns *)



Lemma resolveLedgerOptions_result (w : World) (provider : RegistryBrokerClientProvider)
    (context : option RegistryBrokerClientResolutionContext) (s : state) :
  fst (resolveLedgerOptions w provider context s)
  = match configuredLedger provider with
    | Some configured => Ok (Some (spec_normalizedConfig w configured))
    | None =>
        match spec_deriveFromHedera w context with
        | Ok (Some derived) => Ok (Some derived)
        | Ok None => Ok (spec_deriveFromEnv w)
        | Throw e => Throw e
        end
    end.
Proof.
  destruct (configuredLedger provider) as [configured|] eqn:Hc.
  - unfold resolveLedgerOptions. rewrite Hc. now rewrite normalizeLedgerConfig_spec.
  - destruct (spec_deriveFromHedera w context) as [[derived|]|e] eqn:Hd.
    + destruct (computes_resolve_hedera w provider context derived Hc Hd s)
        as (evs & E & _). now rewrite E.
    + destruct (computes_resolve_env w provider context Hc Hd s) as (evs & E & _).
      now rewrite E.
    + destruct (settles_resolve_throw w provider context e Hc Hd s) as (evs & E & _).
      now rewrite E.
Qed.


Lemma spec_deriveFromHedera_Some (w : World)
    (context : option RegistryBrokerClientResolutionContext)
    (resolved : RegistryBrokerLedgerOptions) :
  spec_deriveFromHedera w context = Ok (Some resolved) ->
  exists hc operator signer net,
    formatAccountId (op_accountId operator) = Ok (Some (accountId (authOptions resolved)))
    /\ spec_clientNetwork w hc = Ok net
    /\ network (authOptions resolved) = Some net
    /\ hederaPrivateKey (authOptions resolved) = None
    /\ op_transactionSigner operator = Some signer.
Proof.
  unfold spec_deriveFromHedera, spec_operatorCredentials, spec_operatorOptions.
  destruct context as [[[hc|]]|]; try discriminate.
  destruct (getOperator hc) as [[[operator|]|e]|]; try discriminate.
  destruct (falsy_stringLike (op_accountId operator)); [discriminate|].
  destruct (op_transactionSigner operator) as [signer|] eqn:Es; [|discriminate].
  destruct (formatAccountId (op_accountId operator)) as [[account|]|e] eqn:Ea;
    try discriminate.
  destruct (formatAccountId (op_publicKey operator)) as [publicKey|e];
    [|discriminate].
  destruct (spec_clientNetwork w hc) as [net|e] eqn:En; [|discriminate].
  intros [= <-]. exists hc, operator, signer, net. cbn [authOptions accountId network
                                                       hederaPrivateKey].
  repeat split; assumption.
Qed.


Lemma first_present_trimmed (w : World) (k1 k2 v : string) :
  first_present (env_value w k1) (env_value w k2) = Some v ->
  trim v = v /\ nonEmpty v = true.
Proof.
  unfold first_present. destruct (env_value w k1) eqn:E1.
  - intros [= <-]. apply env_value_non_empty in E1. tauto.
  - intros E2. apply env_value_non_empty in E2. tauto.
Qed.

Lemma formatAccountId_trimmed (value : option StringLike) (v : string) :
  formatAccountId value = Ok (Some v) -> trim v = v /\ nonEmpty v = true.
Proof.
  assert (forall x, Ok (trimmed_non_empty x) = Ok (Some v) ->
                    trim v = v /\ nonEmpty v = true) as H.
  { intros x [= Hx]. apply trimmed_non_empty_Some in Hx as [-> Hx].
    split; [apply trim_idempotent | exact Hx]. }
  destruct value as [[x|[[x|e]|]]|]; simpl; try discriminate; apply H.
Qed.

(** X4. Credentials that resolution derives itself, from the Hedera client
    or from the environment, are clean: the account id is neither empty nor
    padded with white space (that of [String.prototype.trim], Unicode white
    space included), and neither is a private key it carries. *)
Theorem derived_credentials_trimmed (w : World)
    (provider : RegistryBrokerClientProvider)
    (context : option RegistryBrokerClientResolutionContext) (s : state)
    (resolved : RegistryBrokerLedgerOptions) :
  configuredLedger provider = None ->
  fst (resolveLedgerOptions w provider context s) = Ok (Some resolved) ->
  (trim (accountId (authOptions resolved)) = accountId (authOptions resolved)
   /\ nonEmpty (accountId (authOptions resolved)) = true)
  /\ (forall key, hederaPrivateKey (authOptions resolved) = Some key ->
                  trim key = key /\ nonEmpty key = true).
Proof.
  intros Hc. rewrite resolveLedgerOptions_result, Hc. intros Hr.
  destruct (spec_deriveFromHedera w context) as [[derived|]|e] eqn:Hd;
    [| |discriminate].
  { injection Hr as ->.
    apply spec_deriveFromHedera_Some in Hd
      as (hc & operator & signer & net & Ha & _ & _ & Hk & _).
    split; [now apply formatAccountId_trimmed in Ha|]. rewrite Hk. discriminate. }
  injection Hr as Hr. unfold spec_deriveFromEnv in Hr.
  destruct (first_present (env_value w "HEDERA_OPERATOR_ID") _) as [a|] eqn:Ea;
    [destruct (first_present (env_value w "HEDERA_OPERATOR_KEY") _) as [k|] eqn:Ek|].
  all: try (injection Hr as <-; cbn [envLedgerOptions authOptions accountId hederaPrivateKey];
            split; [now apply first_present_trimmed in Ea|];
            intros key [= <-]; now apply first_present_trimmed in Ek).
  all: destruct (env_value w "MAINNET_HEDERA_ACCOUNT_ID") as [ma|] eqn:Ema;
    [destruct (env_value w "MAINNET_HEDERA_PRIVATE_KEY") as [mk|] eqn:Emk|];
    try discriminate;
    injection Hr as <-; cbn [envLedgerOptions authOptions accountId hederaPrivateKey];
    (split; [apply env_value_non_empty in Ema; tauto|]);
    intros key [= <-]; apply env_value_non_empty in Emk; tauto.
Qed.

(** ** Client options *)

Lemma env_run (w : World) (key : string) (s : state) :
  env w key s = (Ok (env_value w key), add_events [EvEnvRead key] s).
Proof. reflexivity. Qed.

Lemma normalizeSecret_env_value (w : World) (key : string) :
  normalizeSecret (env_value w key) = env_value w key.
Proof.
  unfold normalizeSecret. destruct (env_value w key) as [v|] eqn:E; [|reflexivity].
  apply env_value_non_empty in E as [Hn Ht].
  unfold trimmed_non_empty. now rewrite Hn, Ht, Hn.
Qed.

Lemma secret_run (w : World) (configured : option string) (disabled : option bool)
    (key : string) (s : state) :
  match normalizeSecret configured with
  | Some k => ret (Some k)
  | None =>
      if not_true disabled then do v <- env w key; ret (normalizeSecret v)
      else ret None
  end s
  = (Ok (spec_secret configured disabled (env_value w key)),
     add_events (map EvEnvRead (secret_reads configured disabled key)) s).
Proof.
  unfold spec_secret, secret_reads.
  destruct (normalizeSecret configured); [now rewrite add_events_nil|].
  destruct (not_true disabled); [|now rewrite add_events_nil].
  rewrite (bind_ok _ _ _ _ _ (env_run w key s)). unfold ret.
  now rewrite normalizeSecret_env_value.
Qed.

Lemma buildClientOptions_run (w : World) (provider : RegistryBrokerClientProvider)
    (s : state) :
  buildClientOptions w provider s
  = (Ok (spec_clientOptions w provider),
     add_events (map EvEnvRead (clientOptionReads provider)) s).
Proof.
  unfold buildClientOptions, spec_clientOptions, clientOptionReads.
  set (c := configuredClient provider).
  assert (match baseUrl (clientOverrides c) with
          | Some b => ret (Some b)
          | None => env w "REGISTRY_BROKER_BASE_URL"
          end s
          = (Ok (first_present (baseUrl (clientOverrides c))
                   (env_value w "REGISTRY_BROKER_BASE_URL")),
             add_events (map EvEnvRead
                           match baseUrl (clientOverrides c) with
                           | Some _ => []
                           | None => ["REGISTRY_BROKER_BASE_URL"]
                           end) s)) as H1.
  { destruct (baseUrl (clientOverrides c)); [now rewrite add_events_nil|].
    apply env_run. }
  rewrite (bind_ok _ _ _ _ _ H1).
  rewrite (bind_ok _ _ _ _ _ (secret_run w _ _ _ _)).
  rewrite (bind_ok _ _ _ _ _ (secret_run w _ _ _ _)).
  unfold ret. rewrite !add_events_app, !map_app. reflexivity.
Qed.

Lemma normalizeSecret_clean (value : option string) (k : string) :
  normalizeSecret value = Some k -> trim k = k /\ nonEmpty k = true.
Proof.
  unfold normalizeSecret. destruct value as [v|]; [|discriminate].
  destruct (nonEmpty v); [|discriminate].
  intros H. apply trimmed_non_empty_Some in H as [-> H].
  split; [apply trim_idempotent | exact H].
Qed.

Lemma spec_secret_clean (w : World) (configured : option string)
    (disabled : option bool) (key k : string) :
  spec_secret configured disabled (env_value w key) = Some k ->
  trim k = k /\ nonEmpty k = true.
Proof.
  unfold spec_secret. destruct (normalizeSecret configured) as [c|] eqn:E.
  - intros [= <-]. now apply normalizeSecret_clean in E.
  - destruct (not_true disabled); [|discriminate].
    intros H. apply env_value_non_empty in H. tauto.
Qed.

(** X5. A secret of the client options is never blank: the API key and the
    ledger API key that [buildClientOptions] hands to the factory are absent
    or non-empty without surrounding white space, whatever the configuration
    and the environment hold. *)
Theorem buildClientOptions_secrets_clean (w : World)
    (provider : RegistryBrokerClientProvider) (s : state)
    (options : RegistryBrokerClientOptions) :
  fst (buildClientOptions w provider s) = Ok options ->
  (forall k, apiKey options = Some k -> trim k = k /\ nonEmpty k = true)
  /\ (forall k, ledgerApiKey options = Some k -> trim k = k /\ nonEmpty k = true).
Proof.
  rewrite buildClientOptions_run. intros [= <-]. cbn [spec_clientOptions apiKey ledgerApiKey].
  split; intros k H; now apply spec_secret_clean in H.
Qed.

Lemma secret_not_read (configured : option string) (disabled : option bool)
    (key : string) :
  normalizeSecret configured <> None \/ disabled = Some true ->
  secret_reads configured disabled key = []
  /\ forall fromEnv, spec_secret configured disabled fromEnv = normalizeSecret configured.
Proof.
  unfold secret_reads, spec_secret. intros H.
  destruct (normalizeSecret configured); [now split|].
  destruct H as [H| ->]; [congruence | now split].
Qed.

Lemma secret_reads_key (configured : option string) (disabled : option bool)
    (key k : string) :
  In k (secret_reads configured disabled key) -> k = key.
Proof.
  unfold secret_reads. destruct (normalizeSecret configured); [intros []|].
  destruct (not_true disabled); [|intros []]. intros [->|[]]. reflexivity.
Qed.

(** X6. A configured API key that is not blank is used, trimmed, and
    [REGISTRY_BROKER_API_KEY] is then not read; with [disableEnvApiKey] set
    the variable is not read either and the key is the configured one or
    none. The same holds of the ledger API key with
    [REGISTRY_BROKER_LEDGER_KEY] and [disableEnvLedgerApiKey]. *)
Theorem buildClientOptions_secret_sources (w : World)
    (provider : RegistryBrokerClientProvider) (s : state) :
  exists options evs,
    buildClientOptions w provider s = (Ok options, add_events evs s)
    /\ (normalizeSecret (apiKey (clientOverrides (configuredClient provider))) <> None
        \/ disableEnvApiKey (configuredClient provider) = Some true ->
        apiKey options
        = normalizeSecret (apiKey (clientOverrides (configuredClient provider)))
        /\ ~ In (EvEnvRead "REGISTRY_BROKER_API_KEY") evs)
    /\ (normalizeSecret (ledgerApiKey (clientOverrides (configuredClient provider)))
        <> None
        \/ disableEnvLedgerApiKey (configuredClient provider) = Some true ->
        ledgerApiKey options
        = normalizeSecret (ledgerApiKey (clientOverrides (configuredClient provider)))
        /\ ~ In (EvEnvRead "REGISTRY_BROKER_LEDGER_KEY") evs).
Proof.
  exists (spec_clientOptions w provider), (map EvEnvRead (clientOptionReads provider)).
  split; [apply buildClientOptions_run|].
  unfold clientOptionReads, spec_clientOptions. cbn [apiKey ledgerApiKey].
  set (c := configuredClient provider).
  split; intros H.
  - destruct (secret_not_read _ _ "REGISTRY_BROKER_API_KEY" H) as [Hr' Hv'].
    split; [apply Hv'|]. rewrite Hr'. cbn [app].
    intros Hin. apply in_map_iff in Hin as (k & [= ->] & Hin).
    apply in_app_or in Hin as [Hin|Hin].
    + destruct (baseUrl (clientOverrides c)); [destruct Hin|].
      destruct Hin as [?|[]]. discriminate.
    + apply secret_reads_key in Hin. discriminate.
  - destruct (secret_not_read _ _ "REGISTRY_BROKER_LEDGER_KEY" H) as [Hr' Hv'].
    split; [apply Hv'|]. rewrite Hr', app_nil_r.
    intros Hin. apply in_map_iff in Hin as (k & [= ->] & Hin).
    apply in_app_or in Hin as [Hin|Hin].
    + destruct (baseUrl (clientOverrides c)); [destruct Hin|].
      destruct Hin as [?|[]]. discriminate.
    + apply secret_reads_key in Hin. discriminate.
Qed.

(** ** A factory that throws *)


(** ** What an operation leaves behind *)

Section Post.

Variable w : World.
Variable Q : state -> state -> Prop.
Variable allowed : event -> Prop.
Hypothesis Q_refl : forall s, Q s s.
Hypothesis Q_trans : forall a b c, Q a b -> Q b c -> Q a c.
Hypothesis Q_emit : forall e s, allowed e -> Q s (add_events [e] s).
Hypothesis Q_register : forall handle, post Q (store_register w handle).
Hypothesis allowed_call : forall f this args, allowed (EvCall f this args).
Hypothesis allowed_init : forall options, allowed (EvInitializeAgent options).

Lemma post_ret {A : Type} (a : A) : post Q (ret a).
Proof. intros s. apply Q_refl. Qed.

Lemma post_throw {A : Type} (e : error) : post Q (@throw A e).
Proof. intros s. apply Q_refl. Qed.

Lemma post_settle {A : Type} (o : outcome A) : post Q (settle o).
Proof. intros s. apply Q_refl. Qed.

Lemma post_get_trace : post Q get_trace.
Proof. intros s. apply Q_refl. Qed.

Lemma post_emit (e : event) : allowed e -> post Q (emit e).
Proof. intros He s. now apply Q_emit. Qed.

Lemma post_bind {A B : Type} (m : M A) (k : A -> M B) :
  post Q m -> (forall a, post Q (k a)) -> post Q (bind m k).
Proof.
  intros Hm Hk s. unfold bind. specialize (Hm s).
  destruct (m s) as [[a|e] s1]; [|exact Hm].
  eapply Q_trans; [exact Hm | apply Hk].
Qed.

Lemma post_try_catch {A : Type} (m : M A) (h : error -> M A) :
  post Q m -> (forall e, post Q (h e)) -> post Q (try_catch m h).
Proof.
  intros Hm Hh s. unfold try_catch. specialize (Hm s).
  destruct (m s) as [[a|e] s1]; [exact Hm|].
  eapply Q_trans; [exact Hm | apply Hh].
Qed.

Lemma post_zparse (sc : schema) (v : value) : post Q (zparse sc v).
Proof. unfold zparse. destruct (parse sc v); [apply post_ret | apply post_throw]. Qed.

Lemma post_store_get (id : string) : post Q (store_get id).
Proof.
  intros s. unfold store_get.
  destruct (handles s !! id) as [h|]; [destruct (truthy h)|]; apply Q_refl.
Qed.

Lemma post_callFunction (target this : value) (args : list value) :
  post Q (callFunction w target this args).
Proof.
  unfold callFunction. destruct target; try apply post_throw.
  apply post_bind; [apply post_get_trace|]. intros history.
  apply post_bind; [now apply post_emit|]. intros _. apply post_settle.
Qed.

Lemma post_wrapResult (operation : string) (result : value) :
  post Q (wrapResult w operation result).
Proof.
  unfold wrapResult, mapResult. apply post_bind; [|intros; apply post_ret].
  destruct (isConversationHandle result); [|apply post_ret].
  apply post_bind; [apply Q_register | intros; apply post_ret].
Qed.

Lemma post_handleConversationOperation (operation : string) (payload : value) :
  (operation = "conversation.release" ->
   forall parsedPayload s,
     parse conversationReleaseSchema (nullish payload (VObj [])) = Valid parsedPayload ->
     Q s (set_handles (delete (String_of (get_prop parsedPayload "handleId"))
                         (handles s)) s)) ->
  post Q (handleConversationOperation w operation payload).
Proof.
  intros Hd. unfold handleConversationOperation.
  destruct (String.eqb operation "conversation.send").
  { apply post_bind; [apply post_zparse|]. intros parsedPayload.
    apply post_bind; [apply post_store_get|]. intros found.
    apply post_callFunction. }
  destruct (String.eqb operation "conversation.decryptHistoryEntry").
  { apply post_bind; [apply post_zparse|]. intros parsedPayload.
    apply post_bind; [apply post_store_get|]. intros found.
    apply post_callFunction. }
  destruct (String.eqb operation "conversation.release") eqn:E; [|apply post_throw].
  apply String.eqb_eq in E. unfold zparse.
  destruct (parse conversationReleaseSchema (nullish payload (VObj [])))
    as [parsedPayload|issues] eqn:Hp.
  2: { intros s. apply Q_refl. }
  intros s. rewrite bind_ret. unfold bind. rewrite store_release_run.
  cbn [snd ret]. now apply Hd.
Qed.

Lemma post_handleInitializeAgent (payload : value) :
  post Q (handleInitializeAgent w payload).
Proof.
  unfold handleInitializeAgent.
  apply post_bind; [apply post_zparse|]. intros parsedPayload.
  apply post_bind; [apply post_get_trace|]. intros history.
  apply post_bind; [now apply post_emit|]. intros _.
  apply post_bind; [apply post_settle|]. intros result.
  apply post_bind; [apply post_callFunction | intros; apply post_ret].
Qed.

Lemma post_dispatchMethod (operation : string) (payload : value)
    (definition : OperationDefinition) (clientObj : value) :
  post Q (dispatchMethod w operation payload definition clientObj).
Proof.
  unfold dispatchMethod.
  destruct (typeof (resolveTarget clientObj (pathOf definition)));
    try apply post_throw.
  destruct definition; try apply post_ret.
  1: apply post_bind; [apply post_callFunction | intros; apply post_wrapResult].
  all: apply post_bind; [apply post_zparse | intros parsedPayload];
    (apply post_bind; [apply post_callFunction | intros; apply post_wrapResult]).
Qed.

Lemma post_executeBody (provider : RegistryBrokerClientProvider)
    (operation : string) (payload : value) (hc : option HederaOperatorClient) :
  (operation = "conversation.release" ->
   forall parsedPayload s,
     parse conversationReleaseSchema (nullish payload (VObj [])) = Valid parsedPayload ->
     Q s (set_handles (delete (String_of (get_prop parsedPayload "handleId"))
                         (handles s)) s)) ->
  (CONVERSATION_OPERATIONS_has operation = false ->
   String.eqb operation "initializeAgent" = false ->
   forall context, post Q (getClient w provider context)) ->
  post Q (executeBody w provider operation payload hc).
Proof.
  intros Hd Hg. unfold executeBody.
  destruct (CONVERSATION_OPERATIONS_has operation).
  { apply post_bind; [now apply post_handleConversationOperation|].
    intros result. apply post_wrapResult. }
  destruct (String.eqb operation "initializeAgent").
  { apply post_bind; [apply post_handleInitializeAgent|].
    intros result. apply post_wrapResult. }
  specialize (Hg eq_refl eq_refl).
  destruct (lookupDefinition operation) as [definition| |].
  - destruct definition.
    5: { apply post_bind; [apply post_zparse|]. intros parsedPayload.
         apply post_bind; [apply post_callFunction|]. intros result.
         apply post_wrapResult. }
    all: apply post_bind; [apply Hg | intros clientObj; apply post_dispatchMethod].
  - apply post_bind; [apply Hg | intros; apply post_throw].
  - apply post_throw.
Qed.

Lemma post_recover (operation : string) (e : error) : post Q (recover operation e).
Proof. destruct e; try apply post_throw. apply post_ret. Qed.

End Post.

(** Registration keeps a relation that every new id event and every
    insertion keep. *)
Lemma post_store_register_insert (w : World) (Q : state -> state -> Prop)
    (handle : value) :
  (forall a b c, Q a b -> Q b c -> Q a c) ->
  (forall id s, Q s (add_events [EvCreateHandleId id] s)) ->
  (forall id h s, Q s (set_handles (<[id := h]> (handles s)) s)) ->
  post Q (store_register w handle).
Proof.
  intros Ht He Hi s. unfold store_register, createHandleId. mstep.
  unfold bind. cbn [snd ret]. eapply Ht; [apply He | apply Hi].
Qed.

Lemma post_execute (Q : state -> state -> Prop) (w : World)
    (provider : RegistryBrokerClientProvider) (rawInput : value)
    (hc : option HederaOperatorClient) :
  (forall s, Q s s) ->
  (forall operation payload,
     parseToolInput rawInput = inr (operation, payload) ->
     post Q (executeBody w provider operation payload hc)) ->
  (forall a b c, Q a b -> Q b c -> Q a c) ->
  post Q (execute w provider rawInput hc).
Proof.
  intros Hr Hb Ht. unfold execute.
  destruct (parseToolInput rawInput) as [issues|[operation payload]];
    [now apply post_throw|].
  apply post_try_catch; auto. intros e. now apply post_recover.
Qed.

Lemma provider_untouched_refl (s : state) : provider_untouched s s.
Proof. split; [reflexivity|]. exists []. now rewrite app_nil_r. Qed.

Lemma provider_untouched_trans (a b c : state) :
  provider_untouched a b -> provider_untouched b c -> provider_untouched a c.
Proof.
  intros (H1 & e1 & T1 & F1) (H2 & e2 & T2 & F2). split; [congruence|].
  exists (e1 ++ e2). rewrite T2, T1, app_assoc. split; [reflexivity|].
  now apply Forall_app.
Qed.

Lemma provider_untouched_handles (h : gmap string value) (s : state) :
  provider_untouched s (set_handles h s).
Proof. split; [reflexivity|]. exists []. simpl. now rewrite app_nil_r. Qed.

(** X8. The conversation operations and [initializeAgent] never use the
    provider: whatever the payload and the outcome, [execute] leaves the
    provider's cache as it was and adds to the trace only calls of host
    functions, new handle ids and the SDK's [initializeAgent]; no variable
    is read, no client built, nothing authenticated. *)
Theorem local_operations_leave_provider (w : World)
    (provider : RegistryBrokerClientProvider) (rawInput : value)
    (operation : string) (payload : value) (hc : option HederaOperatorClient)
    (s : state) :
  parseToolInput rawInput = inr (operation, payload) ->
  CONVERSATION_OPERATIONS_has operation = true \/ operation = "initializeAgent" ->
  clientPromise (snd (execute w provider rawInput hc s)) = clientPromise s
  /\ exists evs,
       trace (snd (execute w provider rawInput hc s)) = trace s ++ evs
       /\ Forall dispatch_event evs
       /\ factoryCalls evs = [] /\ authentications evs = [].
Proof.
  intros Hp Hop.
  assert (provider_untouched s (snd (execute w provider rawInput hc s))) as (Hc & evs & Ht & Hf).
  { apply post_execute;
      [apply provider_untouched_refl | | apply provider_untouched_trans].
    intros operation' payload' Hp'. rewrite Hp in Hp'. injection Hp' as <- <-.
    apply post_executeBody with (allowed := dispatch_event);
      try apply provider_untouched_refl; try apply provider_untouched_trans;
      try (intros; exact I).
    - intros e s0 He. split; [reflexivity|]. exists [e]. split; [reflexivity|].
      now repeat constructor.
    - intros handle. apply post_store_register_insert;
        [apply provider_untouched_trans | | intros; apply provider_untouched_handles].
      intros id s0. split; [reflexivity|]. exists [EvCreateHandleId id].
      split; [reflexivity|]. now repeat constructor.
    - intros _ parsedPayload s0 _. apply provider_untouched_handles.
    - intros Hn Hi. destruct Hop as [Hop| ->]; [congruence | discriminate]. }
  split; [exact Hc|]. exists evs. repeat split; try assumption.
  - clear Ht. induction Hf as [|e l He _ IH]; [reflexivity|].
    destruct e; simpl in *; try contradiction; exact IH.
  - clear Ht. induction Hf as [|e l He _ IH]; [reflexivity|].
    destruct e; simpl in *; try contradiction; exact IH.
Qed.

Lemma cache_kept_getClient (w : World) (provider : RegistryBrokerClientProvider)
    (context : option RegistryBrokerClientResolutionContext) :
  post cache_kept (getClient w provider context).
Proof.
  intros s p Hp. now rewrite (getClient_cached w provider context s p Hp).
Qed.

(** X9. The tool never replaces a cached client: once the provider holds a
    settled promise, every call of [execute], whatever its input and outcome,
    leaves that promise in the cache, so all later dispatches get the same
    client (or the same rejection). *)
Theorem execute_keeps_cached_client (w : World)
    (provider : RegistryBrokerClientProvider) (rawInput : value)
    (hc : option HederaOperatorClient) (s : state) (p : outcome value) :
  clientPromise s = Some p ->
  clientPromise (snd (execute w provider rawInput hc s)) = Some p
  /\ forall context,
       fst (getClient w provider context (snd (execute w provider rawInput hc s))) = p.
Proof.
  intros Hp.
  assert (cache_kept s (snd (execute w provider rawInput hc s))) as Hk.
  { apply post_execute; [now intros s0 p0 | | intros a b c H1 H2 p0 H; auto].
    intros operation payload _.
    apply post_executeBody with (allowed := fun _ => True);
      try (intros; exact I); try (now intros s0 p0);
      try (intros a b c H1 H2 p0 H; now auto).
    intros _ _ context. apply cache_kept_getClient. }
  specialize (Hk p Hp). split; [exact Hk|].
  intros context. now rewrite (getClient_cached w provider context _ p Hk).
Qed.

Lemma handles_kept_getClient (w : World) (provider : RegistryBrokerClientProvider)
    (context : option RegistryBrokerClientResolutionContext) :
  post handles_kept (getClient w provider context).
Proof.
  intros s id H.
  destruct (getClient_events w provider context s) as (evs & _ & Hh & _).
  now rewrite Hh.
Qed.

(** X10. Only [conversation.release] drops a handle: after any other call of
    [execute], whatever its outcome, every id that was registered is still
    registered. *)
Theorem execute_keeps_handles (w : World)
    (provider : RegistryBrokerClientProvider) (rawInput : value)
    (hc : option HederaOperatorClient) (s : state) (id : string) :
  (forall payload, parseToolInput rawInput <> inr ("conversation.release", payload)) ->
  is_Some (handles s !! id) ->
  is_Some (handles (snd (execute w provider rawInput hc s)) !! id).
Proof.
  intros Hr. revert id.
  change (handles_kept s (snd (execute w provider rawInput hc s))).
  apply post_execute; [now intros s0 id0 | | intros a b c H1 H2 id0 H; auto].
  intros operation payload Hp.
  apply post_executeBody with (allowed := fun _ => True);
    try (intros; exact I); try (now intros s0 id0);
    try (intros a b c H1 H2 id0 H; now auto).
  - intros handle. apply post_store_register_insert;
      [intros a b c H1 H2 id0 H; now auto | now intros id0 s0 id1 | ].
    intros id0 h s0 id1 H. cbn [handles set_handles].
    destruct (decide (id0 = id1)) as [->|Hne].
    + rewrite lookup_insert_eq. now eexists.
    + now rewrite lookup_insert_ne.
  - intros -> . exfalso. now apply (Hr payload).
  - intros _ _ context. apply handles_kept_getClient.
Qed.

(** ** Conversation handles across calls *)














(** ** Input, dispatch and results *)

Lemma parseToolInput_string (rawInput : value) (operation : string) :
  get_prop rawInput "operation" = VStr operation ->
  parseToolInput rawInput = inr (operation, get_prop rawInput "payload").
Proof.
  intros Ho. unfold parseToolInput, registryBrokerInputSchema.
  destruct rawInput as [| | | | |items|props|]; try discriminate.
  cbn [parse z_string]. rewrite Ho. cbn [parse].
  destruct (get_prop (VObj props) "payload") eqn:Hp; cbn [is_undefined negb];
    rewrite ?orb_true_r; cbn [finish app get_prop assoc String.eqb Ascii.eqb Bool.eqb];
    try reflexivity.
  destruct (has_key (VObj props) "payload"); reflexivity.
Qed.

(** X11. Input that is no object with a string [operation] is rejected
    before anything else: [execute] throws the validation error and the
    state is untouched (no client, no call, no trace). With a string
    [operation] the input is accepted whatever the payload is. *)
Theorem execute_rejects_malformed_input (w : World)
    (provider : RegistryBrokerClientProvider) (rawInput : value) :
  match get_prop rawInput "operation" with
  | VStr operation =>
      parseToolInput rawInput = inr (operation, get_prop rawInput "payload")
  | _ =>
      exists issues,
        issues <> []
        /\ forall hc s,
             execute w provider rawInput hc s = (Throw (ZodError issues), s)
  end.
Proof.
  destruct (parseToolInput_cases rawInput) as [(issues & Hne & Hp)|(operation & Ho & Hp)].
  - destruct (get_prop rawInput "operation") as [| | | |operation| | |] eqn:Ho;
      try (exists issues; split; [exact Hne|]; intros hc s; unfold execute;
           now rewrite Hp).
    rewrite (parseToolInput_string _ _ Ho) in Hp. discriminate.
  - rewrite Ho. exact Hp.
Qed.

(** X12. A method missing from the client is reported before the payload is
    looked at: for an operation of the table whose path does not lead to a
    function on the client, [execute] throws [Method "<path>" is unavailable
    on the client] from the state [getClient] left, whatever the payload. *)
Theorem execute_method_unavailable (w : World)
    (provider : RegistryBrokerClientProvider)
    (operation : string) (definition : OperationDefinition) (payload : value)
    (hc : option HederaOperatorClient) (s s1 : state) (clientObj : value) :
  assoc operation OPERATION_DEFINITIONS = Some definition ->
  getClient w provider (Some {| hederaClient := hc |}) s = (Ok clientObj, s1) ->
  typeof (resolveTarget clientObj (pathOf definition)) <> TFunction ->
  execute w provider (toolInput operation payload) hc s
  = (Throw (JsError ("Method " +:+ dquote +:+ pathOf definition +:+ dquote
                       +:+ " is unavailable on the client")), s1).
Proof.
  intros Ht Hg Hf.
  destruct (listed_dispatches_method _ _ Ht) as (Hc & Hi & Hm).
  unfold execute. rewrite parseToolInput_toolInput.
  unfold try_catch, executeBody, lookupDefinition. rewrite Hc, Hi, Ht.
  destruct definition; try contradiction.
  all: rewrite (bind_ok _ _ _ _ _ Hg); unfold dispatchMethod;
    destruct (typeof (resolveTarget clientObj _)); try reflexivity; congruence.
Qed.

(** X13. A result that is no conversation handle is handed back as it is:
    when the method of a table operation resolves with such a value,
    [execute] resolves with [{success: true, operation, result: <value>}],
    the one new event is the call, and the store is untouched. *)
Theorem execute_returns_plain_result (w : World)
    (provider : RegistryBrokerClientProvider)
    (operation : string) (definition : OperationDefinition) (payload : value)
    (hc : option HederaOperatorClient) (s s1 : state) (clientObj : value) (f : nat)
    (parsedPayload result : value) :
  assoc operation OPERATION_DEFINITIONS = Some definition ->
  getClient w provider (Some {| hederaClient := hc |}) s = (Ok clientObj, s1) ->
  resolveTarget clientObj (pathOf definition) = VFun f ->
  parse (declaredSchema definition) (nullish payload (VObj [])) = Valid parsedPayload ->
  host_call w (trace s1) f clientObj (methodArgs definition parsedPayload) = Ok result ->
  isConversationHandle result = false ->
  execute w provider (toolInput operation payload) hc s
  = (Ok (VObj [("success", VBool true);
               ("operation", VStr operation);
               ("result", result)]),
     add_events [EvCall f clientObj (methodArgs definition parsedPayload)] s1).
Proof.
  intros Ht Hg Hf Hv Hc Hh.
  unfold execute. rewrite parseToolInput_toolInput. unfold try_catch.
  rewrite (executeBody_listed w provider operation definition payload hc s s1
             clientObj f Ht Hg Hf), Hv, Hc.
  mstep. unfold wrapResult, mapResult. rewrite Hh. reflexivity.
Qed.

(** ** Required string fields *)

Lemma extra_keys_nil (shape : list (string * schema)) (props : list (string * value)) :
  filter (fun kv => negb (existsb (fun ks => String.eqb (fst kv) (fst ks)) shape)) props
  = []
  <-> forall k v, In (k, v) props ->
                  existsb (fun ks => String.eqb k (fst ks)) shape = true.
Proof.
  induction props as [|[k0 v0] r IH].
  - split; [intros _ k v [] | reflexivity].
  - rewrite filter_cons. cbn [fst].
    destruct (existsb (fun ks => String.eqb k0 (fst ks)) shape) eqn:E; cbn [negb].
    + destruct (decide (Is_true false)) as [[]|_]. rewrite IH. split.
      * intros H k v [[= <- <-]|Hin]; [exact E | eauto].
      * intros H k v Hin. apply (H k v). now right.
    + destruct (decide (Is_true true)) as [_|Hn]; [|now destruct Hn].
      split; [discriminate|]. intros H. specialize (H k0 v0 (or_introl eq_refl)).
      congruence.
Qed.

Lemma parse_required_field (field : string) (v : value) (text : string) :
  only_field v field text ->
  parse (ZObject [(field, nonEmptyString field)] Strict) v
  = Valid (VObj [(field, VStr text)]).
Proof.
  intros (props & -> & Hg & Hne & Hk).
  cbn [parse nonEmptyString]. rewrite Hg. cbn [parse].
  rewrite (non_empty_length _ Hne). cbn [is_undefined negb]. rewrite orb_true_r.
  assert (filter (fun kv => negb (existsb (fun ks => String.eqb (fst kv) (fst ks))
                                    [(field, nonEmptyString field)])) props = [])
    as ->.
  { apply extra_keys_nil. intros k v Hin. rewrite (Hk k v Hin).
    cbn [existsb fst]. now rewrite String.eqb_refl. }
  reflexivity.
Qed.

Lemma parse_required_field_inv (field : string) (v x : value) :
  parse (ZObject [(field, nonEmptyString field)] Strict) v = Valid x ->
  exists text, only_field v field text /\ x = VObj [(field, VStr text)].
Proof.
  destruct v as [| | | | |items|props|]; try discriminate.
  cbn [parse nonEmptyString].
  destruct (get_prop (VObj props) field) as [| | | |text| | |] eqn:Hg;
    try (cbn [parse app finish]; discriminate).
  cbn [parse]. destruct (1 <=? String.length text)%nat eqn:Hl;
    [|cbn [app finish]; discriminate].
  cbn [is_undefined negb]. rewrite orb_true_r.
  destruct (filter _ props) as [|e l] eqn:Hf; [|cbn [app finish]; discriminate].
  cbn [app finish]. intros [= <-]. exists text. split; [|reflexivity].
  exists props. repeat split; try assumption.
  - intros ->. discriminate.
  - intros k v Hin.
    pose proof (proj1 (extra_keys_nil _ _) Hf k v Hin) as Hk.
    cbn [existsb fst] in Hk. rewrite orb_false_r in Hk. now apply String.eqb_eq.
Qed.

(** X14. An operation with a required string field calls its method exactly
    when the payload is an object whose only key is that field, holding a
    non-empty string; the method then gets that string as its one argument.
    Any other payload (absent, another key beside it, an empty string, a
    value that is no string) is refused with a validation error before the
    call, the state untouched. *)
Theorem required_string_operation (w : World) (operation path field : string)
    (payload clientObj : value) (f : nat) (s : state) :
  resolveTarget clientObj path = VFun f ->
  (forall text,
     only_field (nullish payload (VObj [])) field text ->
     dispatchMethod w operation payload (StringArg path field false) clientObj s
     = (do result <- settle (host_call w (trace s) f clientObj [VStr text]);
        wrapResult w operation result)
         (add_events [EvCall f clientObj [VStr text]] s))
  /\ ((forall text, ~ only_field (nullish payload (VObj [])) field text) ->
      exists issues,
        dispatchMethod w operation payload (StringArg path field false) clientObj s
        = (Throw (ZodError issues), s)).
Proof.
  intros Hf. unfold dispatchMethod. cbn [pathOf]. rewrite Hf. cbn [typeof andb].
  unfold zparse. split.
  - intros text Ho. rewrite (parse_required_field _ _ _ Ho), bind_ret.
    cbn [get_prop assoc]. rewrite String.eqb_refl. now rewrite bind_callFunction.
  - intros Hn.
    destruct (parse (ZObject [(field, nonEmptyString field)] Strict)
                (nullish payload (VObj []))) as [x|issues] eqn:Hp.
    + apply parse_required_field_inv in Hp as (text & Ho & _).
      now destruct (Hn text).
    + now exists issues.
Qed.

(** ** Release, lookup of a method, warnings, agent initialisation *)

Lemma conversation_release_run (w : World) (payload : value) (id : string) (s : state) :
  id <> EmptyString ->
  is_object_like payload = true ->
  get_prop payload "handleId" = VStr id ->
  handleConversationOperation w "conversation.release" payload s
  = (Ok (VBool match handles s !! id with Some _ => true | None => false end),
     set_handles (delete id (handles s)) s).
Proof.
  intros Hne Ho Hid.
  unfold handleConversationOperation. cbn [String.eqb Ascii.eqb Bool.eqb].
  rewrite (nullish_object_like _ _ Ho). unfold zparse.
  rewrite (parse_release_payload _ _ Ho Hid Hne), bind_ret.
  cbn [get_prop assoc String.eqb Ascii.eqb Bool.eqb String_of].
  rewrite (bind_ok _ _ _ _ _ (store_release_run id s)). reflexivity.
Qed.

(** X15. Releasing is idempotent: after [conversation.release] of an id,
    registered or not, a second release of that id returns [false] and
    changes nothing. *)
Theorem conversation_release_twice (w : World) (payload : value) (id : string)
    (s : state) :
  id <> EmptyString ->
  is_object_like payload = true ->
  get_prop payload "handleId" = VStr id ->
  let s1 := snd (handleConversationOperation w "conversation.release" payload s) in
  handleConversationOperation w "conversation.release" payload s1
  = (Ok (VBool false), s1).
Proof.
  intros Hne Ho Hid. cbv zeta.
  rewrite (conversation_release_run w payload id s Hne Ho Hid). cbn [snd].
  rewrite (conversation_release_run w payload id _ Hne Ho Hid).
  cbn [handles set_handles]. rewrite lookup_delete_eq.
  f_equal. unfold set_handles. cbn [clientPromise handles trace].
  f_equal. apply delete_id, lookup_delete_eq.
Qed.

Lemma split_dots_segment (a : string) : has_dot a = false -> split_dots a = [a].
Proof.
  induction a as [|c a IH]; simpl; [reflexivity|].
  destruct (Ascii.eqb c "."); [discriminate|]. simpl. intros H. now rewrite (IH H).
Qed.

Lemma split_dots_app (a r : string) :
  has_dot a = false -> split_dots (a +:+ "." +:+ r) = a :: split_dots r.
Proof.
  induction a as [|c a IH]; simpl; [reflexivity|].
  destruct (Ascii.eqb c "."); [discriminate|]. simpl. intros H. now rewrite (IH H).
Qed.

Lemma object_like_step (acc : value) (key : string) :
  (if truthy acc && match typeof acc with TObject => true | _ => false end
   then get_prop acc key else VUndefined)
  = if is_object_like acc then get_prop acc key else VUndefined.
Proof.
  destruct acc as [| |[]|[| |]| | | |]; try reflexivity.
  all: cbn [truthy typeof is_object_like andb].
  all: match goal with |- context [if ?b && false then _ else _] => now destruct b end.
Qed.

(** X16. How a path finds its method: a path without a dot is looked up on
    the client itself, and a path [a.b] on the value of [a] when that value
    is an object; when it is anything else (absent, a function, a
    primitive) the result is [undefined], so the method counts as
    unavailable instead of the lookup failing. *)
Theorem resolveTarget_paths (clientObj : value) (a b : string) :
  has_dot a = false ->
  has_dot b = false ->
  resolveTarget clientObj a
  = (if is_object_like clientObj then get_prop clientObj a else VUndefined)
  /\ resolveTarget clientObj (a +:+ "." +:+ b)
     = (if is_object_like clientObj && is_object_like (get_prop clientObj a)
        then get_prop (get_prop clientObj a) b else VUndefined).
Proof.
  intros Ha Hb. unfold resolveTarget.
  rewrite (split_dots_app a b Ha), !(split_dots_segment _ Ha), (split_dots_segment _ Hb).
  cbn [fold_left]. rewrite !object_like_step.
  split; [reflexivity|].
  destruct (is_object_like clientObj); reflexivity.
Qed.

(** X17. How the Hedera derivation gives up. Without a client, or with one
    that has no [getOperator] function, it returns nothing and does nothing.
    With such a function it asks for the operator once; when the call
    returns and no usable credentials are found, it reports one warning to
    the logger's [warn] (none when the logger lacks the method) and returns
    nothing. When [getOperator] or the account id's [toString] throws, the
    derivation throws that error after the one query, without a warning. *)
Theorem deriveLedgerOptionsFromHederaClient_fallthrough (w : World)
    (provider : RegistryBrokerClientProvider)
    (context : option RegistryBrokerClientResolutionContext) (s : state) :
  (spec_operatorCredentials context = Ok None ->
   match operatorQuery context with
   | None => deriveLedgerOptionsFromHederaClient w provider context s = (Ok None, s)
   | Some _ =>
       exists message,
         deriveLedgerOptionsFromHederaClient w provider context s
         = (Ok None, add_events (EvGetOperator :: logged provider LWarn message) s)
   end)
  /\ (forall e,
        spec_operatorCredentials context = Throw e ->
        deriveLedgerOptionsFromHederaClient w provider context s
        = (Throw e, add_events [EvGetOperator] s)).
Proof.
  unfold spec_operatorCredentials, operatorQuery, deriveLedgerOptionsFromHederaClient.
  destruct context as [[[hc|]]|]; cbn [hederaClient];
    try (split; [reflexivity | discriminate]).
  destruct (getOperator hc) as [[[operator|]|e0]|];
    [| | |split; [reflexivity | discriminate]].
  2: { split; [|discriminate]. intros _. eexists. mstep. reflexivity. }
  2: { split; [discriminate|]. intros e [= <-]. mstep. reflexivity. }
  rewrite !bind_emit, !bind_settle_ok.
  destruct (falsy_stringLike (op_accountId operator)) eqn:F.
  { split; [|discriminate]. intros _. eexists. mstep. reflexivity. }
  destruct (op_transactionSigner operator) as [signer|].
  2: { split; [|discriminate]. intros _. eexists. mstep. reflexivity. }
  destruct (formatAccountId (op_accountId operator)) as [[account|]|e0].
  - split; discriminate.
  - split; [|discriminate]. intros _. eexists. mstep. reflexivity.
  - split; [discriminate|]. intros e [= <-]. mstep. reflexivity.
Qed.

(** X18. [initializeAgent] checks its payload first and keeps the client to
    itself. A payload that is no object is refused with the validation error
    and the SDK is not called. Otherwise the SDK is called with the payload
    (an absent one counts as [{}]) and, when it resolves, the tool calls
    [getDefaultHeaders] on the client the SDK returned and answers with
    [{encryption, defaultHeaders}] only, [encryption] being [null] when the
    SDK gave none. *)
Theorem handleInitializeAgent_behaviour (w : World) (payload : value) (s : state) :
  let options := nullish payload (VObj []) in
  (is_object_like options = false ->
   handleInitializeAgent w payload s
   = (Throw (ZodError [Issue "custom" (Some "initializeAgentOptions must be an object")]),
      s))
  /\ (forall result g headers,
        is_object_like options = true ->
        sdk_initializeAgent w (trace s) options = Ok result ->
        get_prop (get_prop result "client") "getDefaultHeaders" = VFun g ->
        host_call w (trace s ++ [EvInitializeAgent options]) g
          (get_prop result "client") [] = Ok headers ->
        handleInitializeAgent w payload s
        = (Ok (VObj [("encryption", nullish (get_prop result "encryption") VNull);
                     ("defaultHeaders", headers)]),
           add_events [EvInitializeAgent options;
                       EvCall g (get_prop result "client") []] s)).
Proof.
  cbv zeta. unfold handleInitializeAgent, zparse, initializeAgentSchema, objectLike.
  cbn [parse]. split.
  - intros Ho. now rewrite Ho.
  - intros result g headers Ho Hs Hg Hh. rewrite Ho. mstep. rewrite Hs. mstep.
    unfold callMethod. rewrite Hg, bind_callFunction.
    cbn [trace add_events]. rewrite Hh. mstep. reflexivity.
Qed.

(** ** What a search payload may hold *)

Lemma finish_invalid (out : value) (errs i : list issue) :
  finish out errs = Invalid i -> i <> [].
Proof. destruct errs; [discriminate|]. intros [= <-]. discriminate. Qed.

Lemma parse_invalid_non_empty (sc : schema) (v : value) (i : list issue) :
  parse sc v = Invalid i -> i <> [].
Proof.
  revert v i. induction sc; intros v i; cbn [parse].
  - destruct v; try (intros [= <-]; discriminate).
    destruct minLength as [[n m]|]; [|discriminate].
    destruct (n <=? String.length s)%nat; [discriminate|]. intros [= <-]. discriminate.
  - destruct v as [| | |[| |]| | | |]; try (intros [= <-]; discriminate);
      apply finish_invalid.
  - destruct v; intros [= <-]; discriminate.
  - destruct v; try (intros [= <-]; discriminate).
    destruct (existsb _ _); [discriminate|]. intros [= <-]. discriminate.
  - destruct v; try (intros [= <-]; discriminate). apply finish_invalid.
  - induction options as [|s0 rest IHr]; [intros [= <-]; discriminate|].
    destruct (parse s0 v); [discriminate | exact IHr].
  - destruct v; try (intros [= <-]; discriminate). apply finish_invalid.
  - destruct v; try (intros [= <-]; discriminate).
    match goal with |- context [let '(_, _) := ?t in _] => destruct t end.
    apply finish_invalid.
  - destruct v; try discriminate; apply IHsc.
  - destruct (check v); [discriminate|]. intros [= <-]. discriminate.
  - discriminate.
Qed.

Lemma parse_object_valid (shape : list (string * schema)) (u : unknownKeys)
    (v x : value) :
  parse (ZObject shape u) v = Valid x ->
  (forall k, In k (keys_of x) -> In k (map fst shape))
  /\ (NoDup (map fst shape) ->
      forall k sc, In (k, sc) shape ->
                   parse sc (get_prop v k) = Valid (get_prop x k)).
Proof.
  destruct v as [| | | | |items|props|]; try discriminate.
  cbn [parse].
  remember (fix fields (sh : list (string * schema))
              : list (string * value) * list issue :=
              match sh with
              | [] => ([], [])
              | (k, s) :: rest =>
                  let '(out, errs) := fields rest in
                  match parse s (get_prop (VObj props) k) with
                  | Valid x0 =>
                      (if has_key (VObj props) k || negb (is_undefined x0)
                       then (k, x0) :: out else out, errs)
                  | Invalid i => (out, i ++ errs)
                  end
              end) as F eqn:HF.
  assert (F [] = ([], [])) as Hnil by (subst F; reflexivity).
  assert (forall k sc rest,
            F ((k, sc) :: rest)
            = let '(out, errs) := F rest in
              match parse sc (get_prop (VObj props) k) with
              | Valid x0 =>
                  (if has_key (VObj props) k || negb (is_undefined x0)
                   then (k, x0) :: out else out, errs)
              | Invalid i => (out, i ++ errs)
              end) as Hcons by (intros; subst F; reflexivity).
  clear HF.
  assert (forall sh out,
            F sh = (out, []) ->
            (forall k, In k (map fst out) -> In k (map fst sh))
            /\ (NoDup (map fst sh) ->
                forall k sc, In (k, sc) sh ->
                             parse sc (get_prop (VObj props) k)
                             = Valid (get_prop (VObj out) k))) as HF.
  { induction sh as [|[k0 sc0] rest IH]; intros out Hout.
    - rewrite Hnil in Hout. injection Hout as <-. split; [intros k []|].
      intros _ k sc [].
    - rewrite Hcons in Hout. destruct (F rest) as [out' errs'] eqn:Hrest.
      destruct (parse sc0 (get_prop (VObj props) k0)) as [x0|i] eqn:Hp.
      2: { injection Hout as _ He.
           exfalso. apply parse_invalid_non_empty in Hp.
           apply app_eq_nil in He as [-> _]. congruence. }
      remember (has_key (VObj props) k0 || negb (is_undefined x0)) as b eqn:Hb.
      injection Hout as Hout ->. destruct (IH out' eq_refl) as [IHk IHv].
      symmetry in Hb. split.
      + intros k Hin. cbn [map fst]. subst out. destruct b.
        * cbn [map fst In] in Hin.
          destruct Hin as [<-|Hin]; [now left | right; now apply IHk].
        * right. now apply IHk.
      + intros Hnd k sc Hin. cbn [map fst] in Hnd. apply NoDup_cons in Hnd as [Hni Hnd].
        destruct Hin as [[= <- <-]|Hin].
        * assert (assoc k0 out' = None) as Hnone.
          { destruct (assoc k0 out') eqn:Ea; [|reflexivity]. exfalso. apply Hni.
            apply list_elem_of_In, IHk. clear - Ea.
            induction out' as [|[k' a'] r IHr]; [discriminate|]. simpl in *.
            destruct (String.eqb k0 k') eqn:E;
              [apply String.eqb_eq in E; now left | right; now apply IHr]. }
          rewrite Hp. f_equal. subst out. cbn [get_prop]. destruct b.
          -- cbn [assoc]. now rewrite String.eqb_refl.
          -- rewrite Hnone. apply orb_false_elim in Hb as [_ Hb].
             destruct x0; try discriminate. reflexivity.
        * rewrite (IHv Hnd k sc Hin). f_equal. subst out. cbn [get_prop].
          destruct b; [|reflexivity].
          cbn [assoc]. destruct (String.eqb k k0) eqn:E; [|reflexivity].
          apply String.eqb_eq in E as ->. exfalso. apply Hni.
          apply list_elem_of_In. apply in_map_iff. now exists (k0, sc). }
  destruct (F shape) as [out errs] eqn:HFs.
  destruct errs as [|e errs]; [|cbn [app finish]; discriminate].
  cbn [app]. destruct (match u with Strip => _ | Strict => _ end);
    cbn [finish]; [|discriminate].
  intros [= <-]. exact (HF shape out HFs).
Qed.

Lemma parse_bounded_number (lo hi : Q) (v y : value) :
  parse (ZOptional (ZOptional (ZNumber [CheckMin lo; CheckMax hi]))) v = Valid y ->
  y = VUndefined
  \/ exists q, y = VNum (Finite q) /\ (lo <= q)%Q /\ (q <= hi)%Q.
Proof.
  cbn [parse].
  destruct v as [| | |[|negative|q]| | | |]; try discriminate.
  - intros [= <-]. now left.
  - destruct negative; cbv; discriminate.
  - cbn [flat_map]. unfold numberCheck_issue. cbv zeta.
    destruct (Qle_bool lo q) eqn:Hlo; [|cbn [app finish]; discriminate].
    destruct (Qle_bool q hi) eqn:Hhi; [|cbn [app finish]; discriminate].
    cbn [app finish]. intros [= <-]. right. exists q.
    split; [reflexivity|]. split; now apply Qle_bool_iff.
Qed.

Lemma parse_positive_integer (v y : value) :
  parse (ZOptional (ZOptional (ZNumber [CheckInt; CheckPositive]))) v = Valid y ->
  y = VUndefined
  \/ exists q, y = VNum (Finite q) /\ (0 < q)%Q /\ Qden (Qred q) = 1%positive.
Proof.
  cbn [parse].
  destruct v as [| | |[|negative|q]| | | |]; try discriminate.
  - intros [= <-]. now left.
  - cbn [flat_map]. unfold numberCheck_issue. cbv zeta.
    destruct (Z.pos (Qden (Qred q)) =? 1)%Z eqn:Hint; [|cbn [app finish]; discriminate].
    destruct (Qle_bool q 0) eqn:Hpos; cbn [negb app finish]; [discriminate|].
    intros [= <-]. right. exists q. split; [reflexivity|]. split.
    + apply Qnot_le_lt. intros Hle. apply Qle_bool_iff in Hle. congruence.
    + apply Z.eqb_eq in Hint. congruence.
Qed.

(** X19 (registrySearchParamsSchema). A search payload that passes validation
    is handed on holding none but the fifteen declared search keys; its
    [minTrust], when present, is a finite number between 0 and 100, and its
    [page] and [limit], when present, are positive whole numbers. *)
Theorem search_payload_sanitised (payload x : value) :
  parse registrySearchParamsSchema payload = Valid x ->
  (forall k, In k (keys_of x) -> In k searchKeys)
  /\ (get_prop x "minTrust" = VUndefined
      \/ exists q, get_prop x "minTrust" = VNum (Finite q)
                   /\ (0 <= q)%Q /\ (q <= 100 # 1)%Q)
  /\ (forall k, k = "page" \/ k = "limit" ->
                get_prop x k = VUndefined
                \/ exists q, get_prop x k = VNum (Finite q)
                             /\ (0 < q)%Q /\ Qden (Qred q) = 1%positive).
Proof.
  intros Hparse.
  destruct (parse_object_valid _ _ _ _ Hparse) as [Hkeys Hfields].
  assert (NoDup (map fst
                   (map (fun ks : string * schema => (fst ks, ZOptional (snd ks)))
                      [("q", ZOptional z_string);
                       ("page", ZOptional (ZNumber [CheckInt; CheckPositive]));
                       ("limit", ZOptional (ZNumber [CheckInt; CheckPositive]));
                       ("registry", ZOptional z_string);
                       ("registries", ZOptional (ZArray z_string));
                       ("capabilities", ZOptional (ZArray z_string));
                       ("protocols", ZOptional (ZArray z_string));
                       ("minTrust", ZOptional (ZNumber [CheckMin 0; CheckMax (100 # 1)]));
                       ("adapters", ZOptional (ZArray z_string));
                       ("sortBy", ZOptional z_string);
                       ("sortOrder", ZOptional (ZEnum ["asc"; "desc"]));
                       ("type", ZOptional z_string);
                       ("verified", ZOptional ZBoolean);
                       ("online", ZOptional ZBoolean);
                       ("metadata",
                        ZOptional
                          (ZRecord (ZArray (ZUnion [z_string; ZNumber []; ZBoolean]))))])))
    as Hnd.
  { apply (bool_decide_unpack _). vm_compute. reflexivity. }
  specialize (Hfields Hnd). split; [exact Hkeys|]. split.
  - eapply parse_bounded_number, Hfields. cbn [map fst snd In]. tauto.
  - intros k [-> | ->]; eapply parse_positive_integer, Hfields;
      cbn [map fst snd In]; tauto.
Qed.

(** ** The shape of every answer *)

Lemma resolves_throw (R : value -> Prop) (e : error) : resolves_with R (throw e).
Proof. intros s v s' H. discriminate. Qed.

Lemma resolves_bind {A : Type} (R : value -> Prop) (m : M A) (k : A -> M value) :
  (forall a, resolves_with R (k a)) -> resolves_with R (bind m k).
Proof.
  intros Hk s v s'. unfold bind. destruct (m s) as [[a|e] s1]; [apply Hk|discriminate].
Qed.

Lemma resolves_try_catch (R : value -> Prop) (m : M value) (h : error -> M value) :
  resolves_with R m -> (forall e, resolves_with R (h e)) ->
  resolves_with R (try_catch m h).
Proof.
  intros Hm Hh s v s'. unfold try_catch. specialize (Hm s).
  destruct (m s) as [[a|e] s1]; [intros [= <- <-]; now apply (Hm a s1) | apply Hh].
Qed.

Lemma resolves_wrapResult (w : World) (operation : string) (result : value) :
  resolves_with (envelope operation) (wrapResult w operation result).
Proof.
  unfold wrapResult. apply resolves_bind. intros mapped s v s' [= <- _].
  now exists mapped.
Qed.

Lemma resolves_dispatchMethod (w : World) (operation : string) (payload : value)
    (definition : OperationDefinition) (clientObj : value) :
  match definition with Custom _ _ => False | _ => True end ->
  resolves_with (envelope operation)
    (dispatchMethod w operation payload definition clientObj).
Proof.
  intros Hd. unfold dispatchMethod. cbv zeta.
  destruct (typeof (resolveTarget clientObj (pathOf definition)));
    try apply resolves_throw.
  destruct definition; [| | | |destruct Hd];
    repeat first [apply resolves_wrapResult | apply resolves_bind; intros ?].
Qed.

Lemma resolves_executeBody (w : World) (provider : RegistryBrokerClientProvider)
    (operation : string) (payload : value) (hc : option HederaOperatorClient) :
  resolves_with (envelope operation) (executeBody w provider operation payload hc).
Proof.
  unfold executeBody.
  destruct (CONVERSATION_OPERATIONS_has operation);
    [apply resolves_bind; intros ?; apply resolves_wrapResult|].
  destruct (String.eqb operation "initializeAgent");
    [apply resolves_bind; intros ?; apply resolves_wrapResult|].
  destruct (lookupDefinition operation) as [definition| |].
  - destruct definition;
      try (apply resolves_bind; intros clientObj; now apply resolves_dispatchMethod).
    repeat first [apply resolves_wrapResult | apply resolves_bind; intros ?].
  - apply resolves_bind. intros ?. apply resolves_throw.
  - apply resolves_throw.
Qed.

Lemma resolves_recover (operation : string) (e : error) :
  resolves_with (envelope operation) (recover operation e).
Proof.
  destruct e; try apply resolves_throw.
  intros s v s' [= <- _]. eexists. reflexivity.
Qed.

(** X20. Whatever the input and the world, when [execute] resolves its value
    is [{success: true, operation, result}] with the operation of the input:
    the closing [return null] is never reached, and a result is never handed
    back bare. *)
Theorem execute_resolves_with_envelope (w : World)
    (provider : RegistryBrokerClientProvider) (rawInput : value)
    (hc : option HederaOperatorClient) (s s' : state) (v : value) :
  execute w provider rawInput hc s = (Ok v, s') ->
  exists operation,
    get_prop rawInput "operation" = VStr operation
    /\ envelope operation v
    /\ v <> VNull.
Proof.
  unfold execute.
  destruct (parseToolInput_cases rawInput)
    as [(issues & _ & ->) | (operation & Ho & ->)]; [discriminate|].
  intros H. exists operation. split; [exact Ho|].
  assert (envelope operation v) as He.
  { revert H. apply resolves_try_catch;
      [apply resolves_executeBody | apply resolves_recover]. }
  split; [exact He|]. destruct He as (result & ->). discriminate.
Qed.

(** ** Optional string fields *)

(** X21. An operation with an optional string field ([setApiKey],
    [setLedgerApiKey], [facets]) calls its method with [undefined] when the
    payload is absent, [null] or [{}], and with the string of the field when
    the payload holds just that field, the empty string included (which a
    required field refuses). *)
Theorem optional_string_operation (w : World) (operation path field : string)
    (payload clientObj : value) (f : nat) (s : state) :
  resolveTarget clientObj path = VFun f ->
  (nullish payload (VObj []) = VObj [] ->
   dispatchMethod w operation payload (StringArg path field true) clientObj s
   = (do result <- settle (host_call w (trace s) f clientObj [VUndefined]);
      wrapResult w operation result)
       (add_events [EvCall f clientObj [VUndefined]] s))
  /\ (forall text,
        payload = VObj [(field, VStr text)] ->
        dispatchMethod w operation payload (StringArg path field true) clientObj s
        = (do result <- settle (host_call w (trace s) f clientObj [VStr text]);
           wrapResult w operation result)
            (add_events [EvCall f clientObj [VStr text]] s)).
Proof.
  intros Hf. unfold dispatchMethod. cbn [pathOf]. rewrite Hf. cbn [typeof].
  rewrite string_input. unfold zparse. split.
  - intros ->. cbn [parse z_string get_prop assoc has_key orb negb is_undefined
                       filter list_filter app finish].
    rewrite bind_ret. cbn [get_prop assoc]. now rewrite bind_callFunction.
  - intros text ->. cbn [nullish parse z_string get_prop assoc].
    rewrite String.eqb_refl. cbn [parse has_key get_prop assoc].
    rewrite String.eqb_refl. cbn [orb].
    rewrite filter_cons. cbn [fst existsb]. rewrite String.eqb_refl.
    cbn [orb negb]. destruct (decide (Is_true false)) as [[]|_].
    cbn [filter list_filter app finish]. rewrite bind_ret.
    cbn [get_prop assoc]. rewrite String.eqb_refl. now rewrite bind_callFunction.
Qed.

(** ** The table of operations *)

Lemma table_paths :
  forallb (fun kd => String.eqb (pathOf (snd kd)) (fst kd)
                     && (length (split_dots (fst kd)) <=? 2)%nat)
    OPERATION_DEFINITIONS = true.
Proof. vm_compute. reflexivity. Qed.

(** X22. Every operation of the table calls the client method of its own
    name: the path of its definition is the operation name, a plain name or
    two names joined by one dot, so [a.b] is the method [b] of [client.a]. *)
Theorem operation_names_its_method (operation : string)
    (definition : OperationDefinition) :
  assoc operation OPERATION_DEFINITIONS = Some definition ->
  pathOf definition = operation
  /\ (length (split_dots operation) <= 2)%nat
  /\ forall clientObj,
       resolveTarget clientObj (pathOf definition) = resolveTarget clientObj operation.
Proof.
  intros H. apply assoc_In in H.
  pose proof (proj1 (forallb_forall _ _) table_paths _ H) as Hp.
  cbn [fst snd] in Hp. apply andb_prop in Hp as [Hp Hl].
  apply String.eqb_eq in Hp. apply Nat.leb_le in Hl.
  split; [exact Hp|]. split; [exact Hl|]. intros clientObj. now rewrite Hp.
Qed.

(** ** The properties at the inputs of the repository's tests *)



Lemma derived_credentials_trimmed_witness :
  exists resolved,
    fst (resolveLedgerOptions test_world test_provider
           (Some {| hederaClient := Some hedera_operator |}) initial_state)
    = Ok (Some resolved)
    /\ trim (accountId (authOptions resolved)) = accountId (authOptions resolved)
    /\ nonEmpty (accountId (authOptions resolved)) = true.
Proof.
  assert (exists resolved,
            fst (resolveLedgerOptions test_world test_provider
                   (Some {| hederaClient := Some hedera_operator |}) initial_state)
            = Ok (Some resolved))
    as (resolved & Hr) by (vm_compute; eexists; reflexivity).
  exists resolved. split; [exact Hr|].
  exact (proj1 (derived_credentials_trimmed test_world test_provider _ _ resolved
                  eq_refl Hr)).
Defined.

Lemma buildClientOptions_secrets_clean_witness :
  exists options,
    fst (buildClientOptions (sample_world key_vars mock_calls) keyed_provider
           initial_state) = Ok options
    /\ apiKey options = Some "rbk_config"
    /\ (forall k, apiKey options = Some k -> trim k = k /\ nonEmpty k = true).
Proof.
  assert (exists options,
            fst (buildClientOptions (sample_world key_vars mock_calls) keyed_provider
                   initial_state) = Ok options
            /\ apiKey options = Some "rbk_config")
    as (options & Hb & Hk) by (vm_compute; eexists; split; reflexivity).
  exists options. split; [exact Hb|]. split; [exact Hk|].
  exact (proj1 (buildClientOptions_secrets_clean _ _ _ options Hb)).
Defined.

Lemma buildClientOptions_secret_sources_witness :
  exists options evs,
    buildClientOptions (sample_world key_vars mock_calls) keyed_provider initial_state
    = (Ok options, add_events evs initial_state)
    /\ apiKey options = Some "rbk_config"
    /\ ledgerApiKey options = None
    /\ ~ In (EvEnvRead "REGISTRY_BROKER_API_KEY") evs
    /\ ~ In (EvEnvRead "REGISTRY_BROKER_LEDGER_KEY") evs.
Proof.
  destruct (buildClientOptions_secret_sources (sample_world key_vars mock_calls)
              keyed_provider initial_state)
    as (options & evs & Hb & Ha & Hl).
  assert (normalizeSecret (apiKey (clientOverrides (configuredClient keyed_provider)))
          = Some "rbk_config") as Hc by (vm_compute; reflexivity).
  assert (normalizeSecret
            (ledgerApiKey (clientOverrides (configuredClient keyed_provider)))
          = None) as Hn by (vm_compute; reflexivity).
  destruct Ha as [Ha Hra]; [left; rewrite Hc; discriminate|].
  destruct Hl as [Hl Hrl]; [right; reflexivity|].
  exists options, evs. rewrite <- Hc at 1. rewrite <- Hn.
  repeat split; assumption.
Defined.


Lemma local_operations_leave_provider_witness :
  clientPromise
    (snd (execute test_world test_provider
            (toolInput "conversation.send"
               (VObj [("handleId", VStr "handle-a"); ("message", VStr "hello")]))
            (Some hedera_stub) state_with_handle))
  = clientPromise state_with_handle.
Proof.
  exact (proj1 (local_operations_leave_provider test_world test_provider
                  (toolInput "conversation.send"
                     (VObj [("handleId", VStr "handle-a"); ("message", VStr "hello")]))
                  "conversation.send"
                  (VObj [("handleId", VStr "handle-a"); ("message", VStr "hello")])
                  (Some hedera_stub) state_with_handle eq_refl
                  (or_introl eq_refl))).
Defined.

Lemma execute_keeps_cached_client_witness :
  clientPromise
    (snd (execute test_world test_provider
            (toolInput "search" (VObj [("q", VStr "agent")])) (Some hedera_stub)
            state_with_client))
  = Some (Ok mock_client).
Proof.
  assert (clientPromise state_with_client = Some (Ok mock_client)) as Hc
    by (vm_compute; reflexivity).
  exact (proj1 (execute_keeps_cached_client test_world test_provider
                  (toolInput "search" (VObj [("q", VStr "agent")]))
                  (Some hedera_stub) state_with_client (Ok mock_client) Hc)).
Defined.

Lemma execute_keeps_handles_witness :
  is_Some
    (handles
       (snd (execute test_world test_provider
               (toolInput "conversation.send"
                  (VObj [("handleId", VStr "handle-a"); ("message", VStr "hello")]))
               (Some hedera_stub) state_with_handle))
     !! "handle-a").
Proof.
  assert (is_Some (handles state_with_handle !! "handle-a")) as Hh
    by (vm_compute; eexists; reflexivity).
  assert (forall payload,
            parseToolInput
              (toolInput "conversation.send"
                 (VObj [("handleId", VStr "handle-a"); ("message", VStr "hello")]))
            <> inr ("conversation.release", payload)) as Hp
    by (intros payload; vm_compute; discriminate).
  exact (execute_keeps_handles test_world test_provider _ (Some hedera_stub)
           state_with_handle "handle-a" Hp Hh).
Defined.

Lemma execute_method_unavailable_witness :
  execute test_world test_provider (toolInput "listProtocols" VUndefined)
    (Some hedera_stub) initial_state
  = (Throw (JsError ("Method " +:+ dquote +:+ "listProtocols" +:+ dquote
                       +:+ " is unavailable on the client")),
     state_with_client).
Proof.
  assert (assoc "listProtocols" OPERATION_DEFINITIONS = Some (NoArgs "listProtocols"))
    as Ht by (vm_compute; reflexivity).
  assert (getClient test_world test_provider
            (Some {| hederaClient := Some hedera_stub |}) initial_state
          = (Ok mock_client, state_with_client)) as Hg
    by (vm_compute; reflexivity).
  assert (typeof (resolveTarget mock_client (pathOf (NoArgs "listProtocols")))
          <> TFunction) as Hf
    by (vm_compute; discriminate).
  exact (execute_method_unavailable test_world test_provider "listProtocols"
           (NoArgs "listProtocols") VUndefined (Some hedera_stub) initial_state
           state_with_client mock_client Ht Hg Hf).
Defined.

Lemma execute_returns_plain_result_witness :
  exists definition parsedPayload,
    assoc "search" OPERATION_DEFINITIONS = Some definition
    /\ execute test_world test_provider
         (toolInput "search" (VObj [("q", VStr "agent")])) (Some hedera_stub)
         initial_state
       = (Ok (VObj [("success", VBool true);
                    ("operation", VStr "search");
                    ("result", VObj [("hits", VArr [])])]),
          add_events [EvCall 1 mock_client (methodArgs definition parsedPayload)]
            state_with_client).
Proof.
  assert (exists definition,
            assoc "search" OPERATION_DEFINITIONS = Some definition
            /\ resolveTarget mock_client (pathOf definition) = VFun 1
            /\ parse (declaredSchema definition)
                 (nullish (VObj [("q", VStr "agent")]) (VObj []))
               = Valid (VObj [("q", VStr "agent")])
            /\ methodArgs definition (VObj [("q", VStr "agent")])
               = [VObj [("q", VStr "agent")]])
    as (definition & Ht & Hf & Hp & Ha)
    by (vm_compute; eexists; repeat split; reflexivity).
  assert (getClient test_world test_provider
            (Some {| hederaClient := Some hedera_stub |}) initial_state
          = (Ok mock_client, state_with_client)) as Hg
    by (vm_compute; reflexivity).
  exists definition, (VObj [("q", VStr "agent")]). split; [exact Ht|].
  exact (execute_returns_plain_result test_world test_provider "search" definition
           (VObj [("q", VStr "agent")]) (Some hedera_stub) initial_state
           state_with_client mock_client 1 (VObj [("q", VStr "agent")])
           (VObj [("hits", VArr [])]) Ht Hg Hf Hp eq_refl eq_refl).
Defined.

Lemma required_string_operation_witness :
  dispatchMethod test_world "resolveUaid" (VObj [("uaid", VStr "uaid:demo")])
    (StringArg "resolveUaid" "uaid" false) mock_client state_with_client
  = (do result <- settle (host_call test_world (trace state_with_client) 2
                            mock_client [VStr "uaid:demo"]);
     wrapResult test_world "resolveUaid" result)
      (add_events [EvCall 2 mock_client [VStr "uaid:demo"]] state_with_client).
Proof.
  assert (only_field (nullish (VObj [("uaid", VStr "uaid:demo")]) (VObj []))
            "uaid" "uaid:demo") as Ho.
  { exists [("uaid", VStr "uaid:demo")]. split; [reflexivity|].
    split; [reflexivity|]. split; [discriminate|].
    intros k v [[= <- _]|[]]. reflexivity. }
  exact (proj1 (required_string_operation test_world "resolveUaid" "resolveUaid"
                  "uaid" (VObj [("uaid", VStr "uaid:demo")]) mock_client 2
                  state_with_client eq_refl)
           "uaid:demo" Ho).
Defined.

Lemma conversation_release_twice_witness :
  handleConversationOperation test_world "conversation.release"
    (VObj [("handleId", VStr "handle-a")])
    (snd (handleConversationOperation test_world "conversation.release"
            (VObj [("handleId", VStr "handle-a")]) state_with_handle))
  = (Ok (VBool false),
     snd (handleConversationOperation test_world "conversation.release"
            (VObj [("handleId", VStr "handle-a")]) state_with_handle)).
Proof.
  assert ("handle-a" <> EmptyString) as Hne by discriminate.
  exact (conversation_release_twice test_world (VObj [("handleId", VStr "handle-a")])
           "handle-a" state_with_handle Hne eq_refl eq_refl).
Defined.

Lemma resolveTarget_paths_witness :
  resolveTarget mock_client "chat" = get_prop mock_client "chat"
  /\ resolveTarget mock_client "chat.start" = VFun 3.
Proof.
  exact (resolveTarget_paths mock_client "chat" "start" eq_refl eq_refl).
Defined.

Lemma deriveLedgerOptionsFromHederaClient_fallthrough_witness :
  (exists message,
     deriveLedgerOptionsFromHederaClient test_world test_provider
       (Some {| hederaClient := Some hedera_stub |}) initial_state
     = (Ok None,
        add_events (EvGetOperator :: logged test_provider LWarn message) initial_state))
  /\ deriveLedgerOptionsFromHederaClient test_world test_provider
       (Some {| hederaClient := Some hedera_throwing |}) initial_state
     = (Throw (JsError "operator unavailable"),
        add_events [EvGetOperator] initial_state).
Proof.
  split.
  - exact (proj1 (deriveLedgerOptionsFromHederaClient_fallthrough test_world
                    test_provider (Some {| hederaClient := Some hedera_stub |})
                    initial_state) eq_refl).
  - exact (proj2 (deriveLedgerOptionsFromHederaClient_fallthrough test_world
                    test_provider (Some {| hederaClient := Some hedera_throwing |})
                    initial_state) (JsError "operator unavailable") eq_refl).
Defined.

Lemma handleInitializeAgent_behaviour_witness :
  handleInitializeAgent test_world (VStr "agent") initial_state
  = (Throw (ZodError [Issue "custom" (Some "initializeAgentOptions must be an object")]),
     initial_state).
Proof.
  exact (proj1 (handleInitializeAgent_behaviour test_world (VStr "agent") initial_state)
           eq_refl).
Defined.

Lemma search_payload_sanitised_witness :
  exists x,
    parse registrySearchParamsSchema
      (VObj [("q", VStr "agent"); ("minTrust", VNum (Finite (50 # 1)));
             ("page", VNum (Finite (2 # 1))); ("extra", VStr "dropped")])
    = Valid x
    /\ forall k, In k (keys_of x) -> In k searchKeys.
Proof.
  assert (exists x,
            parse registrySearchParamsSchema
              (VObj [("q", VStr "agent"); ("minTrust", VNum (Finite (50 # 1)));
                     ("page", VNum (Finite (2 # 1))); ("extra", VStr "dropped")])
            = Valid x)
    as (x & Hx) by (vm_compute; eexists; reflexivity).
  exists x. split; [exact Hx|].
  exact (proj1 (search_payload_sanitised _ x Hx)).
Defined.

Lemma execute_resolves_with_envelope_witness :
  exists v s',
    execute test_world test_provider
      (toolInput "search" (VObj [("q", VStr "agent")])) (Some hedera_stub)
      initial_state = (Ok v, s')
    /\ envelope "search" v.
Proof.
  assert (exists v s',
            execute test_world test_provider
              (toolInput "search" (VObj [("q", VStr "agent")])) (Some hedera_stub)
              initial_state = (Ok v, s'))
    as (v & s' & He) by (vm_compute; do 2 eexists; reflexivity).
  exists v, s'. split; [exact He|].
  destruct (execute_resolves_with_envelope _ _ _ _ _ _ _ He)
    as (operation & [= <-] & Hv & _).
  exact Hv.
Defined.

Lemma optional_string_operation_witness :
  dispatchMethod test_world "setApiKey" VUndefined (StringArg "setApiKey" "apiKey" true)
    (VObj [("setApiKey", VFun 8)]) state_with_client
  = (do result <- settle (host_call test_world (trace state_with_client) 8
                            (VObj [("setApiKey", VFun 8)]) [VUndefined]);
     wrapResult test_world "setApiKey" result)
      (add_events [EvCall 8 (VObj [("setApiKey", VFun 8)]) [VUndefined]]
         state_with_client).
Proof.
  exact (proj1 (optional_string_operation test_world "setApiKey" "setApiKey" "apiKey"
                  VUndefined (VObj [("setApiKey", VFun 8)]) 8 state_with_client
                  eq_refl)
           eq_refl).
Defined.

Lemma operation_names_its_method_witness :
  exists definition,
    assoc "chat.start" OPERATION_DEFINITIONS = Some definition
    /\ pathOf definition = "chat.start".
Proof.
  assert (exists definition,
            assoc "chat.start" OPERATION_DEFINITIONS = Some definition)
    as (definition & Hd) by (vm_compute; eexists; reflexivity).
  exists definition. split; [exact Hd|].
  exact (proj1 (operation_names_its_method "chat.start" definition Hd)).
Defined.
